(** * KodiTraining: the processing pipeline and its job registry

    A shallow embedding of [server/services/ffmpeg.js] and
    [server/routes/process.js], and the properties of the two pipelines;
    then of the handlers around them: [POST /order], the upload route's
    destination and [DELETE], the body the client's [setOrder] sends and
    the reordering of [DropZone].

    - JavaScript numbers are the type [number]: exact rationals extended
      with NaN and the two infinities.  Finite arithmetic is exact: the
      rounding error of binary64 and the sign of zero are not modelled.
    - Strings are sequences of 8-bit characters; [parseFloat] knows the
      ASCII white space.
    - The job registry [jobs] (a JS [Map]) is a [gmap string Job].
    - A path is the list of its segments; [join] is [path.join] on a
      normalised absolute base.
    - The encoder, the prober and the file system are an environment
      [Env] of oracles: what the tool reports for a command, what the
      prober answers for a path, what a directory lists, whether a write
      fails.
    - An [async] function is a computation in the monad [Pipeline]: state
      passing with exceptions, where a thrown [Error] is its message.  One
      pipeline runs from its start to its end; the interleaving of several
      jobs is not modelled.
    - The state also keeps two logs the source does not have: every
      [jobs.set], in order, and every command handed to the tool.
    - Console logging, the creation of the output directories (whose
      failure the source ignores) and the removal of the temporary file
      list are left out.

    The file has three parts: the program, the definitions the statements
    use, and the properties.  The handlers around the pipelines and the
    definitions of the further properties stand before the properties. *)

From Stdlib Require Import ZArith QArith Qround Qabs Lqa Lia.
From Stdlib Require Import Ascii String List Sorted DecimalString.
From stdpp Require Import base option list gmap strings pretty.
Import ListNotations.

Local Open Scope string_scope.
Local Open Scope Z_scope.
Local Open Scope Q_scope.

(** ** JavaScript numbers *)

Module JS.

Inductive number : Type :=
  | NaN
  | NegInf
  | Fin (q : Q)
  | PosInf.

Definition of_Z (z : Z) : number := Fin (inject_Z z).
Definition of_nat (n : nat) : number := of_Z (Z.of_nat n).

(** Sign of a number as a comparison with zero; [None] for NaN. *)
Definition sign (x : number) : option comparison :=
  match x with
  | NaN => None
  | NegInf => Some Lt
  | Fin q => Some (q ?= 0)
  | PosInf => Some Gt
  end.

Definition inf_of (c : comparison) : number :=
  match c with Lt => NegInf | Eq => NaN | Gt => PosInf end.

Definition neg (x : number) : number :=
  match x with
  | NaN => NaN
  | NegInf => PosInf
  | Fin q => Fin (- q)
  | PosInf => NegInf
  end.

Definition add (x y : number) : number :=
  match x, y with
  | NaN, _ | _, NaN => NaN
  | Fin a, Fin b => Fin (a + b)
  | PosInf, NegInf | NegInf, PosInf => NaN
  | PosInf, _ | _, PosInf => PosInf
  | NegInf, _ | _, NegInf => NegInf
  end.

Definition sub (x y : number) : number := add x (neg y).

Definition mul_sign (c d : comparison) : comparison :=
  match c, d with
  | Eq, _ | _, Eq => Eq
  | Lt, Lt | Gt, Gt => Gt
  | Lt, Gt | Gt, Lt => Lt
  end.

Definition mul (x y : number) : number :=
  match x, y with
  | Fin a, Fin b => Fin (a * b)
  | _, _ =>
      match sign x, sign y with
      | Some c, Some d => inf_of (mul_sign c d)
      | _, _ => NaN
      end
  end.

Definition div (x y : number) : number :=
  match x, y with
  | NaN, _ | _, NaN => NaN
  | Fin a, Fin b =>
      if Qeq_bool b 0 then inf_of (a ?= 0) else Fin (a / b)
  | Fin _, (PosInf | NegInf) => Fin 0
  | (PosInf | NegInf), (PosInf | NegInf) => NaN
  | (PosInf | NegInf), Fin b =>
      match sign x, (if Qeq_bool b 0 then Gt else b ?= 0) with
      | Some c, d => inf_of (mul_sign c d)
      | None, _ => NaN
      end
  end.

(** [x < y], [x > y]: false as soon as one side is NaN. *)
Definition lt (x y : number) : bool :=
  match x, y with
  | NaN, _ | _, NaN => false
  | Fin a, Fin b => match a ?= b with Lt => true | _ => false end
  | NegInf, NegInf => false
  | NegInf, _ => true
  | _, PosInf => match x with PosInf => false | _ => true end
  | _, _ => false
  end.

Definition gt (x y : number) : bool := lt y x.

(** Truthiness of a number: NaN and zero are falsy. *)
Definition truthy (x : number) : bool :=
  match x with
  | NaN => false
  | Fin q => negb (Qeq_bool q 0)
  | _ => true
  end.

(** [x || y] on numbers. *)
Definition or_else (x y : number) : number := if truthy x then x else y.

(** [Math.round]: the nearest integer, halves towards plus infinity. *)
Definition round (x : number) : number :=
  match x with
  | Fin q => Fin (inject_Z (Qfloor (q + (1 # 2))))
  | _ => x
  end.

Definition abs (x : number) : number :=
  match x with
  | NaN => NaN
  | Fin q => Fin (Qabs q)
  | _ => PosInf
  end.

Definition min (x y : number) : number :=
  match x, y with
  | NaN, _ | _, NaN => NaN
  | _, _ => if lt y x then y else x
  end.

Definition max (x y : number) : number :=
  match x, y with
  | NaN, _ | _, NaN => NaN
  | _, _ => if lt x y then y else x
  end.

(** Numeric equality up to the representation of a rational. *)
Definition eqv (x y : number) : Prop :=
  match x, y with
  | NaN, NaN | NegInf, NegInf | PosInf, PosInf => True
  | Fin a, Fin b => a == b
  | _, _ => False
  end.

End JS.

Export JS(number).
Declare Scope js_scope.
Delimit Scope js_scope with js.
Bind Scope js_scope with JS.number.
Infix "+" := JS.add : js_scope.
Infix "-" := JS.sub : js_scope.
Infix "*" := JS.mul : js_scope.
Infix "/" := JS.div : js_scope.

(** ** Strings: [split], [replace], [parseFloat] *)

Definition colon : ascii := ":"%char.

(** [s.split(sep)] for a one-character separator: never the empty list. *)
Fixpoint split (sep : ascii) (s : string) : list string :=
  match s with
  | EmptyString => [EmptyString]
  | String c r =>
      if Ascii.eqb c sep then EmptyString :: split sep r
      else match split sep r with
           | h :: t => String c h :: t
           | [] => [String c EmptyString]
           end
  end.

(** [s.replace(/c/g, by)] for a one-character pattern. *)
Fixpoint replace_all (c : ascii) (by_ : string) (s : string) : string :=
  match s with
  | EmptyString => EmptyString
  | String d r =>
      if Ascii.eqb d c then by_ ++ replace_all c by_ r
      else String d (replace_all c by_ r)
  end.

Definition is_white (c : ascii) : bool :=
  let n := nat_of_ascii c in
  ((n =? 32) || (n =? 9) || (n =? 10) || (n =? 11) || (n =? 12) || (n =? 13))%nat.

Definition digit_of (c : ascii) : option Z :=
  let n := nat_of_ascii c in
  if ((48 <=? n) && (n <=? 57))%nat then Some (Z.of_nat (n - 48)) else None.

Fixpoint skip_white (s : string) : string :=
  match s with
  | String c r => if is_white c then skip_white r else s
  | EmptyString => s
  end.

(** Reads the longest run of decimal digits at the head of [s]: the value
    accumulated onto [acc], the number of digits read, and the rest. *)
Fixpoint scan_digits (s : string) (acc : Z) (n : nat) : Z * nat * string :=
  match s with
  | String c r =>
      match digit_of c with
      | Some d => scan_digits r (10 * acc + d)%Z (S n)
      | None => (acc, n, s)
      end
  | EmptyString => (acc, n, s)
  end.

(** The exponent part [e[+-]digits] when it is well formed, else 0. *)
Definition scan_exponent (s : string) : Z :=
  match s with
  | String c r =>
      if (Ascii.eqb c "e" || Ascii.eqb c "E")%bool then
        let '(neg, r') :=
          match r with
          | String "+" t => (false, t)
          | String "-" t => (true, t)
          | _ => (false, r)
          end in
        let '(e, n, _) := scan_digits r' 0%Z 0%nat in
        match n with
        | O => 0%Z
        | S _ => if neg then (- e)%Z else e
        end
      else 0%Z
  | EmptyString => 0%Z
  end.

Definition pow10 (e : Z) : Q := Qpower 10 e.

(** The unsigned decimal literal at the head of [s], if there is one. *)
Definition scan_unsigned (s : string) : option Q :=
  let '(ip, ni, r1) := scan_digits s 0%Z 0%nat in
  let '(fp, nf, r2) :=
    match r1 with
    | String "." t => scan_digits t 0%Z 0%nat
    | _ => (0%Z, 0%nat, r1)
    end in
  match ni, nf with
  | O, O => None
  | _, _ =>
      let mant := inject_Z ip + inject_Z fp / pow10 (Z.of_nat nf) in
      Some (mant * pow10 (scan_exponent r2))
  end.

(** [parseFloat]: leading white space, a sign, then [Infinity] or the
    longest decimal literal; NaN when there is none. *)
Definition parseFloat (s : string) : number :=
  let s1 := skip_white s in
  let '(negative, s2) :=
    match s1 with
    | String "+" t => (false, t)
    | String "-" t => (true, t)
    | _ => (false, s1)
    end in
  let v :=
    if String.prefix "Infinity" s2 then JS.PosInf
    else match scan_unsigned s2 with
         | Some q => JS.Fin q
         | None => JS.NaN
         end in
  if negative then JS.neg v else v.

(** ** [services/ffmpeg.js]: parseTimemark *)

(** Parse timemark string (HH:MM:SS.ms) to seconds.  [None] is an absent
    ([undefined]) timemark. *)
Definition parseTimemark (timemark : option string) : number :=
  match timemark with
  | None | Some EmptyString => JS.of_Z 0
  | Some s =>
      match split colon s with
      | [p0; p1; p2] =>
          let hours := JS.or_else (parseFloat p0) (JS.of_Z 0) in
          let minutes := JS.or_else (parseFloat p1) (JS.of_Z 0) in
          let seconds := JS.or_else (parseFloat p2) (JS.of_Z 0) in
          (hours * JS.of_Z 3600 + minutes * JS.of_Z 60 + seconds)%js
      | _ => JS.of_Z 0
      end
  end.

(** ** Paths *)

(** An absolute path, as its segments from the root. *)
Definition path : Type := list string.

Definition join_segment (p : path) (seg : string) : path :=
  if String.eqb seg "" then p
  else if String.eqb seg "." then p
  else if String.eqb seg ".." then removelast p
  else (p ++ [seg])%list.

(** [path.join(base, rel)] for a normalised absolute [base]. *)
Definition join (base : path) (rel : string) : path :=
  fold_left join_segment (split "/"%char rel) base.

Definition render (p : path) : string :=
  String.concat "" (map (fun seg => "/" ++ seg) p).

(** ** The external tool *)

(** One argument of the command line: a plain string, or a template
    literal with one number spliced in. *)
Inductive arg : Type :=
  | Str (s : string)
  | Tmpl (before : string) (x : number) (after : string).

Coercion Str : string >-> arg.

(** A fluent-ffmpeg command, as its builder calls leave it. *)
Record Command : Type := mkCommand {
  inputs : list path;
  input_options : list arg;
  complex_filter : list arg;
  video_filters : list arg;
  video_codec : option string;
  audio_codec : option string;
  audio_bitrate : option string;
  output_options : list arg;
  output_path : option path
}.

(** The builder methods of a command. *)
Module Ffmpeg.
Definition ffmpeg : Command := mkCommand [] [] [] [] None None None [] None.
Definition input (p : path) (c : Command) : Command :=
  mkCommand (inputs c ++ [p])%list (input_options c) (complex_filter c)
    (video_filters c) (video_codec c) (audio_codec c) (audio_bitrate c)
    (output_options c) (output_path c).
Definition inputOptions (os : list arg) (c : Command) : Command :=
  mkCommand (inputs c) (input_options c ++ os)%list (complex_filter c)
    (video_filters c) (video_codec c) (audio_codec c) (audio_bitrate c)
    (output_options c) (output_path c).
Definition complexFilter (fs : list arg) (c : Command) : Command :=
  mkCommand (inputs c) (input_options c) fs
    (video_filters c) (video_codec c) (audio_codec c) (audio_bitrate c)
    (output_options c) (output_path c).
Definition videoFilter (f : arg) (c : Command) : Command :=
  mkCommand (inputs c) (input_options c) (complex_filter c)
    (video_filters c ++ [f])%list (video_codec c) (audio_codec c)
    (audio_bitrate c) (output_options c) (output_path c).
Definition videoCodec (v : string) (c : Command) : Command :=
  mkCommand (inputs c) (input_options c) (complex_filter c)
    (video_filters c) (Some v) (audio_codec c) (audio_bitrate c)
    (output_options c) (output_path c).
Definition audioCodec (v : string) (c : Command) : Command :=
  mkCommand (inputs c) (input_options c) (complex_filter c)
    (video_filters c) (video_codec c) (Some v) (audio_bitrate c)
    (output_options c) (output_path c).
Definition audioBitrate (v : string) (c : Command) : Command :=
  mkCommand (inputs c) (input_options c) (complex_filter c)
    (video_filters c) (video_codec c) (audio_codec c) (Some v)
    (output_options c) (output_path c).
Definition outputOptions (os : list arg) (c : Command) : Command :=
  mkCommand (inputs c) (input_options c) (complex_filter c)
    (video_filters c) (video_codec c) (audio_codec c) (audio_bitrate c)
    (output_options c ++ os)%list (output_path c).
Definition output (p : path) (c : Command) : Command :=
  mkCommand (inputs c) (input_options c) (complex_filter c)
    (video_filters c) (video_codec c) (audio_codec c) (audio_bitrate c)
    (output_options c) (Some p).
End Ffmpeg.

(** A progress event of the tool: [percent] and [timemark] may be absent. *)
Record Progress : Type := mkProgress {
  percent : option number;
  timemark : option string
}.

(** The terminal event of a run. *)
Inductive Termination : Type :=
  | End
  | Error (message : string).

(** What the tool does on a command: progress events, then one terminal
    event. *)
Record Run : Type := mkRun {
  events : list Progress;
  termination : Termination
}.

(** The result of a fallible call: a value, or a thrown [Error] (its
    message). *)
Inductive result (A : Type) : Type :=
  | Ok (a : A)
  | Throw (message : string).
Arguments Ok {A} a.
Arguments Throw {A} message.

(** The answer of the prober: an error, or the metadata's
    [format.duration] (absent, or a number). *)
Inductive Probe : Type :=
  | ProbeError (message : string)
  | ProbeFormat (duration : option number).

(** The world around the server. *)
Record Env : Type := mkEnv {
  dirname : path;                          (* __dirname of routes/process.js *)
  tmpdir : path;
  Date_now : N;
  readdirSync : path → result (list string);
  writeFile : path → string → option string; (* [Some m]: fails with m *)
  access : path → bool;
  ffprobe : path → Probe;
  run_tool : Command → Run
}.

(** ** The job registry and the pipeline monad *)

Inductive Status : Type := processing | done | error.

(** A record of the registry: [{ progress, status, error? }]. *)
Record Job : Type := mkJob {
  progress : number;
  status : Status;
  error_message : option string
}.

(** The state an activation of a pipeline works on: the registry [jobs],
    the pipeline's counter [completedSteps], and two logs that only record:
    every [jobs.set] in order ([history]) and every command handed to the
    tool ([ran]). *)
Record State : Type := mkState {
  jobs : gmap string Job;
  history : list (string * Job);
  ran : list Command;
  completedSteps : nat
}.

Definition init_state (registry : gmap string Job) : State :=
  mkState registry [] [] 0.

(** [jobs.set(jobId, job)] *)
Definition jobs_set (jobId : string) (job : Job) (st : State) : State :=
  mkState (<[jobId := job]> (jobs st)) (history st ++ [(jobId, job)])%list
    (ran st) (completedSteps st).

Definition set_completedSteps (n : nat) (st : State) : State :=
  mkState (jobs st) (history st) (ran st) n.

Definition log_command (c : Command) (st : State) : State :=
  mkState (jobs st) (history st) (ran st ++ [c])%list (completedSteps st).

Definition Pipeline (A : Type) : Type := State → result A * State.

Definition ret {A} (a : A) : Pipeline A := fun st => (Ok a, st).
Definition throw {A} (message : string) : Pipeline A :=
  fun st => (Throw message, st).
Definition bind {A B} (m : Pipeline A) (k : A → Pipeline B) : Pipeline B :=
  fun st =>
    match m st with
    | (Ok a, st') => k a st'
    | (Throw e, st') => (Throw e, st')
    end.
Definition lift {A} (r : result A) : Pipeline A := fun st => (r, st).
Definition modify (f : State → State) : Pipeline unit :=
  fun st => (Ok tt, f st).
Definition try_catch {A} (body : Pipeline A) (handler : string → Pipeline A)
  : Pipeline A :=
  fun st =>
    match body st with
    | (Ok a, st') => (Ok a, st')
    | (Throw e, st') => handler e st'
    end.

Declare Scope pipeline_scope.
Delimit Scope pipeline_scope with pipeline.
Notation "x <- c1 ;; c2" := (bind c1 (fun x => c2))
  (at level 100, c1 at next level, right associativity) : pipeline_scope.
Notation "c1 ;; c2" := (bind c1 (fun _ => c2))
  (at level 100, right associativity) : pipeline_scope.
Local Open Scope pipeline_scope.

(** A progress sink, as the pipelines pass it. *)
Definition Sink : Type := number → State → State.

(** The body of [new Promise(...)] around a command: register the
    progress handler, run, settle on the terminal event. *)
Definition run (env : Env) (command : Command)
    (on_progress : Progress → State → State) (describe : string → string)
  : Pipeline unit :=
  fun st =>
    let r := run_tool env command in
    let st' :=
      fold_left (fun s ev => on_progress ev s) (events r) (log_command command st) in
    match termination r with
    | End => (Ok tt, st')
    | Error m => (Throw (describe m), st')
    end.

(** ** [services/ffmpeg.js] *)

(** The compression configuration; an absent field is [None]. *)
Record Config : Type := mkConfig {
  crf : option number;
  preset : option string;
  maxWidth : option number;
  audioBitrate : option string;
  concatenateFirst : option bool
}.

(** [{}] *)
Definition empty_config : Config := mkConfig None None None None None.

(** [if (onProgress && progress.percent) onProgress(Math.round(progress.percent))] *)
Definition forward_percent (onProgress : option Sink) (progress : Progress)
  : State → State :=
  fun st =>
    match onProgress, percent progress with
    | Some sink, Some p => if JS.truthy p then sink (JS.round p) st else st
    | _, _ => st
    end.

(** The command [combinePair] builds.  The filter parts are kept as a
    list (the source joins them with [;]). *)
Definition combinePair_command (videoA videoB outputPath : path)
    (config : Config) : Command :=
  let crf := default (JS.of_Z 18) (crf config) in
  let preset := default "veryfast" (preset config) in
  let maxWidth := maxWidth config in
  let audioBitrate := default "192k" (audioBitrate config) in
  let command := Ffmpeg.ffmpeg in
  let command := Ffmpeg.input videoA command in
  let command := Ffmpeg.input videoB command in
  let filterParts : list arg :=
    [ Str "[0:v]scale=-2:720,setsar=1[left]";
      Str "[1:v]scale=-2:720,setsar=1[right]";
      Str "[left][right]hstack=inputs=2[v]";
      Str "[0:a][1:a]amerge=inputs=2[a]" ] in
  let filterParts :=
    match maxWidth with
    | Some w =>
        if JS.truthy w then
          (<[2%nat := Str "[left][right]hstack=inputs=2[vstacked]"]> filterParts
             ++ [Tmpl "[vstacked]scale=" w ":-2[v]"])%list
        else filterParts
    | None => filterParts
    end in
  let command := Ffmpeg.complexFilter filterParts command in
  let command :=
    Ffmpeg.outputOptions
      [ Str "-map"; Str "[v]";
        Str "-map"; Str "[a]";
        Str "-vsync"; Str "cfr";
        Str "-c:v"; Str "libx264";
        Str "-preset"; Str preset;
        Str "-crf"; Tmpl "" crf "";
        Str "-c:a"; Str "aac";
        Str "-b:a"; Str audioBitrate ] command in
  Ffmpeg.output outputPath command.

(** Combine two videos side-by-side using hstack filter. *)
Definition combinePair (env : Env) (videoA videoB outputPath : path)
    (onProgress : option Sink) (config : Config) : Pipeline unit :=
  run env (combinePair_command videoA videoB outputPath config)
    (forward_percent onProgress)
    (fun message => "Failed to combine videos: " ++ message).

(** Get the duration of a video file in seconds. *)
Definition getVideoDuration (env : Env) (videoPath : path) : result number :=
  match ffprobe env videoPath with
  | ProbeError message => Throw ("Failed to get video duration: " ++ message)
  | ProbeFormat None => Throw "Could not determine video duration"
  | ProbeFormat (Some duration) => Ok duration
  end.

(** The loop that sums the inputs' durations; a failed probe is skipped. *)
Definition sum_durations (env : Env) (inputPaths : list path) : number :=
  fold_left
    (fun totalDuration inputPath =>
       match getVideoDuration env inputPath with
       | Ok duration => (totalDuration + duration)%js
       | Throw _ => totalDuration
       end)
    inputPaths (JS.of_Z 0).

(** Truthiness of an optional string. *)
Definition truthy_string (s : option string) : bool :=
  match s with
  | None | Some EmptyString => false
  | Some _ => true
  end.

(** The percent the progress handler of [concatenateVideos] computes for
    an event; [None] is [undefined]. *)
Definition concat_percent (totalDuration : number) (progress : Progress)
  : option number :=
  if (JS.gt totalDuration (JS.of_Z 0) && truthy_string (timemark progress))%bool
  then
    let currentTime := parseTimemark (timemark progress) in
    Some (JS.min (JS.of_Z 99)
            (JS.round ((currentTime / totalDuration) * JS.of_Z 100)%js))
  else
    match percent progress with
    | Some p =>
        if JS.truthy p then Some (JS.min (JS.of_Z 100) (JS.round p)) else None
    | None => None
    end.

Definition concat_on_progress (onProgress : option Sink) (totalDuration : number)
    (progress : Progress) : State → State :=
  fun st =>
    match onProgress with
    | Some sink =>
        match concat_percent totalDuration progress with
        | Some percent => sink percent st
        | None => st
        end
    | None => st
    end.

Definition newline : string := String (ascii_of_nat 10) EmptyString.

(** The command [concatenateVideos] builds: stream copy, or re-encoding
    with VFR to CFR normalisation. *)
Definition concatenateVideos_command (tempListPath outputPath : path)
    (reencode : bool) : Command :=
  let command := Ffmpeg.ffmpeg in
  let command := Ffmpeg.input tempListPath command in
  let command :=
    Ffmpeg.inputOptions [Str "-f"; Str "concat"; Str "-safe"; Str "0"] command in
  let command :=
    if reencode then
      Ffmpeg.audioBitrate "192k"
        (Ffmpeg.audioCodec "aac"
           (Ffmpeg.outputOptions
              [ Str "-vsync"; Str "cfr";
                Str "-preset"; Str "veryfast";
                Str "-crf"; Str "18" ]
              (Ffmpeg.videoCodec "libx264" command)))
    else
      Ffmpeg.outputOptions [Str "-c"; Str "copy"] command in
  Ffmpeg.output outputPath command.

Definition tempListPath (env : Env) : path :=
  join (tmpdir env) ("ffmpeg-concat-" ++ pretty (Date_now env) ++ ".txt").

Definition fileListContent (inputPaths : list path) : string :=
  String.concat newline
    (map (fun p => "file '" ++ replace_all "'"%char "'\''" (render p) ++ "'")
       inputPaths).

(** Concatenate multiple videos using concat demuxer. *)
Definition concatenateVideos (env : Env) (inputPaths : list path)
    (outputPath : path) (onProgress : option Sink) (reencode : bool)
  : Pipeline unit :=
  match inputPaths with
  | [] => throw "No input videos provided for concatenation"
  | _ :: _ =>
      let totalDuration :=
        if (reencode && bool_decide (is_Some onProgress))%bool
        then sum_durations env inputPaths
        else JS.of_Z 0 in
      match writeFile env (tempListPath env) (fileListContent inputPaths) with
      | Some message => throw ("Failed to prepare concatenation: " ++ message)
      | None =>
          run env (concatenateVideos_command (tempListPath env) outputPath reencode)
            (concat_on_progress onProgress totalDuration)
            (fun message => "Failed to concatenate videos: " ++ message)
      end
  end.

(** The command [compressVideo] builds. *)
Definition compressVideo_command (inputPath outputPath : path)
    (config : Config) : Command :=
  let crf := default (JS.of_Z 28) (crf config) in
  let preset := default "slow" (preset config) in
  let maxWidth := maxWidth config in
  let audioBitrate := default "96k" (audioBitrate config) in
  let command := Ffmpeg.ffmpeg in
  let command := Ffmpeg.input inputPath command in
  let command :=
    Ffmpeg.outputOptions [Str "-crf"; Tmpl "" crf ""; Str "-preset"; Str preset]
      (Ffmpeg.videoCodec "libx264" command) in
  let command :=
    match maxWidth with
    | Some w =>
        if JS.truthy w then Ffmpeg.videoFilter (Tmpl "scale=" w ":-2") command
        else command
    | None => command
    end in
  let command := Ffmpeg.audioBitrate audioBitrate (Ffmpeg.audioCodec "aac" command) in
  Ffmpeg.output outputPath command.

(** Apply final compression to a video. *)
Definition compressVideo (env : Env) (inputPath outputPath : path)
    (config : Config) (onProgress : option Sink) : Pipeline unit :=
  run env (compressVideo_command inputPath outputPath config)
    (forward_percent onProgress)
    (fun message => "Failed to compress video: " ++ message).

(** The command [padVideo] builds: [tpad] clones the last frame, [apad]
    pads the audio with silence. *)
Definition padVideo_command (inputPath outputPath : path)
    (paddingDuration : number) : Command :=
  let command := Ffmpeg.ffmpeg in
  let command := Ffmpeg.input inputPath command in
  Ffmpeg.output outputPath
    (Ffmpeg.outputOptions [Str "-map"; Str "[v]"; Str "-map"; Str "[a]"]
       (Ffmpeg.complexFilter
          [ Tmpl "[0:v]tpad=stop_mode=clone:stop_duration=" paddingDuration "[v]";
            Tmpl "[0:a]apad=pad_dur=" paddingDuration "[a]" ]
          command)).

(** Pad a video with cloned frames and silent audio. *)
Definition padVideo (env : Env) (inputPath outputPath : path)
    (paddingDuration : number) (onProgress : option Sink) : Pipeline unit :=
  run env (padVideo_command inputPath outputPath paddingDuration)
    (forward_percent onProgress)
    (fun message => "Failed to pad video: " ++ message).

(** ** [routes/process.js] *)

(** Find the actual file path by ID (files are stored as id.ext). *)
Definition findFileById (env : Env) (dir : path) (id : string) : result path :=
  match readdirSync env dir with
  | Throw message => Throw message
  | Ok files =>
      match List.find (String.prefix id) files with
      | Some file => Ok (join dir file)
      | None => Throw ("File not found for ID: " ++ id)
      end
  end.

(** The video ordering [{ a: [], b: [] }]. *)
Record Order : Type := mkOrder {
  order_a : list string;
  order_b : list string
}.

(** [array[i]] on an array of identifiers; out of range it is [undefined],
    which [startsWith] and the template literal both read as the text
    "undefined". *)
Definition at_index (ids : list string) (i : nat) : string :=
  nth i ids "undefined".

(** [Math.round(((completedSteps + percent / 100) / totalSteps) * 100)] *)
Definition overallProgress (completedSteps totalSteps : nat) (percent : number)
  : number :=
  JS.round
    (((JS.of_nat completedSteps + percent / JS.of_Z 100) / JS.of_nat totalSteps)
       * JS.of_Z 100)%js.

(** [Math.round((completedSteps / totalSteps) * 100)] *)
Definition stepProgress (completedSteps totalSteps : nat) : number :=
  JS.round ((JS.of_nat completedSteps / JS.of_nat totalSteps) * JS.of_Z 100)%js.

(** The progress callback the pipelines hand to a stage: it reads the
    counter at the time of the event. *)
Definition update_progress (jobId : string) (totalSteps : nat) : Sink :=
  fun percent st =>
    jobs_set jobId
      (mkJob (overallProgress (completedSteps st) totalSteps percent) processing None)
      st.

(** [completedSteps++] *)
Definition increment : Pipeline unit :=
  modify (fun st => set_completedSteps (S (completedSteps st)) st).

(** [jobs.set(jobId, { progress: Math.round((completedSteps / totalSteps) * 100), status })] *)
Definition record_step (jobId : string) (totalSteps : nat) : Pipeline unit :=
  modify (fun st =>
    jobs_set jobId
      (mkJob (stepProgress (completedSteps st) totalSteps) processing None) st).

(** The [catch] block of both pipelines. *)
Definition on_error (jobId : string) (totalSteps : nat) (message : string)
  : Pipeline unit :=
  modify (fun st =>
    jobs_set jobId
      (mkJob (stepProgress (completedSteps st) totalSteps) error (Some message)) st) ;;
  throw message.

Definition outputDir (env : Env) : path := join (dirname env) "../../output".
Definition uploadsADir (env : Env) : path := join (dirname env) "../../uploads/a".
Definition uploadsBDir (env : Env) : path := join (dirname env) "../../uploads/b".

Section Pairwise.
Variables (env : Env) (jobId : string) (order : Order) (config : Config).

Let a := order_a order.
Let b := order_b order.
Definition numPairs : nat := length (order_a order).
Definition totalSteps_pairwise : nat := numPairs + 2.
Definition pairsDir : path := join (outputDir env) "pairs".

(** One turn of the loop of step 1, for pair [i]. *)
Definition combine_pair_at (i : nat) (pairPaths : list path)
  : Pipeline (list path) :=
  videoAPath <- lift (findFileById env (uploadsADir env) (at_index a i)) ;;
  videoBPath <- lift (findFileById env (uploadsBDir env) (at_index b i)) ;;
  let pairOutputPath := join pairsDir ("pair_" ++ pretty (i + 1)%nat ++ ".mp4") in
  combinePair env videoAPath videoBPath pairOutputPath
    (Some (update_progress jobId totalSteps_pairwise)) empty_config ;;
  increment ;;
  record_step jobId totalSteps_pairwise ;;
  ret (pairPaths ++ [pairOutputPath])%list.

(** Step 1: the loop over the indices still to do. *)
Fixpoint combine_pairs (indices : list nat) (pairPaths : list path)
  : Pipeline (list path) :=
  match indices with
  | [] => ret pairPaths
  | i :: rest =>
      pairPaths' <- combine_pair_at i pairPaths ;;
      combine_pairs rest pairPaths'
  end.

Definition combinedPath : path := join (outputDir env) "combined.mp4".
Definition finalPath : path := join (outputDir env) "final.mp4".

(** Step 2: concatenate all pairs. *)
Definition concatenate_pairs (pairPaths : list path) : Pipeline unit :=
  concatenateVideos env pairPaths combinedPath
    (Some (update_progress jobId totalSteps_pairwise)) false ;;
  increment ;;
  record_step jobId totalSteps_pairwise.

(** Step 3: compress the final video, then mark the job as done. *)
Definition compress_final (totalSteps : nat) : Pipeline unit :=
  compressVideo env combinedPath finalPath config
    (Some (update_progress jobId totalSteps)) ;;
  increment ;;
  modify (jobs_set jobId (mkJob (JS.of_Z 100) done None)).

(** The [try] block of [processVideos]. *)
Definition processVideos_try : Pipeline unit :=
  pairPaths <- combine_pairs (seq 0 numPairs) [] ;;
  concatenate_pairs pairPaths ;;
  compress_final totalSteps_pairwise.

(** Main processing pipeline. *)
Definition processVideos : Pipeline unit :=
  modify (set_completedSteps 0) ;;
  try_catch processVideos_try (on_error jobId totalSteps_pairwise).
End Pairwise.

Section ConcatenateFirst.
Variables (env : Env) (jobId : string) (order : Order) (config : Config).

Definition totalSteps_concatenateFirst : nat := 4.
Let totalSteps := totalSteps_concatenateFirst.

Definition concatAPath : path := join (outputDir env) "concat_a.mp4".
Definition concatBPath : path := join (outputDir env) "concat_b.mp4".
Definition paddedAPath : path := join (outputDir env) "concat_a_padded.mp4".
Definition paddedBPath : path := join (outputDir env) "concat_b_padded.mp4".

(** [ids.map(id => findFileById(dir, id))]: the first failure throws. *)
Fixpoint find_all (dir : path) (ids : list string) : result (list path) :=
  match ids with
  | [] => Ok []
  | id :: rest =>
      match findFileById env dir id with
      | Throw message => Throw message
      | Ok p =>
          match find_all dir rest with
          | Throw message => Throw message
          | Ok ps => Ok (p :: ps)
          end
      end
  end.

(** Steps 1 and 2: concatenate all videos of one camera, re-encoding. *)
Definition concatenate_camera (dir : path) (ids : list string) (out : path)
  : Pipeline unit :=
  videoPaths <- lift (find_all dir ids) ;;
  concatenateVideos env videoPaths out
    (Some (update_progress jobId totalSteps)) true ;;
  increment ;;
  record_step jobId totalSteps.

(** Check durations and pad if necessary: the two paths the combine step
    is to read.  The progress callback of the padding only logs. *)
Definition pad_shorter : Pipeline (path * path) :=
  durationA <- lift (getVideoDuration env concatAPath) ;;
  durationB <- lift (getVideoDuration env concatBPath) ;;
  let durationDiff := JS.abs (durationA - durationB)%js in
  if JS.gt durationDiff (JS.of_Z 5) then
    let paddingAmount := durationDiff in
    if JS.lt durationA durationB then
      padVideo env concatAPath paddedAPath paddingAmount
        (Some (fun _ st => st)) ;;
      ret (paddedAPath, concatBPath)
    else
      padVideo env concatBPath paddedBPath paddingAmount
        (Some (fun _ st => st)) ;;
      ret (concatAPath, paddedBPath)
  else ret (concatAPath, concatBPath).

(** Step 3: combine side-by-side. *)
Definition combine_cameras (finalConcatAPath finalConcatBPath : path)
  : Pipeline unit :=
  combinePair env finalConcatAPath finalConcatBPath (combinedPath env)
    (Some (update_progress jobId totalSteps)) empty_config ;;
  increment ;;
  record_step jobId totalSteps.

(** The [try] block of [processVideosConcatenateFirst]. *)
Definition processVideosConcatenateFirst_try : Pipeline unit :=
  concatenate_camera (uploadsADir env) (order_a order) concatAPath ;;
  concatenate_camera (uploadsBDir env) (order_b order) concatBPath ;;
  finalPaths <- pad_shorter ;;
  combine_cameras (fst finalPaths) (snd finalPaths) ;;
  compress_final env jobId config totalSteps.

(** Concatenate-first processing pipeline. *)
Definition processVideosConcatenateFirst : Pipeline unit :=
  modify (set_completedSteps 0) ;;
  try_catch processVideosConcatenateFirst_try (on_error jobId totalSteps).
End ConcatenateFirst.

(** *** The routes *)

Inductive Response : Type :=
  | BadRequest (message : string)                 (* status 400, { error } *)
  | Accepted (jobId : string)                     (* { jobId } *)
  | NotFound (message : string)                   (* status 404, { error } *)
  | NotReady (message : string) (s : Status) (p : number)
                                                  (* status 404, { error, status, progress } *)
  | JobStatus (job : Job)                         (* the record itself *)
  | Download (file : path) (name : string).       (* res.download *)

(** The pipeline [POST /process] starts without awaiting it, with its
    [.catch] handler. *)
Definition run_job (env : Env) (jobId : string) (order : Order) (config : Config)
  : State → State :=
  fun st =>
    let processFn :=
      if default false (concatenateFirst config)
      then processVideosConcatenateFirst
      else processVideos in
    match processFn env jobId order config st with
    | (Ok _, st') => st'
    | (Throw message, st') =>
        jobs_set jobId (mkJob (JS.of_Z 0) error (Some message)) st'
    end.

(** What [POST /process] has done when it answers: the response, the
    state at that moment, and the pipeline it then starts, if any.
    [videoOrder] is the module's current ordering, [config] the request's
    ([None] when the body has none), [uuid] the identifier [uuidv4()]
    draws. *)
Record Answer : Type := mkAnswer {
  response : Response;
  answered_in : State;
  started : option (State → State)
}.

Definition post_process (env : Env) (uuid : string) (videoOrder : Order)
    (config : option Config) (st : State) : Answer :=
  let config := default empty_config config in
  let concatenateFirst := default false (concatenateFirst config) in
  if (Nat.eqb (length (order_a videoOrder)) 0
      || Nat.eqb (length (order_b videoOrder)) 0)%bool then
    mkAnswer (BadRequest "No video order set. Call POST /order first") st None
  else if (negb concatenateFirst
           && negb (Nat.eqb (length (order_a videoOrder))
                            (length (order_b videoOrder))))%bool then
    mkAnswer
      (BadRequest "Arrays a and b must have the same length for pair-by-pair mode")
      st None
  else
    let jobId := uuid in
    let st' := jobs_set jobId (mkJob (JS.of_Z 0) processing None) st in
    mkAnswer (Accepted jobId) st' (Some (run_job env jobId videoOrder config)).

(** [GET /status/:jobId] *)
Definition get_status (jobId : string) (st : State) : Response :=
  match jobs st !! jobId with
  | None => NotFound "Job not found"
  | Some job => JobStatus job
  end.

(** [GET /download/:jobId] *)
Definition get_download (env : Env) (jobId : string) (st : State) : Response :=
  match jobs st !! jobId with
  | None => NotFound "Job not found"
  | Some job =>
      match status job with
      | done =>
          let finalPath := join (dirname env) "../../output/final.mp4" in
          if access env finalPath then Download finalPath "final.mp4"
          else NotFound "File not found"
      | _ => NotReady "Video not ready" (status job) (progress job)
      end
  end.

(** * Definitions used by the statements *)

(** ** Decimal numerals and timemarks *)

(** The text of a decimal numeral, and its value. *)
Definition numeral (u : Decimal.uint) : string := NilEmpty.string_of_uint u.
Definition value (u : Decimal.uint) : Z := Z.of_nat (Nat.of_uint u).

Fixpoint string_forall (P : ascii → bool) (s : string) : bool :=
  match s with
  | EmptyString => true
  | String c r => P c && string_forall P r
  end.

Definition not_colon (c : ascii) : bool := negb (Ascii.eqb c colon).

(** A first character at which [parseFloat] goes straight to the literal:
    no white space, no sign, not the [I] of [Infinity]. *)
Definition plain_head (c : ascii) : bool :=
  negb (is_white c) && negb (Ascii.eqb c "+") && negb (Ascii.eqb c "-")
  && negb (Ascii.eqb c "I").

Definition head_ok (s : string) : Prop :=
  match s with
  | EmptyString => True
  | String c _ => plain_head c = true
  end.

Definition literal_value (s : string) : number :=
  match scan_unsigned s with
  | Some q => JS.Fin q
  | None => JS.NaN
  end.

(** The value of the literal [ip.fp] where [fp] has [nf] digits. *)
Definition decimal_value (ip fp : Z) (nf : nat) : Q :=
  inject_Z ip + inject_Z fp / pow10 (Z.of_nat nf).

(** A field of the timemark, as [parseTimemark] reads it:
    [parseFloat(field) || 0]. *)
Definition field_seconds (p : string) : number :=
  JS.or_else (parseFloat p) (JS.of_Z 0).

(** The text [HH:MM:SS.ms] of four numerals. *)
Definition timemark_text (hh mm ss ms : Decimal.uint) : string :=
  numeral hh ++ ":" ++ numeral mm ++ ":" ++ numeral ss ++ "." ++ numeral ms.

(** ** Progress arithmetic *)

(** [round_div a b] is [a / b] rounded to the nearest integer, halves up. *)
Definition round_div (a b : Z) : Z := ((2 * a + b) / (2 * b))%Z.

(** ** Traces of a pipeline *)

(** The percent [forward_percent] hands to the sink for an event, if any. *)
Definition simple_percent (progress : Progress) : option number :=
  match percent progress with
  | Some p => if JS.truthy p then Some (JS.round p) else None
  | None => None
  end.

(** How a run settles the promise. *)
Definition settle (describe : string → string) (t : Termination) : result unit :=
  match t with
  | End => Ok tt
  | Error m => Throw (describe m)
  end.

(** The writes of a stage that forwards the percents [ps] while the
    counter is [c]; the write that follows [completedSteps++]; the last
    write of a successful job. *)
Definition writes_of (jobId : string) (totalSteps c : nat) (ps : list number)
  : list (string * Job) :=
  map (fun p => (jobId, mkJob (overallProgress c totalSteps p) processing None)) ps.

Definition step_write (jobId : string) (totalSteps c : nat) : string * Job :=
  (jobId, mkJob (stepProgress c totalSteps) processing None).

Definition done_write (jobId : string) : string * Job :=
  (jobId, mkJob (JS.of_Z 100) done None).

(** Replaying writes on a registry. *)
Definition apply_writes (ws : list (string * Job)) (m : gmap string Job)
  : gmap string Job :=
  fold_left (fun m w => <[fst w := snd w]> m) ws m.

(** [effect st st' ws cmds]: from [st] to [st'] the registry received the
    writes [ws], in order, and the tool the commands [cmds]. *)
Record effect (st st' : State) (ws : list (string * Job)) (cmds : list Command)
  : Prop := mk_effect {
  effect_history : history st' = (history st ++ ws)%list;
  effect_jobs : jobs st' = apply_writes ws (jobs st);
  effect_ran : ran st' = (ran st ++ cmds)%list
}.

(** The lists of percents a stage can forward in the world [env]. *)
Inductive emitted (env : Env) : list number → Prop :=
  | emitted_nothing : emitted env []
  | emitted_simple (cmd : Command) :
      emitted env (omap simple_percent (events (run_tool env cmd)))
  | emitted_concat (cmd : Command) (totalDuration : number) :
      emitted env (omap (concat_percent totalDuration) (events (run_tool env cmd))).

(** Percents that are integers within 0..100 and never decrease. *)
Definition good_percents (ps : list number) : Prop :=
  ∃ zs : list Z,
    ps = map JS.of_Z zs ∧ StronglySorted Z.le zs
    ∧ Forall (fun z => (0 ≤ z ≤ 100)%Z) zs.

(** A world whose tool only forwards good percents. *)
Definition well_behaved (env : Env) : Prop :=
  ∀ ps, emitted env ps → good_percents ps.

(** The progress values of a list of writes. *)
Definition progress_values (ws : list (string * Job)) : list number :=
  map (fun w => progress (snd w)) ws.

Definition not_error (w : string * Job) : bool :=
  match status (snd w) with error => false | _ => true end.

(** [rising lo hi ws]: the writes [ws] keep the status off [error] and
    store integers that never decrease and stay within [lo..hi]. *)
Definition rising (lo hi : Z) (ws : list (string * Job)) : Prop :=
  (lo ≤ hi)%Z
  ∧ Forall (fun w => not_error w = true) ws
  ∧ ∃ zs : list Z,
      progress_values ws = map JS.of_Z zs ∧ StronglySorted Z.le zs
      ∧ Forall (fun z => (lo ≤ z ≤ hi)%Z) zs.

(** The progress after [c] of [t] steps, as an integer. *)
Definition boundary (t c : nat) : Z :=
  round_div (100 * Z.of_nat c) (Z.of_nat t).

(** No value of the list is strictly smaller than an earlier one. *)
Definition nondecreasing (l : list number) : Prop :=
  ∀ (i j : nat) (x y : number),
    (i < j)%nat → l !! i = Some x → l !! j = Some y → JS.lt y x = false.

(** The writes of consecutive completed steps, the first at counter [c]:
    each forwards its percents, then records the step. *)
Fixpoint loop_writes (jobId : string) (t c : nat) (pss : list (list number))
  : list (string * Job) :=
  match pss with
  | [] => []
  | ps :: rest =>
      (writes_of jobId t c ps ++ [step_write jobId t (S c)]
       ++ loop_writes jobId t (S c) rest)%list
  end.

(** From [st] to [st'] the pipeline completed [k] steps. *)
Definition advanced (env : Env) (C : Command → Prop) (jobId : string) (t : nat)
    (st st' : State) (k : nat) : Prop :=
  ∃ pss cmds,
    length pss = k ∧ Forall (emitted env) pss ∧ Forall C cmds
    ∧ effect st st' (loop_writes jobId t (completedSteps st) pss) cmds
    ∧ completedSteps st' = (completedSteps st + k)%nat.

(** From [st] to [st'] the pipeline completed some steps and failed in
    the next one. *)
Definition stalled (env : Env) (C : Command → Prop) (jobId : string) (t : nat)
    (st st' : State) : Prop :=
  ∃ pss ps cmds,
    Forall (emitted env) pss ∧ emitted env ps ∧ Forall C cmds
    ∧ effect st st'
        (loop_writes jobId t (completedSteps st) pss
         ++ writes_of jobId t (completedSteps st + length pss) ps)%list cmds
    ∧ completedSteps st' = (completedSteps st + length pss)%nat.

(** From [st] to [st'] the pipeline ran its last step and marked the job
    as done. *)
Definition finished (env : Env) (C : Command → Prop) (jobId : string) (t : nat)
    (st st' : State) : Prop :=
  ∃ ps cmds,
    emitted env ps ∧ Forall C cmds
    ∧ effect st st'
        (writes_of jobId t (completedSteps st) ps ++ [done_write jobId])%list cmds
    ∧ completedSteps st' = S (completedSteps st).

(** The commands of the two pipelines. *)
Inductive pairwise_command (env : Env) (config : Config) : Command → Prop :=
  | pairwise_combine (videoA videoB out : path) :
      pairwise_command env config (combinePair_command videoA videoB out empty_config)
  | pairwise_concatenate :
      pairwise_command env config
        (concatenateVideos_command (tempListPath env) (combinedPath env) false)
  | pairwise_compress :
      pairwise_command env config
        (compressVideo_command (combinedPath env) (finalPath env) config).

Inductive concatenateFirst_command (env : Env) (config : Config)
  : Command → Prop :=
  | concatenateFirst_concatenate (out : path) :
      concatenateFirst_command env config
        (concatenateVideos_command (tempListPath env) out true)
  | concatenateFirst_pad (input out : path) (amount : number) :
      concatenateFirst_command env config (padVideo_command input out amount)
  | concatenateFirst_combine (videoA videoB : path) :
      concatenateFirst_command env config
        (combinePair_command videoA videoB (combinedPath env) empty_config)
  | concatenateFirst_compress :
      concatenateFirst_command env config
        (compressVideo_command (combinedPath env) (finalPath env) config).

(** From [st] to [st'] the pipeline completed [k] steps, then its last
    one, and marked the job as done. *)
Definition completed (env : Env) (C : Command → Prop) (jobId : string) (t : nat)
    (st st' : State) (k : nat) : Prop :=
  ∃ pss ps cmds,
    length pss = k ∧ Forall (emitted env) pss ∧ emitted env ps ∧ Forall C cmds
    ∧ effect st st'
        (loop_writes jobId t (completedSteps st) pss
         ++ writes_of jobId t (completedSteps st + k) ps
         ++ [done_write jobId])%list cmds
    ∧ completedSteps st' = S (completedSteps st + k).

(** What a [try] block has done when it returns [r]. *)
Definition outcome {A} (env : Env) (C : Command → Prop) (jobId : string)
    (t : nat) (st : State) (r : result A) (st' : State) (k : nat) : Prop :=
  match r with
  | Ok _ => completed env C jobId t st st' k
  | Throw _ => stalled env C jobId t st st'
  end.

(** The total duration [concatenateVideos] divides by. *)
Definition concat_total (env : Env) (inputPaths : list path) (reencode : bool)
  : number :=
  if reencode then sum_durations env inputPaths else JS.of_Z 0.

(** A stage, whatever its outcome, forwards percents at the current
    counter and leaves the counter alone. *)
Definition staged (env : Env) (C : Command → Prop) (jobId : string) (t : nat)
    (stage : Pipeline unit) (st : State) : Prop :=
  ∃ ps cmds r st1,
    stage st = (r, st1) ∧ emitted env ps ∧ Forall C cmds
    ∧ effect st st1 (writes_of jobId t (completedSteps st) ps) cmds
    ∧ completedSteps st1 = completedSteps st.

(** The [try] block chosen by the mode, with its number of steps. *)
Definition try_block (env : Env) (jobId : string) (order : Order)
    (config : Config) : Pipeline unit :=
  if default false (concatenateFirst config)
  then processVideosConcatenateFirst_try env jobId order config
  else processVideos_try env jobId order config.

Definition totalSteps_of (order : Order) (config : Config) : nat :=
  if default false (concatenateFirst config)
  then totalSteps_concatenateFirst
  else totalSteps_pairwise order.

Definition command_of (env : Env) (config : Config) : Command → Prop :=
  if default false (concatenateFirst config)
  then concatenateFirst_command env config
  else pairwise_command env config.

(** The two writes of a failure: the pipeline's [catch], then the
    route's. *)
Definition error_writes (jobId : string) (t c : nat) (e : string)
  : list (string * Job) :=
  [ (jobId, mkJob (stepProgress c t) error (Some e));
    (jobId, mkJob (JS.of_Z 0) error (Some e)) ].

(** ** Job creation *)

(** The mode of a request: pair-by-pair unless [concatenateFirst] is
    set. *)
Definition pairwise_mode (config : option Config) : Prop :=
  default false (concatenateFirst (default empty_config config)) = false.

(** The orderings [POST /process] refuses. *)
Definition invalid_order (videoOrder : Order) (config : option Config) : Prop :=
  order_a videoOrder = [] ∨ order_b videoOrder = []
  ∨ (pairwise_mode config
     ∧ length (order_a videoOrder) ≠ length (order_b videoOrder)).

(** ** Kinds of commands *)

(** A command that reads its inputs through the concat demuxer. *)
Definition is_concatenation (cmd : Command) : Prop :=
  input_options cmd = [Str "-f"; Str "concat"; Str "-safe"; Str "0"].

(** Stream copy: [-c copy] and no encoder. *)
Definition stream_copy (cmd : Command) : Prop :=
  output_options cmd = [Str "-c"; Str "copy"]
  ∧ video_codec cmd = None ∧ audio_codec cmd = None ∧ audio_bitrate cmd = None.

(** Re-encoding with constant-frame-rate normalisation. *)
Definition reencodes_cfr (cmd : Command) : Prop :=
  video_codec cmd = Some "libx264" ∧ audio_codec cmd = Some "aac"
  ∧ output_options cmd
    = [Str "-vsync"; Str "cfr"; Str "-preset"; Str "veryfast"; Str "-crf"; Str "18"].

(** ** Progress of a re-encoding concatenation *)

(** The durations of the inputs whose probe succeeds, in order. *)
Definition probed_durations (env : Env) (inputPaths : list path) : list number :=
  omap (fun p => match getVideoDuration env p with
                 | Ok duration => Some duration
                 | Throw _ => None
                 end) inputPaths.

(** The fallback: the tool's own percent, rounded and capped at 100;
    nothing when it is absent or zero. *)
Definition raw_percent (progress : Progress) : option number :=
  match percent progress with
  | Some p =>
      if JS.truthy p then Some (JS.min (JS.of_Z 100) (JS.round p)) else None
  | None => None
  end.

(** The world [env] with another prober. *)
Definition with_ffprobe (env : Env) (probe : path → Probe) : Env :=
  mkEnv (dirname env) (tmpdir env) (Date_now env) (readdirSync env)
    (writeFile env) (access env) probe (run_tool env).

(** ** The padding decision *)

(** What the padding decision does once it has decided to pad [src]
    into [out] by [amount] and to go on with [final]. *)
Definition pads (env : Env) (src out : path) (amount : number)
    (final : path * path) (st : State) : result (path * path) * State :=
  (match termination (run_tool env (padVideo_command src out amount)) with
   | End => Ok final
   | Error m => Throw ("Failed to pad video: " ++ m)
   end,
   log_command (padVideo_command src out amount) st).

(** ** Concrete worlds *)

(** A server at /srv/server/routes whose upload directories both list
    the files of two pairs, whose file system never fails and whose
    prober answers 60 seconds for every file; [tool] is the encoder. *)
Definition world (tool : Command → Run) : Env :=
  mkEnv ["srv"; "server"; "routes"] ["tmp"] 1700000000000%N
    (fun _ => Ok ["a1.mp4"; "a2.mp4"; "b1.mp4"; "b2.mp4"])
    (fun _ _ => None)
    (fun _ => true)
    (fun _ => ProbeFormat (Some (JS.of_Z 60)))
    tool.

Definition percent_event (p : Z) : Progress :=
  mkProgress (Some (JS.of_Z p)) None.

(** The tool reports 50 then 100 percent and ends. *)
Definition steady_world : Env :=
  world (fun _ => mkRun [percent_event 50; percent_event 100] End).

(** The tool reports 60 then 30 percent and ends. *)
Definition erratic_world : Env :=
  world (fun _ => mkRun [percent_event 60; percent_event 30] End).

(** The tool reports 150 percent and ends (a percent above 100 is what
    the cap in [concatenateVideos] guards against). *)
Definition overshooting_world : Env :=
  world (fun _ => mkRun [percent_event 150] End).

(** The tool reports nothing; it fails on the command that writes
    pair_2.mp4 and ends on every other. *)
Definition failing_world : Env :=
  world (fun cmd =>
    match output_path cmd with
    | Some ["srv"; "output"; "pairs"; "pair_2.mp4"] => mkRun [] (Error "boom")
    | _ => mkRun [] End
    end).

Definition one_pair : Order := mkOrder ["a1"] ["b1"].
Definition two_pairs : Order := mkOrder ["a1"; "a2"] ["b1"; "b2"].

(** The state [POST /process] leaves for the job "job" in an empty
    registry, and the job run to its end. *)
Definition accepted (env : Env) (order : Order) (config : Config) : State :=
  answered_in (post_process env "job" order (Some config) (init_state ∅)).

Definition ended (env : Env) (order : Order) (config : Config) : State :=
  run_job env "job" order config (accepted env order config).

(** Twelve segments on camera A and nine on camera B. *)
Definition many_segments : Order :=
  mkOrder (repeat "a1" 12) (repeat "b1" 9).

(** A world like [steady_world] whose prober answers [dA] seconds for
    concat_a.mp4 and [dB] seconds for every other file. *)
Definition probe_world (dA dB : number) : Env :=
  mkEnv ["srv"; "server"; "routes"] ["tmp"] 1700000000000%N
    (fun _ => Ok ["a1.mp4"; "a2.mp4"; "b1.mp4"; "b2.mp4"])
    (fun _ _ => None)
    (fun _ => true)
    (fun p =>
       match p with
       | ["srv"; "output"; "concat_a.mp4"] => ProbeFormat (Some dA)
       | _ => ProbeFormat (Some dB)
       end)
    (fun _ => mkRun [percent_event 50; percent_event 100] End).

(** A world whose prober answers 10 seconds, except for a2.mp4, which it
    cannot read, and whose tool reports 7 percent at the timemark
    00:00:05.00. *)
Definition partial_probe_world : Env :=
  mkEnv ["srv"; "server"; "routes"] ["tmp"] 1700000000000%N
    (fun _ => Ok ["a1.mp4"; "a2.mp4"; "b1.mp4"; "b2.mp4"])
    (fun _ _ => None)
    (fun _ => true)
    (fun p =>
       match p with
       | ["srv"; "uploads"; "a"; "a2.mp4"] => ProbeError "unreadable"
       | _ => ProbeFormat (Some (JS.of_Z 10))
       end)
    (fun _ => mkRun [mkProgress (Some (JS.of_Z 7)) (Some "00:00:05.00")] End).

Definition camera_a_inputs : list path :=
  [ ["srv"; "uploads"; "a"; "a1.mp4"]; ["srv"; "uploads"; "a"; "a2.mp4"] ].

(** * More of the program *)

(** ** [routes/process.js]: POST /order *)

(** A value of a request body, as far as the route looks at it: an array
    of identifiers, or anything else. *)
Inductive Json : Type :=
  | JArray (ids : list string)
  | JOther.

(** [Array.isArray(v)], with the elements when it holds; an absent key is
    [undefined]. *)
Definition isArray (v : option Json) : option (list string) :=
  match v with
  | Some (JArray ids) => Some ids
  | _ => None
  end.

Inductive OrderResponse : Type :=
  | OrderSet (message : string) (order : Order)  (* { success: true, message, order } *)
  | OrderInvalid (message : string)              (* status 400, { error } *)
  | OrderFailed (message : string).              (* status 500, { error } *)

(** [POST /order]: the response and the module's [videoOrder] afterwards.
    [body] is [req.body], [None] when there is none (the destructuring then
    throws, which the handler catches). *)
Definition post_order (body : option (gmap string Json)) (videoOrder : Order)
  : OrderResponse * Order :=
  match body with
  | None => (OrderFailed "Failed to set order", videoOrder)
  | Some body =>
      match isArray (body !! "a"), isArray (body !! "b") with
      | Some a, Some b =>
          let videoOrder := mkOrder a b in
          (OrderSet ("Order set successfully with " ++ pretty (length a) ++ " pairs")
             videoOrder,
           videoOrder)
      | _, _ =>
          (OrderInvalid "Invalid order format. Expected { a: [], b: [] }",
           videoOrder)
      end
  end.

(** ** [routes/upload.js] *)

Definition double_quote : string := String (ascii_of_nat 34) "".

(** The route lives beside [routes/process.js]: same [__dirname]. *)
Definition uploadsBase (env : Env) : path := join (dirname env) "../../uploads".

(** The [destination] of the disk storage: where an upload for [camera]
    is stored. *)
Definition destination (env : Env) (camera : string) : result path :=
  if existsb (String.eqb camera) ["a"; "b"]
  then Ok (join (uploadsBase env) camera)
  else Throw ("Invalid camera. Use " ++ double_quote ++ "a" ++ double_quote
              ++ " or " ++ double_quote ++ "b" ++ double_quote).

Inductive DeleteResponse : Type :=
  | Unlinked (file : path)            (* fs.unlinkSync(file), then { success: true } *)
  | DeleteNotFound (message : string). (* status 404, { error } *)

(** [DELETE /:camera/:id]: what the handler does when the directory can
    be listed; a failing [readdirSync] throws out of the handler. *)
Definition delete_file (env : Env) (camera id : string) : result DeleteResponse :=
  let dir := join (uploadsBase env) camera in
  match readdirSync env dir with
  | Throw message => Throw message
  | Ok files =>
      match List.find (String.prefix id) files with
      | None => Ok (DeleteNotFound "File not found")
      | Some file => Ok (Unlinked (join dir file))
      end
  end.

(** ** [client/src/api.js] *)

(** The body [setOrder] sends: [JSON.stringify({ orderA, orderB })]. *)
Definition setOrder_body (orderA orderB : list string) : gmap string Json :=
  {[ "orderA" := JArray orderA; "orderB" := JArray orderB ]}.

(** ** [client/src/components/DropZone.jsx] *)

Section DropZone.
Context {File : Type} (undefined : File).

(** [array.splice(start, 1)]; a start beyond the end removes nothing. *)
Definition splice_delete (start : nat) (array : list File) : list File :=
  (take start array ++ drop (S start) array)%list.

(** [array.splice(start, 0, item)]; a start beyond the end appends. *)
Definition splice_insert (start : nat) (item : File) (array : list File)
  : list File :=
  (take start array ++ item :: drop start array)%list.

(** [handleItemDrop]: the list handed to [onFilesChange], when it is
    called.  [draggedIndex] is [None] for [null]; an index beyond the end
    reads [undefined]. *)
Definition handleItemDrop (files : list File) (draggedIndex : option nat)
    (dropIndex : nat) : option (list File) :=
  match draggedIndex with
  | None => None
  | Some draggedIndex =>
      if Nat.eqb draggedIndex dropIndex then None
      else
        let newFiles := files in
        let draggedItem := nth draggedIndex newFiles undefined in
        let newFiles := splice_delete draggedIndex newFiles in
        let newFiles := splice_insert dropIndex draggedItem newFiles in
        Some newFiles
  end.
End DropZone.

(** * Definitions used by the further statements *)

(** ** Directory listings *)

(** A server whose directories all list [files]; nothing else of the
    world matters. *)
Definition listing (files : list string) : Env :=
  mkEnv ["srv"; "server"; "routes"] ["tmp"] 0%N
    (fun _ => Ok files) (fun _ _ => None) (fun _ => true)
    (fun _ => ProbeFormat None) (fun _ => mkRun [] End).

(** ** The files of a run *)

Definition no_slash (c : ascii) : bool := negb (Ascii.eqb c "/").

(** The name of the output of the pair of index [i]. *)
Definition pair_file (i : nat) : string :=
  "pair_" ++ pretty (i + 1)%nat ++ ".mp4".

(** The intermediate and final files the two pipelines write into the
    output directory. *)
Definition artifacts (env : Env) : list path :=
  [ concatAPath env; concatBPath env; paddedAPath env; paddedBPath env;
    combinedPath env; finalPath env ].

(** The command that combines the pair of index [i]: the files of the
    [i]-th identifiers of the two cameras, into the output of the pair. *)
Definition pair_command (env : Env) (order : Order) (i : nat) (cmd : Command)
  : Prop :=
  ∃ videoAPath videoBPath,
    findFileById env (uploadsADir env) (at_index (order_a order) i) = Ok videoAPath
    ∧ findFileById env (uploadsBDir env) (at_index (order_b order) i) = Ok videoBPath
    ∧ cmd = combinePair_command videoAPath videoBPath
              (join (pairsDir env) (pair_file i)) empty_config.

(** ** Configurations and file lists *)

(** The configuration [config] with another [maxWidth]. *)
Definition with_maxWidth (config : Config) (maxWidth : option number) : Config :=
  mkConfig (crf config) (preset config) maxWidth (audioBitrate config)
    (concatenateFirst config).

Definition newline_char : ascii := ascii_of_nat 10.
Definition quote_char : ascii := "'"%char.

(** One line of the file list of the concat demuxer. *)
Definition file_line (p : path) : string :=
  "file '" ++ replace_all quote_char "'\''" (render p) ++ "'".

(** Every segment of the path is free of the character [c]. *)
Definition path_free (c : ascii) (p : path) : Prop :=
  Forall (fun seg => string_forall (fun d => negb (Ascii.eqb d c)) seg = true) p.

(** ** Orderly runs *)

(** The tool ended the command without an error. *)
Definition ended_well (env : Env) (cmd : Command) : Prop :=
  termination (run_tool env cmd) = End.

(** Whatever [m] hands to the tool, every command but the last has ended
    well, and the last one too when [m] returns. *)
Definition orderly {A} (env : Env) (m : Pipeline A) : Prop :=
  ∀ st r st',
    m st = (r, st') →
    ∃ cmds,
      ran st' = (ran st ++ cmds)%list
      ∧ match r with
        | Ok _ => Forall (ended_well env) cmds
        | Throw _ => Forall (ended_well env) (removelast cmds)
        end.

(** ** Percents of the tool *)

(** The percents of the events that are finite numbers, in order. *)
Definition finite_percents (evs : list Progress) : list Q :=
  omap (fun ev => match percent ev with
                  | Some (JS.Fin q) => Some q
                  | _ => None
                  end) evs.

(** Every percent the tool reports is a number within 0..100. *)
Definition percents_in_range (evs : list Progress) : Prop :=
  Forall (fun ev => ∀ p, percent ev = Some p →
                         ∃ q, p = JS.Fin q ∧ 0 <= q ∧ q <= 100) evs.

(** ** Bounds of the progress *)

(** A write whose progress is an integer within 0..100. *)
Definition percent_record (w : string * Job) : Prop :=
  ∃ z : Z, progress (snd w) = JS.of_Z z ∧ (0 ≤ z ≤ 100)%Z.

(** Started with room for [n] more of the [t] steps, [m] completes at
    most [n] steps and only writes percent records. *)
Definition within {A} (t n : nat) (m : Pipeline A) : Prop :=
  ∀ st r st',
    m st = (r, st') → (completedSteps st + n ≤ t)%nat →
    (completedSteps st' ≤ completedSteps st + n)%nat
    ∧ ∃ ws, history st' = (history st ++ ws)%list ∧ Forall percent_record ws.

(** * Properties *)

(** ** Examples *)

Example parseTimemark_ex1 :
  JS.eqv (parseTimemark (Some "01:02:03.50")) (JS.Fin (7447 # 2)).
Proof. vm_compute. reflexivity. Qed.

Example parseTimemark_ex2 : parseTimemark (Some "12:34") = JS.of_Z 0.
Proof. reflexivity. Qed.

Example parseFloat_prefix : JS.eqv (parseFloat "12abc") (JS.of_Z 12).
Proof. vm_compute. reflexivity. Qed.

Example totalSteps_three_pairs :
  totalSteps_pairwise (mkOrder ["a1"; "a2"; "a3"] ["b1"; "b2"; "b3"]) = 5%nat.
Proof. reflexivity. Qed.

Example stepProgress_of_five :
  map (fun c => stepProgress c 5) [1; 2; 3]%nat = map JS.of_Z [20; 40; 60]%Z.
Proof. reflexivity. Qed.

Example parseTimemark_ex3 :
  JS.eqv (parseTimemark (Some "xx:02:1e1")) (JS.of_Z 130).
Proof. vm_compute. reflexivity. Qed.

(** ** Arithmetic of the progress formula *)

Lemma of_nat_nonzero (t : nat) :
  (0 < t)%nat → Qeq_bool (inject_Z (Z.of_nat t)) 0 = false.
Proof.
  intros Ht. apply not_true_is_false. intros H.
  apply Qeq_bool_eq in H. unfold Qeq in H. simpl in H. lia.
Qed.

Lemma overallProgress_Z (c t : nat) (p : Z) :
  (0 < t)%nat →
  overallProgress c t (JS.of_Z p)
  = JS.of_Z (round_div (100 * Z.of_nat c + p) (Z.of_nat t)).
Proof.
  intros Ht.
  unfold overallProgress, JS.of_nat, JS.of_Z, JS.div, JS.mul, JS.add, JS.round.
  change (Qeq_bool (inject_Z 100) 0) with false. cbv iota.
  rewrite (of_nat_nonzero t Ht). do 2 f_equal. unfold round_div.
  rewrite Zdiv_Qdiv. apply Qfloor_comp.
  repeat (rewrite inject_Z_plus || rewrite inject_Z_mult).
  change (inject_Z 100) with (100 # 1). change (inject_Z 2) with (2 # 1).
  assert (¬ inject_Z (Z.of_nat t) == 0).
  { intros H. unfold Qeq in H. simpl in H. lia. }
  field. assumption.
Qed.

Lemma stepProgress_Z (c t : nat) :
  (0 < t)%nat →
  stepProgress c t = JS.of_Z (round_div (100 * Z.of_nat c) (Z.of_nat t)).
Proof.
  intros Ht.
  unfold stepProgress, JS.of_nat, JS.of_Z, JS.div, JS.mul, JS.round.
  rewrite (of_nat_nonzero t Ht). do 2 f_equal. unfold round_div.
  rewrite Zdiv_Qdiv. apply Qfloor_comp.
  repeat (rewrite inject_Z_plus || rewrite inject_Z_mult).
  change (inject_Z 100) with (100 # 1). change (inject_Z 2) with (2 # 1).
  assert (¬ inject_Z (Z.of_nat t) == 0).
  { intros H. unfold Qeq in H. simpl in H. lia. }
  field. assumption.
Qed.

Lemma round_div_mono (a a' b : Z) :
  (0 < b)%Z → (a ≤ a')%Z → (round_div a b ≤ round_div a' b)%Z.
Proof.
  intros Hb Ha. unfold round_div. apply Z.div_le_mono; lia.
Qed.

Lemma round_div_full (b : Z) : (0 < b)%Z → round_div (100 * b) b = 100%Z.
Proof.
  intros Hb. unfold round_div.
  symmetry. apply (Z.div_unique_pos _ _ 100 b); lia.
Qed.

Lemma round_div_nonneg (a b : Z) : (0 < b)%Z → (0 ≤ a)%Z → (0 ≤ round_div a b)%Z.
Proof. intros Hb Ha. unfold round_div. apply Z.div_pos; lia. Qed.

Lemma round_div_zero (b : Z) : (0 < b)%Z → round_div 0 b = 0%Z.
Proof. intros Hb. unfold round_div. apply Z.div_small. lia. Qed.

Lemma of_Z_inj (x y : Z) : JS.of_Z x = JS.of_Z y → x = y.
Proof. unfold JS.of_Z, inject_Z. intros H. injection H. auto. Qed.

Lemma lt_of_Z (x y : Z) : JS.lt (JS.of_Z x) (JS.of_Z y) = bool_decide (x < y)%Z.
Proof.
  unfold JS.lt, JS.of_Z, Qcompare, inject_Z. simpl. rewrite !Z.mul_1_r.
  destruct (Z.compare_spec x y); symmetry;
    [apply bool_decide_eq_false | apply bool_decide_eq_true
    | apply bool_decide_eq_false]; lia.
Qed.

(** ** [split] and [parseFloat] on numerals *)

Lemma append_cons (c : ascii) (s r : string) :
  String c s ++ r = String c (s ++ r).
Proof. reflexivity. Qed.

Lemma append_nil (r : string) : "" ++ r = r.
Proof. reflexivity. Qed.

Lemma append_empty_r (s : string) : s ++ "" = s.
Proof.
  induction s as [|c r IH]; [reflexivity|].
  rewrite append_cons, IH. reflexivity.
Qed.

Lemma split_no_sep (s : string) :
  string_forall not_colon s = true → split colon s = [s].
Proof.
  induction s as [|c r IH]; simpl; [reflexivity|].
  intros H. apply andb_prop in H as [Hc Hr]. unfold not_colon in Hc.
  apply negb_true_iff in Hc. rewrite Hc, (IH Hr). reflexivity.
Qed.

Lemma split_app_sep (a b : string) :
  string_forall not_colon a = true →
  split colon (a ++ String colon b) = a :: split colon b.
Proof.
  induction a as [|c r IH]; intros H.
  - rewrite append_nil. simpl. reflexivity.
  - simpl in H. apply andb_prop in H as [Hc Hr]. unfold not_colon in Hc.
    apply negb_true_iff in Hc. rewrite append_cons. simpl.
    rewrite Hc, (IH Hr). reflexivity.
Qed.

Lemma string_forall_app (P : ascii → bool) (a b : string) :
  string_forall P (a ++ b) = string_forall P a && string_forall P b.
Proof.
  induction a as [|c r IH]; [reflexivity|].
  rewrite append_cons. simpl. rewrite IH, andb_assoc. reflexivity.
Qed.

Lemma numeral_no_colon (u : Decimal.uint) :
  string_forall not_colon (numeral u) = true.
Proof. induction u; simpl; auto. Qed.

Lemma scan_digits_numeral (u : Decimal.uint) (rest : string) (acc n : nat) :
  scan_digits (numeral u ++ rest) (Z.of_nat acc) n
  = scan_digits rest (Z.of_nat (Nat.of_uint_acc u acc)) (n + Decimal.nb_digits u).
Proof.
  revert acc n. unfold numeral.
  induction u as [|u IH|u IH|u IH|u IH|u IH|u IH|u IH|u IH|u IH|u IH];
    intros acc n; simpl NilEmpty.string_of_uint; simpl Decimal.nb_digits;
    simpl Nat.of_uint_acc.
  1: { rewrite append_nil. f_equal. lia. }
  all: rewrite append_cons; cbn [scan_digits];
    match goal with
    | |- context [digit_of ?c] =>
        let d := eval vm_compute in (digit_of c) in
        change (digit_of c) with d; cbv iota
    end;
    rewrite <- Nat.add_succ_comm, <- (IH _ (S n)); f_equal;
    rewrite Nat.tail_mul_spec; lia.
Qed.

Lemma scan_digits_numeral_end (u : Decimal.uint) :
  scan_digits (numeral u) 0 0 = (value u, Decimal.nb_digits u, "").
Proof.
  rewrite <- (append_empty_r (numeral u)).
  change 0%Z with (Z.of_nat 0).
  rewrite scan_digits_numeral. reflexivity.
Qed.

Lemma scan_unsigned_numeral (u : Decimal.uint) :
  scan_unsigned (numeral u)
  = match Decimal.nb_digits u with
    | O => None
    | S _ => Some (decimal_value (value u) 0 0 * pow10 0)
    end.
Proof.
  unfold scan_unsigned. rewrite scan_digits_numeral_end.
  destruct (Decimal.nb_digits u); reflexivity.
Qed.

Lemma scan_unsigned_seconds (ss ms : Decimal.uint) :
  scan_unsigned (numeral ss ++ "." ++ numeral ms)
  = match Decimal.nb_digits ss, Decimal.nb_digits ms with
    | O, O => None
    | _, _ =>
        Some (decimal_value (value ss) (value ms) (Decimal.nb_digits ms) * pow10 0)
    end.
Proof.
  unfold scan_unsigned.
  change 0%Z with (Z.of_nat 0) at 1.
  rewrite scan_digits_numeral.
  change ("." ++ numeral ms) with (String "." (numeral ms)).
  cbn [scan_digits]. change (digit_of ".") with (@None Z). cbv iota.
  rewrite scan_digits_numeral_end.
  destruct (Decimal.nb_digits ss), (Decimal.nb_digits ms); reflexivity.
Qed.

Lemma parseFloat_plain (c : ascii) (r : string) :
  plain_head c = true → parseFloat (String c r) = literal_value (String c r).
Proof.
  destruct c as [[] [] [] [] [] [] [] []]; intros H;
    try discriminate H; reflexivity.
Qed.

Lemma parseFloat_literal (s : string) :
  head_ok s → parseFloat s = literal_value s.
Proof. destruct s as [|c r]; [reflexivity|]. apply parseFloat_plain. Qed.

Lemma head_ok_numeral (u : Decimal.uint) (rest : string) :
  head_ok rest → head_ok (numeral u ++ rest).
Proof.
  intros H. destruct u; unfold numeral; simpl NilEmpty.string_of_uint;
    rewrite ?append_cons, ?append_nil; [assumption | reflexivity ..].
Qed.

Lemma nb_digits_zero (u : Decimal.uint) :
  Decimal.nb_digits u = 0%nat → u = Decimal.Nil.
Proof. destruct u; simpl; intros H; [reflexivity | discriminate H ..]. Qed.

Lemma or_else_fin (q v : Q) :
  q == v → JS.eqv (JS.or_else (JS.Fin q) (JS.of_Z 0)) (JS.Fin v).
Proof.
  intros H. unfold JS.or_else, JS.truthy.
  destruct (Qeq_bool q 0) eqn:E; simpl.
  - apply Qeq_bool_eq in E. rewrite <- H, E. reflexivity.
  - exact H.
Qed.

Lemma field_seconds_decimal (ss ms : Decimal.uint) :
  JS.eqv (field_seconds (numeral ss ++ "." ++ numeral ms))
    (JS.Fin (decimal_value (value ss) (value ms) (Decimal.nb_digits ms))).
Proof.
  unfold field_seconds.
  rewrite parseFloat_literal by (apply head_ok_numeral; reflexivity).
  unfold literal_value. rewrite scan_unsigned_seconds.
  destruct (Decimal.nb_digits ss) eqn:Es, (Decimal.nb_digits ms) eqn:Em.
  - apply nb_digits_zero in Es, Em. subst. reflexivity.
  - apply or_else_fin. change (pow10 0) with 1. ring.
  - apply or_else_fin. change (pow10 0) with 1. ring.
  - apply or_else_fin. change (pow10 0) with 1. ring.
Qed.

Lemma field_seconds_numeral (u : Decimal.uint) :
  JS.eqv (field_seconds (numeral u)) (JS.Fin (inject_Z (value u))).
Proof.
  unfold field_seconds.
  rewrite parseFloat_literal
    by (rewrite <- (append_empty_r (numeral u)); apply head_ok_numeral; exact I).
  unfold literal_value. rewrite scan_unsigned_numeral.
  destruct (Decimal.nb_digits u) eqn:Eu.
  - apply nb_digits_zero in Eu. subst. reflexivity.
  - apply or_else_fin. unfold decimal_value.
    change (pow10 (Z.of_nat 0)) with 1. change (pow10 0) with 1.
    change (inject_Z 0) with 0. field.
Qed.

Lemma field_seconds_NaN (p : string) :
  parseFloat p = JS.NaN → field_seconds p = JS.of_Z 0.
Proof. unfold field_seconds. intros ->. reflexivity. Qed.

Lemma eqv_timemark (h m s : number) (a b c : Q) :
  JS.eqv h (JS.Fin a) → JS.eqv m (JS.Fin b) → JS.eqv s (JS.Fin c) →
  JS.eqv (h * JS.of_Z 3600 + m * JS.of_Z 60 + s)%js
    (JS.Fin (a * 3600 + b * 60 + c)).
Proof.
  destruct h, m, s; simpl; try contradiction.
  intros -> -> ->. reflexivity.
Qed.

Lemma parseTimemark_fields (s p0 p1 p2 : string) :
  s ≠ "" → split colon s = [p0; p1; p2] →
  parseTimemark (Some s)
  = (field_seconds p0 * JS.of_Z 3600 + field_seconds p1 * JS.of_Z 60
     + field_seconds p2)%js.
Proof.
  intros Hs H. destruct s; [congruence|].
  unfold parseTimemark. rewrite H. reflexivity.
Qed.

Lemma parseTimemark_other (s : string) :
  length (split colon s) ≠ 3%nat → parseTimemark (Some s) = JS.of_Z 0.
Proof.
  intros H. destruct s; [reflexivity|]. unfold parseTimemark.
  destruct (split colon _) as [|p0 [|p1 [|p2 [|p3 l]]]]; try reflexivity.
  simpl in H. congruence.
Qed.

Lemma split_timemark_text (hh mm ss ms : Decimal.uint) :
  split colon (timemark_text hh mm ss ms)
  = [numeral hh; numeral mm; numeral ss ++ "." ++ numeral ms].
Proof.
  unfold timemark_text.
  change (":" ++ numeral mm ++ ":" ++ numeral ss ++ "." ++ numeral ms)
    with (String colon (numeral mm ++ String colon (numeral ss ++ "." ++ numeral ms))).
  rewrite !split_app_sep by apply numeral_no_colon.
  rewrite split_no_sep; [reflexivity|].
  rewrite string_forall_app, numeral_no_colon.
  change ("." ++ numeral ms) with (String "." (numeral ms)).
  simpl. apply numeral_no_colon.
Qed.

Lemma timemark_text_nonempty (hh mm ss ms : Decimal.uint) :
  timemark_text hh mm ss ms ≠ "".
Proof.
  intros H. pose proof (split_timemark_text hh mm ss ms) as Hs.
  rewrite H in Hs. discriminate Hs.
Qed.

Lemma parseTimemark_wellformed (hh mm ss ms : Decimal.uint) :
  JS.eqv (parseTimemark (Some (timemark_text hh mm ss ms)))
    (JS.Fin (inject_Z (value hh) * 3600 + inject_Z (value mm) * 60
             + decimal_value (value ss) (value ms) (Decimal.nb_digits ms))).
Proof.
  rewrite (parseTimemark_fields _ _ _ _ (timemark_text_nonempty hh mm ss ms)
             (split_timemark_text hh mm ss ms)).
  apply eqv_timemark.
  - apply field_seconds_numeral.
  - apply field_seconds_numeral.
  - apply field_seconds_decimal.
Qed.

(** C10.  [parseTimemark] is a total function that never throws: an absent
    or empty timemark, and any text that does not split at its colons into
    exactly three fields, gives 0; a text with three fields gives
    hours * 3600 + minutes * 60 + seconds, where a field [parseFloat]
    cannot read (NaN) counts as 0; and on a well-formed [HH:MM:SS.ms] of
    decimal numerals that is the number the numerals denote. *)
Theorem parseTimemark_total :
  parseTimemark None = JS.of_Z 0
  ∧ parseTimemark (Some "") = JS.of_Z 0
  ∧ (∀ s, length (split colon s) ≠ 3%nat → parseTimemark (Some s) = JS.of_Z 0)
  ∧ (∀ s p0 p1 p2,
       s ≠ "" → split colon s = [p0; p1; p2] →
       parseTimemark (Some s)
       = (field_seconds p0 * JS.of_Z 3600 + field_seconds p1 * JS.of_Z 60
          + field_seconds p2)%js)
  ∧ (∀ p, parseFloat p = JS.NaN → field_seconds p = JS.of_Z 0)
  ∧ (∀ hh mm ss ms : Decimal.uint,
       JS.eqv (parseTimemark (Some (timemark_text hh mm ss ms)))
         (JS.Fin (inject_Z (value hh) * 3600 + inject_Z (value mm) * 60
                  + decimal_value (value ss) (value ms) (Decimal.nb_digits ms)))).
Proof.
  split; [reflexivity|]. split; [reflexivity|].
  split; [exact parseTimemark_other|].
  split; [exact parseTimemark_fields|].
  split; [exact field_seconds_NaN|].
  exact parseTimemark_wellformed.
Qed.

(** The timemarks "12:34" (two fields), "xx:02:03.5" (a field that is
    not a number) and "01:02:03.50". *)
Lemma parseTimemark_total_witness :
  parseTimemark (Some "12:34") = JS.of_Z 0
  ∧ parseTimemark (Some "xx:02:03.5")
    = (field_seconds "xx" * JS.of_Z 3600 + field_seconds "02" * JS.of_Z 60
       + field_seconds "03.5")%js
  ∧ field_seconds "xx" = JS.of_Z 0
  ∧ JS.eqv (parseTimemark (Some "01:02:03.50"))
      (JS.Fin (inject_Z 1 * 3600 + inject_Z 2 * 60 + decimal_value 3 50 2)).
Proof.
  destruct parseTimemark_total as (_ & _ & H3 & H4 & H5 & H6).
  split; [apply H3; vm_compute; discriminate|].
  split; [apply H4; [discriminate | reflexivity]|].
  split; [apply H5; reflexivity|].
  exact (H6 (Decimal.D0 (Decimal.D1 Decimal.Nil))
            (Decimal.D0 (Decimal.D2 Decimal.Nil))
            (Decimal.D0 (Decimal.D3 Decimal.Nil))
            (Decimal.D5 (Decimal.D0 Decimal.Nil))).
Defined.

(** ** Effects of the primitives *)

Lemma apply_writes_app (ws ws' : list (string * Job)) (m : gmap string Job) :
  apply_writes (ws ++ ws')%list m = apply_writes ws' (apply_writes ws m).
Proof. unfold apply_writes. apply fold_left_app. Qed.

Lemma effect_refl (st : State) : effect st st [] [].
Proof. split; simpl; rewrite ?app_nil_r; reflexivity. Qed.

Lemma effect_trans (st1 st2 st3 : State) ws ws' cmds cmds' :
  effect st1 st2 ws cmds → effect st2 st3 ws' cmds' →
  effect st1 st3 (ws ++ ws')%list (cmds ++ cmds')%list.
Proof.
  intros [H1 J1 R1] [H2 J2 R2]. split.
  - rewrite H2, H1, app_assoc. reflexivity.
  - rewrite J2, J1, apply_writes_app. reflexivity.
  - rewrite R2, R1, app_assoc. reflexivity.
Qed.

Lemma effect_jobs_set (jobId : string) (job : Job) (st : State) :
  effect st (jobs_set jobId job st) [(jobId, job)] [].
Proof. split; simpl; rewrite ?app_nil_r; reflexivity. Qed.

Lemma effect_log_command (c : Command) (st : State) :
  effect st (log_command c st) [] [c].
Proof. split; simpl; rewrite ?app_nil_r; reflexivity. Qed.

Lemma effect_set_completedSteps (n : nat) (st : State) :
  effect st (set_completedSteps n st) [] [].
Proof. split; simpl; rewrite ?app_nil_r; reflexivity. Qed.

Lemma effect_eq (st st' : State) ws ws' cmds cmds' :
  effect st st' ws cmds → ws = ws' → cmds = cmds' → effect st st' ws' cmds'.
Proof. intros H -> ->. exact H. Qed.

(** The registry after writes that end with one for [jobId]. *)
Lemma apply_writes_last ws (jobId : string) (job : Job) (m : gmap string Job) :
  apply_writes (ws ++ [(jobId, job)])%list m !! jobId = Some job.
Proof.
  rewrite apply_writes_app. simpl. apply lookup_insert_eq.
Qed.

(** ** The progress handlers *)

Lemma forward_percent_sink (sink : Sink) (ev : Progress) (st : State) :
  forward_percent (Some sink) ev st
  = match simple_percent ev with Some p => sink p st | None => st end.
Proof.
  unfold forward_percent, simple_percent.
  destruct (percent ev) as [p|]; [|reflexivity].
  destruct (JS.truthy p); reflexivity.
Qed.

Lemma concat_on_progress_sink (sink : Sink) (total : number) (ev : Progress)
    (st : State) :
  concat_on_progress (Some sink) total ev st
  = match concat_percent total ev with Some p => sink p st | None => st end.
Proof. reflexivity. Qed.

(** Folding a handler that feeds [update_progress] over the events. *)
Lemma fold_update_progress (jobId : string) (t : nat)
    (g : Progress → option number) (h : Progress → State → State) :
  (∀ ev s, h ev s = match g ev with
                    | Some p => update_progress jobId t p s
                    | None => s
                    end) →
  ∀ (evs : list Progress) (st : State),
    let st' := fold_left (fun s ev => h ev s) evs st in
    effect st st' (writes_of jobId t (completedSteps st) (omap g evs)) []
    ∧ completedSteps st' = completedSteps st.
Proof.
  intros Hh evs. induction evs as [|ev evs IH]; intros st; simpl.
  - split; [apply effect_refl | reflexivity].
  - rewrite Hh. destruct (g ev) as [p|].
    + destruct (IH (update_progress jobId t p st)) as [E C].
      simpl in E, C. split; [|exact C].
      eapply effect_eq.
      * eapply effect_trans; [apply effect_jobs_set | exact E].
      * reflexivity.
      * reflexivity.
    + apply IH.
Qed.

Lemma fold_silent (h : Progress → State → State) :
  (∀ ev s, h ev s = s) →
  ∀ (evs : list Progress) (st : State),
    fold_left (fun s ev => h ev s) evs st = st.
Proof.
  intros Hh evs. induction evs as [|ev evs IH]; intros st; simpl;
    [reflexivity|]. rewrite Hh. apply IH.
Qed.

(** A command run with a handler that feeds [update_progress]. *)
Lemma run_update_progress (env : Env) (cmd : Command) (jobId : string) (t : nat)
    (g : Progress → option number) (h : Progress → State → State)
    (describe : string → string) (st : State) :
  (∀ ev s, h ev s = match g ev with
                    | Some p => update_progress jobId t p s
                    | None => s
                    end) →
  ∃ st',
    run env cmd h describe st
    = (settle describe (termination (run_tool env cmd)), st')
    ∧ effect st st'
        (writes_of jobId t (completedSteps st) (omap g (events (run_tool env cmd))))
        [cmd]
    ∧ completedSteps st' = completedSteps st.
Proof.
  intros Hh. unfold run.
  destruct (fold_update_progress jobId t g h Hh (events (run_tool env cmd))
              (log_command cmd st)) as [E C].
  simpl in E, C.
  eexists. split; [|split].
  - unfold settle. destruct (termination (run_tool env cmd)); reflexivity.
  - eapply effect_eq.
    + eapply effect_trans; [apply effect_log_command | exact E].
    + reflexivity.
    + reflexivity.
  - exact C.
Qed.

Lemma run_silent (env : Env) (cmd : Command) (h : Progress → State → State)
    (describe : string → string) (st : State) :
  (∀ ev s, h ev s = s) →
  run env cmd h describe st
  = (settle describe (termination (run_tool env cmd)), log_command cmd st).
Proof.
  intros Hh. unfold run. rewrite (fold_silent h Hh).
  unfold settle. destruct (termination (run_tool env cmd)); reflexivity.
Qed.

(** ** The stages *)

Lemma combinePair_spec (env : Env) (videoA videoB out : path) (config : Config)
    (jobId : string) (t : nat) (st : State) :
  let cmd := combinePair_command videoA videoB out config in
  ∃ st',
    combinePair env videoA videoB out (Some (update_progress jobId t)) config st
    = (settle (fun m => "Failed to combine videos: " ++ m)
         (termination (run_tool env cmd)), st')
    ∧ effect st st'
        (writes_of jobId t (completedSteps st)
           (omap simple_percent (events (run_tool env cmd)))) [cmd]
    ∧ completedSteps st' = completedSteps st.
Proof.
  intros cmd. unfold combinePair.
  apply run_update_progress. apply forward_percent_sink.
Qed.

Lemma compressVideo_spec (env : Env) (input out : path) (config : Config)
    (jobId : string) (t : nat) (st : State) :
  let cmd := compressVideo_command input out config in
  ∃ st',
    compressVideo env input out config (Some (update_progress jobId t)) st
    = (settle (fun m => "Failed to compress video: " ++ m)
         (termination (run_tool env cmd)), st')
    ∧ effect st st'
        (writes_of jobId t (completedSteps st)
           (omap simple_percent (events (run_tool env cmd)))) [cmd]
    ∧ completedSteps st' = completedSteps st.
Proof.
  intros cmd. unfold compressVideo.
  apply run_update_progress. apply forward_percent_sink.
Qed.

Lemma padVideo_spec (env : Env) (input out : path) (amount : number)
    (st : State) :
  let cmd := padVideo_command input out amount in
  padVideo env input out amount (Some (fun _ s => s)) st
  = (settle (fun m => "Failed to pad video: " ++ m)
       (termination (run_tool env cmd)), log_command cmd st).
Proof.
  intros cmd. unfold padVideo. apply run_silent.
  intros ev s. unfold forward_percent.
  destruct (percent ev) as [p|]; [|reflexivity].
  destruct (JS.truthy p); reflexivity.
Qed.

Lemma concatenateVideos_spec (env : Env) (inputPaths : list path) (out : path)
    (reencode : bool) (jobId : string) (t : nat) (st : State) :
  let cmd := concatenateVideos_command (tempListPath env) out reencode in
  let describe := fun m => "Failed to concatenate videos: " ++ m in
  ((inputPaths = []
    ∨ writeFile env (tempListPath env) (fileListContent inputPaths) ≠ None)
   ∧ ∃ m,
       concatenateVideos env inputPaths out (Some (update_progress jobId t))
         reencode st = (Throw m, st))
  ∨ (inputPaths ≠ []
     ∧ writeFile env (tempListPath env) (fileListContent inputPaths) = None
     ∧ ∃ st',
         concatenateVideos env inputPaths out (Some (update_progress jobId t))
           reencode st
         = (settle describe (termination (run_tool env cmd)), st')
         ∧ effect st st'
             (writes_of jobId t (completedSteps st)
                (omap (concat_percent (concat_total env inputPaths reencode))
                   (events (run_tool env cmd)))) [cmd]
         ∧ completedSteps st' = completedSteps st).
Proof.
  intros cmd describe. unfold concatenateVideos.
  destruct inputPaths as [|p ps].
  { left. split; [left; reflexivity | eexists; reflexivity]. }
  destruct (writeFile env _ _) as [m|] eqn:Hw.
  { left. split; [right; discriminate | eexists; reflexivity]. }
  right. split; [discriminate|]. split; [reflexivity|].
  assert (Ht : (if (reencode && bool_decide (is_Some (Some (update_progress jobId t))))%bool
                then sum_durations env (p :: ps) else JS.of_Z 0)
               = concat_total env (p :: ps) reencode).
  { unfold concat_total. rewrite bool_decide_eq_true_2 by eauto.
    rewrite andb_true_r. reflexivity. }
  rewrite Ht.
  apply run_update_progress. intros ev s. apply concat_on_progress_sink.
Qed.

(** ** Steps and their composition *)

Lemma bind_eq {A B} (m : Pipeline A) (k : A → Pipeline B) (st : State) :
  bind m k st
  = match m st with
    | (Ok a, st1) => k a st1
    | (Throw e, st1) => (Throw e, st1)
    end.
Proof. reflexivity. Qed.

Lemma loop_writes_app (jobId : string) (t c : nat) (pss pss' : list (list number)) :
  loop_writes jobId t c (pss ++ pss')%list
  = (loop_writes jobId t c pss ++ loop_writes jobId t (c + length pss) pss')%list.
Proof.
  revert c. induction pss as [|ps pss IH]; intros c; simpl.
  - rewrite Nat.add_0_r. reflexivity.
  - rewrite IH, <- !app_assoc. simpl.
    rewrite Nat.add_succ_r. reflexivity.
Qed.

Lemma advanced_zero env C jobId t (st st' : State) cmds :
  Forall C cmds → effect st st' [] cmds → completedSteps st' = completedSteps st →
  advanced env C jobId t st st' 0.
Proof.
  intros HC E Hc. exists [], cmds. simpl.
  rewrite Nat.add_0_r. auto.
Qed.

Lemma advanced_trans env C jobId t (st1 st2 st3 : State) (k k' : nat) :
  advanced env C jobId t st1 st2 k → advanced env C jobId t st2 st3 k' →
  advanced env C jobId t st1 st3 (k + k').
Proof.
  intros (pss & cmds & Hl & Hp & HC & E & Hc)
         (pss' & cmds' & Hl' & Hp' & HC' & E' & Hc').
  exists (pss ++ pss')%list, (cmds ++ cmds')%list.
  split; [rewrite length_app; lia|].
  split; [apply Forall_app; auto|].
  split; [apply Forall_app; auto|].
  split.
  - rewrite loop_writes_app, Hl, <- Hc. eapply effect_trans; eauto.
  - lia.
Qed.

Lemma advanced_stalled env C jobId t (st1 st2 st3 : State) (k : nat) :
  advanced env C jobId t st1 st2 k → stalled env C jobId t st2 st3 →
  stalled env C jobId t st1 st3.
Proof.
  intros (pss & cmds & Hl & Hp & HC & E & Hc)
         (pss' & ps & cmds' & Hp' & He & HC' & E' & Hc').
  exists (pss ++ pss')%list, ps, (cmds ++ cmds')%list.
  split; [apply Forall_app; auto|].
  split; [assumption|].
  split; [apply Forall_app; auto|].
  split.
  - rewrite loop_writes_app, length_app, Hl, <- app_assoc.
    replace (completedSteps st1 + (k + length pss'))%nat
      with (completedSteps st2 + length pss')%nat by lia.
    rewrite <- Hc. eapply effect_eq.
    + eapply effect_trans; [exact E | exact E'].
    + reflexivity.
    + reflexivity.
  - rewrite length_app. lia.
Qed.

Lemma stalled_here env C jobId t (st st' : State) ps cmds :
  emitted env ps → Forall C cmds →
  effect st st' (writes_of jobId t (completedSteps st) ps) cmds →
  completedSteps st' = completedSteps st →
  stalled env C jobId t st st'.
Proof.
  intros He HC E Hc. exists [], ps, cmds. simpl.
  rewrite Nat.add_0_r. auto using Forall_nil_2.
Qed.

Lemma stalled_at_once env C jobId t (st : State) :
  stalled env C jobId t st st.
Proof.
  apply (stalled_here env C jobId t st st [] []).
  - apply emitted_nothing.
  - apply Forall_nil_2.
  - apply effect_refl.
  - reflexivity.
Qed.

(** A stage followed by [completedSteps++] and the write of the step. *)
Lemma step_outcome env C jobId t (stage : Pipeline unit) (st : State) :
  staged env C jobId t stage st →
  ∀ r st',
    (stage ;; increment ;; record_step jobId t) st = (r, st') →
    match r with
    | Ok _ => advanced env C jobId t st st' 1
    | Throw _ => stalled env C jobId t st st'
    end.
Proof.
  intros (ps & cmds & r1 & st1 & Hs & He & HC & E & Hc) r st'.
  rewrite bind_eq, Hs. destruct r1 as [[]|e].
  - unfold increment, record_step, modify. rewrite !bind_eq. simpl.
    intros [= <- <-].
    exists [ps], cmds. simpl.
    split; [reflexivity|]. split; [auto|]. split; [assumption|].
    split; [|lia].
    rewrite Hc. eapply effect_eq.
    + eapply effect_trans; [exact E|].
      eapply effect_trans; [apply effect_set_completedSteps|].
      apply effect_jobs_set.
    + reflexivity.
    + rewrite app_nil_r. reflexivity.
  - intros [= <- <-]. eapply stalled_here; eauto.
Qed.

Lemma combinePair_staged env (C : Command → Prop) jobId t videoA videoB out config st :
  C (combinePair_command videoA videoB out config) →
  staged env C jobId t
    (combinePair env videoA videoB out (Some (update_progress jobId t)) config) st.
Proof.
  intros HC.
  destruct (combinePair_spec env videoA videoB out config jobId t st)
    as (st' & Hr & E & Hc).
  eexists _, _, _, st'. split; [exact Hr|].
  split; [apply emitted_simple|]. split; [|split; [exact E | exact Hc]].
  auto.
Qed.

Lemma compressVideo_staged env (C : Command → Prop) jobId t input out config st :
  C (compressVideo_command input out config) →
  staged env C jobId t
    (compressVideo env input out config (Some (update_progress jobId t))) st.
Proof.
  intros HC.
  destruct (compressVideo_spec env input out config jobId t st)
    as (st' & Hr & E & Hc).
  eexists _, _, _, st'. split; [exact Hr|].
  split; [apply emitted_simple|]. split; [|split; [exact E | exact Hc]].
  auto.
Qed.

Lemma concatenateVideos_staged env (C : Command → Prop) jobId t inputPaths out
    reencode st :
  C (concatenateVideos_command (tempListPath env) out reencode) →
  staged env C jobId t
    (concatenateVideos env inputPaths out (Some (update_progress jobId t)) reencode)
    st.
Proof.
  intros HC.
  destruct (concatenateVideos_spec env inputPaths out reencode jobId t st)
    as [(_ & m & Hr) | (_ & _ & st' & Hr & E & Hc)].
  - exists [], [], (Throw m), st. split; [exact Hr|].
    split; [apply emitted_nothing|]. split; [apply Forall_nil_2|].
    split; [apply effect_refl | reflexivity].
  - eexists _, _, _, st'. split; [exact Hr|].
    split; [apply emitted_concat|]. split; [|split; [exact E | exact Hc]].
    auto.
Qed.

Lemma bind_assoc {A B D} (m : Pipeline A) (f : A → Pipeline B)
    (g : B → Pipeline D) (st : State) :
  bind (bind m f) g st = bind m (fun a => bind (f a) g) st.
Proof.
  rewrite !bind_eq. destruct (m st) as [[a|e] st1]; reflexivity.
Qed.

(** A step followed by the rest of the pipeline: either the step fails,
    or the rest runs from a state one step further. *)
Lemma step_then {A} env C jobId t (stage : Pipeline unit) (k : Pipeline A)
    (st : State) :
  staged env C jobId t stage st →
  ∀ r st',
    (stage ;; increment ;; record_step jobId t ;; k) st = (r, st') →
    (∃ e, r = Throw e ∧ stalled env C jobId t st st')
    ∨ (∃ st1, advanced env C jobId t st st1 1 ∧ k st1 = (r, st')).
Proof.
  intros Hs r st' H.
  assert (H' : bind (stage ;; increment ;; record_step jobId t) (fun _ => k) st
               = (r, st')).
  { rewrite bind_assoc. rewrite <- H. rewrite !bind_eq.
    destruct (stage st) as [[[]|e] st1]; [|reflexivity].
    rewrite bind_assoc. reflexivity. }
  rewrite bind_eq in H'.
  destruct ((stage ;; increment ;; record_step jobId t) st) as [r1 st1] eqn:E1.
  pose proof (step_outcome env C jobId t stage st Hs r1 st1 E1) as Ho.
  destruct r1 as [[]|e].
  - right. exists st1. auto.
  - left. injection H' as <- <-. eauto.
Qed.

Lemma finish_outcome env C jobId t (stage : Pipeline unit) (st : State) :
  staged env C jobId t stage st →
  ∀ r st',
    (stage ;; increment ;; modify (jobs_set jobId (mkJob (JS.of_Z 100) done None))) st
    = (r, st') →
    match r with
    | Ok _ => finished env C jobId t st st'
    | Throw _ => stalled env C jobId t st st'
    end.
Proof.
  intros (ps & cmds & r1 & st1 & Hs & He & HC & E & Hc) r st'.
  rewrite bind_eq, Hs. destruct r1 as [[]|e].
  - unfold increment, modify. rewrite !bind_eq. simpl.
    intros [= <- <-].
    exists ps, cmds. split; [assumption|]. split; [assumption|].
    split; [|simpl; lia].
    eapply effect_eq.
    + eapply effect_trans; [exact E|].
      eapply effect_trans; [apply effect_set_completedSteps|].
      apply effect_jobs_set.
    + reflexivity.
    + rewrite app_nil_r. reflexivity.
  - intros [= <- <-]. eapply stalled_here; eauto.
Qed.

Lemma advanced_finished env C jobId t (st1 st2 st3 : State) (k : nat) :
  advanced env C jobId t st1 st2 k → finished env C jobId t st2 st3 →
  completed env C jobId t st1 st3 k.
Proof.
  intros (pss & cmds & Hl & Hp & HC & E & Hc) (ps & cmds' & He & HC' & E' & Hc').
  exists pss, ps, (cmds ++ cmds')%list.
  split; [assumption|]. split; [assumption|]. split; [assumption|].
  split; [apply Forall_app; auto|]. split.
  - rewrite <- Hc. eapply effect_trans; eauto.
  - lia.
Qed.

(** *** The pair-by-pair pipeline *)

Section PairwiseTrace.
Variables (env : Env) (jobId : string) (order : Order) (config : Config).
Local Abbreviation C := (pairwise_command env config).
Local Abbreviation t := (totalSteps_pairwise order).

Lemma combine_pair_at_outcome (i : nat) (pairPaths : list path) (st : State) :
  ∀ r st',
    combine_pair_at env jobId order i pairPaths st = (r, st') →
    match r with
    | Ok _ => advanced env C jobId t st st' 1
    | Throw _ => stalled env C jobId t st st'
    end.
Proof.
  intros r st'. unfold combine_pair_at. rewrite bind_eq. unfold lift.
  destruct (findFileById env (uploadsADir env) _) as [pa|e].
  2: { intros [= <- <-]. apply stalled_at_once. }
  rewrite bind_eq.
  destruct (findFileById env (uploadsBDir env) _) as [pb|e].
  2: { intros [= <- <-]. apply stalled_at_once. }
  intros H. apply step_then with (env := env) (C := C) in H.
  - destruct H as [(e & -> & Hst) | (st1 & Ha & Hk)]; [exact Hst|].
    injection Hk as <- <-. exact Ha.
  - apply combinePair_staged. apply pairwise_combine.
Qed.

Lemma combine_pairs_outcome (indices : list nat) :
  ∀ (pairPaths : list path) (st : State) r st',
    combine_pairs env jobId order indices pairPaths st = (r, st') →
    match r with
    | Ok _ => advanced env C jobId t st st' (length indices)
    | Throw _ => stalled env C jobId t st st'
    end.
Proof.
  induction indices as [|i rest IH]; intros pairPaths st r st'; simpl.
  - intros [= <- <-]. cbn. apply advanced_zero with (cmds := []);
      [apply Forall_nil_2 | apply effect_refl | reflexivity].
  - rewrite bind_eq.
    destruct (combine_pair_at env jobId order i pairPaths st) as [r1 st1] eqn:E1.
    pose proof (combine_pair_at_outcome i pairPaths st r1 st1 E1) as H1.
    destruct r1 as [pp|e].
    + intros H. specialize (IH pp st1 r st' H). destruct r.
      * change (S (length rest)) with (1 + length rest)%nat.
        eapply advanced_trans; eauto.
      * eapply advanced_stalled; eauto.
    + intros [= <- <-]. exact H1.
Qed.

Lemma processVideos_try_outcome (st : State) :
  ∀ r st',
    processVideos_try env jobId order config st = (r, st') →
    outcome env C jobId t st r st' (S (numPairs order)).
Proof.
  intros r st'. unfold processVideos_try. rewrite bind_eq.
  destruct (combine_pairs env jobId order (seq 0 (numPairs order)) [] st)
    as [r1 st1] eqn:E1.
  pose proof (combine_pairs_outcome _ _ _ _ _ E1) as H1.
  rewrite length_seq in H1.
  destruct r1 as [pp|e].
  2: { intros [= <- <-]. exact H1. }
  unfold concatenate_pairs. rewrite bind_assoc.
  intros H.
  assert (H' : (concatenateVideos env pp (combinedPath env)
                  (Some (update_progress jobId t)) false ;;
                increment ;; record_step jobId t ;;
                compress_final env jobId config t) st1 = (r, st')).
  { rewrite <- H. rewrite !bind_eq.
    destruct (concatenateVideos _ _ _ _ _ st1) as [[[]|e] st2]; [|reflexivity].
    rewrite bind_assoc. reflexivity. }
  clear H. apply step_then with (env := env) (C := C) in H'.
  2: { apply concatenateVideos_staged. apply pairwise_concatenate. }
  destruct H' as [(e & -> & Hst) | (st2 & Ha & Hk)].
  { eapply advanced_stalled; eauto. }
  pose proof (advanced_trans _ _ _ _ _ _ _ _ _ H1 Ha) as H12.
  unfold compress_final in Hk.
  apply finish_outcome with (env := env) (C := C) (t := t) in Hk.
  2: { apply compressVideo_staged. apply pairwise_compress. }
  destruct r; simpl.
  - replace (S (numPairs order)) with (numPairs order + 1)%nat by lia.
    eapply advanced_finished; eauto.
  - eapply advanced_stalled; eauto.
Qed.
End PairwiseTrace.

(** *** The concatenate-first pipeline *)

Section ConcatenateFirstTrace.
Variables (env : Env) (jobId : string) (order : Order) (config : Config).
Local Abbreviation C := (concatenateFirst_command env config).
Local Abbreviation t := totalSteps_concatenateFirst.

Lemma concatenate_camera_outcome (dir : path) (ids : list string) (out : path)
    (st : State) :
  ∀ r st',
    concatenate_camera env jobId dir ids out st = (r, st') →
    match r with
    | Ok _ => advanced env C jobId t st st' 1
    | Throw _ => stalled env C jobId t st st'
    end.
Proof.
  intros r st'. unfold concatenate_camera. rewrite bind_eq. unfold lift.
  destruct (find_all env dir ids) as [ps|e].
  2: { intros [= <- <-]. apply stalled_at_once. }
  apply step_outcome. apply concatenateVideos_staged.
  apply concatenateFirst_concatenate.
Qed.

(** Padding writes nothing to the registry and leaves the counter. *)
Lemma pad_shorter_effect (st : State) :
  ∀ r st',
    pad_shorter env st = (r, st') →
    ∃ cmds, Forall C cmds ∧ effect st st' [] cmds
            ∧ completedSteps st' = completedSteps st.
Proof.
  intros r st'. unfold pad_shorter. rewrite bind_eq. unfold lift.
  destruct (getVideoDuration env (concatAPath env)) as [dA|e].
  2: { intros [= <- <-]. exists []. auto using Forall_nil_2, effect_refl. }
  rewrite bind_eq.
  destruct (getVideoDuration env (concatBPath env)) as [dB|e].
  2: { intros [= <- <-]. exists []. auto using Forall_nil_2, effect_refl. }
  destruct (JS.gt _ _).
  2: { intros [= <- <-]. exists []. auto using Forall_nil_2, effect_refl. }
  destruct (JS.lt dA dB); rewrite bind_eq, padVideo_spec;
    destruct (termination _); simpl; intros [= <- <-];
    (eexists; split;
     [ apply Forall_singleton; apply concatenateFirst_pad
     | split; [apply effect_log_command | reflexivity] ]).
Qed.

Lemma pad_shorter_outcome (st : State) :
  ∀ r st',
    pad_shorter env st = (r, st') →
    match r with
    | Ok _ => advanced env C jobId t st st' 0
    | Throw _ => stalled env C jobId t st st'
    end.
Proof.
  intros r st' H. destruct (pad_shorter_effect st r st' H) as (cmds & HC & E & Hc).
  destruct r.
  - eapply advanced_zero; eauto.
  - apply (stalled_here env C jobId t st st' [] cmds); auto.
    apply emitted_nothing.
Qed.

Lemma combine_cameras_outcome (pa pb : path) (st : State) :
  ∀ r st',
    combine_cameras env jobId pa pb st = (r, st') →
    match r with
    | Ok _ => advanced env C jobId t st st' 1
    | Throw _ => stalled env C jobId t st st'
    end.
Proof.
  intros r st'. unfold combine_cameras.
  apply step_outcome. apply combinePair_staged. apply concatenateFirst_combine.
Qed.

Lemma compress_final_outcome (st : State) :
  ∀ r st',
    compress_final env jobId config t st = (r, st') →
    match r with
    | Ok _ => finished env C jobId t st st'
    | Throw _ => stalled env C jobId t st st'
    end.
Proof.
  intros r st'. unfold compress_final.
  apply finish_outcome. apply compressVideo_staged.
  apply concatenateFirst_compress.
Qed.

Lemma processVideosConcatenateFirst_try_outcome (st : State) :
  ∀ r st',
    processVideosConcatenateFirst_try env jobId order config st = (r, st') →
    outcome env C jobId t st r st' 3.
Proof.
  intros r st'. unfold processVideosConcatenateFirst_try.
  rewrite bind_eq.
  destruct (concatenate_camera env jobId (uploadsADir env) _ _ st)
    as [r1 st1] eqn:E1.
  pose proof (concatenate_camera_outcome _ _ _ _ _ _ E1) as H1.
  destruct r1 as [[]|e]; [|intros [= <- <-]; exact H1].
  rewrite bind_eq.
  destruct (concatenate_camera env jobId (uploadsBDir env) _ _ st1)
    as [r2 st2] eqn:E2.
  pose proof (concatenate_camera_outcome _ _ _ _ _ _ E2) as H2.
  destruct r2 as [[]|e];
    [|intros [= <- <-]; eapply advanced_stalled; [exact H1 | exact H2]].
  pose proof (advanced_trans _ _ _ _ _ _ _ _ _ H1 H2) as H12.
  rewrite bind_eq.
  destruct (pad_shorter env st2) as [r3 st3] eqn:E3.
  pose proof (pad_shorter_outcome _ _ _ E3) as H3.
  destruct r3 as [fp|e];
    [|intros [= <- <-]; eapply advanced_stalled; [exact H12 | exact H3]].
  pose proof (advanced_trans _ _ _ _ _ _ _ _ _ H12 H3) as H123.
  rewrite bind_eq.
  destruct (combine_cameras env jobId (fst fp) (snd fp) st3) as [r4 st4] eqn:E4.
  pose proof (combine_cameras_outcome _ _ _ _ _ E4) as H4.
  destruct r4 as [[]|e];
    [|intros [= <- <-]; eapply advanced_stalled; [exact H123 | exact H4]].
  pose proof (advanced_trans _ _ _ _ _ _ _ _ _ H123 H4) as H1234.
  intros H5. apply compress_final_outcome in H5.
  destruct r; simpl.
  - eapply advanced_finished; eauto.
  - eapply advanced_stalled; eauto.
Qed.
End ConcatenateFirstTrace.

(** ** Rising traces *)

Lemma boundary_mono (t c c' : nat) :
  (0 < t)%nat → (c ≤ c')%nat → (boundary t c ≤ boundary t c')%Z.
Proof. intros Ht Hc. unfold boundary. apply round_div_mono; lia. Qed.

Lemma boundary_zero (t : nat) : (0 < t)%nat → boundary t 0 = 0%Z.
Proof. intros Ht. unfold boundary. apply round_div_zero. lia. Qed.

Lemma boundary_full (t : nat) : (0 < t)%nat → boundary t t = 100%Z.
Proof. intros Ht. unfold boundary. apply round_div_full. lia. Qed.

Lemma rising_nil (lo hi : Z) : (lo ≤ hi)%Z → rising lo hi [].
Proof.
  intros H. split; [exact H|]. split; [apply Forall_nil_2|].
  exists []. split; [reflexivity|]. split; constructor.
Qed.

Lemma rising_bounds (lo hi : Z) ws : rising lo hi ws → (lo ≤ hi)%Z.
Proof. intros [H _]. exact H. Qed.

Lemma rising_weaken (lo hi lo' hi' : Z) ws :
  rising lo hi ws → (lo' ≤ lo)%Z → (hi ≤ hi')%Z → rising lo' hi' ws.
Proof.
  intros (Hb & Hn & zs & Hz & Hs & Hr) Hlo Hhi.
  split; [lia|]. split; [exact Hn|]. exists zs.
  split; [exact Hz|]. split; [exact Hs|].
  eapply Forall_impl; [exact Hr|]. simpl. intros z Hzr. lia.
Qed.

Lemma StronglySorted_app_le (l l' : list Z) (b : Z) :
  StronglySorted Z.le l → StronglySorted Z.le l' →
  Forall (fun z => (z ≤ b)%Z) l → Forall (fun z => (b ≤ z)%Z) l' →
  StronglySorted Z.le (l ++ l')%list.
Proof.
  intros Hl Hl' Hb Hb'. induction l as [|x l IH]; simpl; [exact Hl'|].
  apply StronglySorted_inv in Hl as [Hl Hx].
  apply Forall_cons_1 in Hb as [Hxb Hb].
  constructor; [apply IH; assumption|].
  apply Forall_app. split; [exact Hx|].
  eapply Forall_impl; [exact Hb'|]. simpl. intros z Hz. lia.
Qed.

Lemma rising_app (a b c : Z) ws ws' :
  rising a b ws → rising b c ws' → rising a c (ws ++ ws')%list.
Proof.
  intros (Hab & Hn & zs & Hz & Hs & Hr) (Hbc & Hn' & zs' & Hz' & Hs' & Hr').
  split; [lia|]. split; [apply Forall_app; auto|].
  exists (zs ++ zs')%list. split; [|split].
  - unfold progress_values in *. rewrite !map_app, Hz, Hz'. reflexivity.
  - apply StronglySorted_app_le with (b := b); auto.
    + eapply Forall_impl; [exact Hr|]. simpl. intros z Hzr. lia.
    + eapply Forall_impl; [exact Hr'|]. simpl. intros z Hzr. lia.
  - apply Forall_app. split.
    + eapply Forall_impl; [exact Hr|]. simpl. intros z Hzr. lia.
    + eapply Forall_impl; [exact Hr'|]. simpl. intros z Hzr. lia.
Qed.

Lemma rising_step_write (jobId : string) (t c : nat) :
  (0 < t)%nat → rising (boundary t c) (boundary t c) [step_write jobId t c].
Proof.
  intros Ht. split; [lia|]. split; [repeat constructor|].
  exists [boundary t c]. split; [|split].
  - unfold progress_values, step_write. simpl.
    rewrite stepProgress_Z by exact Ht. reflexivity.
  - repeat constructor.
  - repeat constructor; lia.
Qed.

Lemma rising_done_write (jobId : string) : rising 100 100 [done_write jobId].
Proof.
  split; [lia|]. split; [repeat constructor|].
  exists [100%Z]. split; [reflexivity|]. split; repeat constructor; lia.
Qed.

Lemma StronglySorted_map_mono (f : Z → Z) (l : list Z) :
  (∀ x y, (x ≤ y)%Z → (f x ≤ f y)%Z) →
  StronglySorted Z.le l → StronglySorted Z.le (map f l).
Proof.
  intros Hf Hl. induction Hl as [|x l Hl IH Hx]; simpl; constructor.
  - exact IH.
  - apply Forall_map. eapply Forall_impl; [exact Hx|]. simpl. auto.
Qed.

Lemma rising_writes_of (jobId : string) (t c : nat) (ps : list number) :
  (0 < t)%nat → good_percents ps →
  rising (boundary t c) (boundary t (S c)) (writes_of jobId t c ps).
Proof.
  intros Ht (zs & -> & Hs & Hr).
  set (f := fun z => round_div (100 * Z.of_nat c + z) (Z.of_nat t)).
  split; [apply boundary_mono; lia|]. split.
  - unfold writes_of. apply Forall_map. apply Forall_map.
    apply Forall_true. reflexivity.
  - exists (map f zs). split; [|split].
    + unfold progress_values, writes_of. rewrite !map_map. simpl.
      apply map_ext. intros z. apply overallProgress_Z. exact Ht.
    + apply StronglySorted_map_mono; [|exact Hs].
      intros x y Hxy. apply round_div_mono; lia.
    + apply Forall_map. eapply Forall_impl; [exact Hr|]. simpl.
      intros z Hz. unfold f, boundary. split; apply round_div_mono; lia.
Qed.

Lemma rising_loop_writes (jobId : string) (t : nat) (pss : list (list number)) :
  (0 < t)%nat → Forall good_percents pss →
  ∀ c, rising (boundary t c) (boundary t (c + length pss))
         (loop_writes jobId t c pss).
Proof.
  intros Ht Hp. induction Hp as [|ps pss Hps Hpss IH]; intros c; simpl.
  - rewrite Nat.add_0_r. apply rising_nil. lia.
  - eapply rising_app; [apply rising_writes_of; assumption|].
    apply (rising_app (boundary t (S c)) (boundary t (S c)) _
             [step_write jobId t (S c)] (loop_writes jobId t (S c) pss));
      [apply rising_step_write; assumption|].
    rewrite Nat.add_succ_r. apply IH.
Qed.

Lemma rising_nondecreasing (lo hi : Z) ws :
  rising lo hi ws → nondecreasing (progress_values ws).
Proof.
  intros (_ & _ & zs & -> & Hs & _) i j x y Hij Hx Hy.
  rewrite list_lookup_fmap in Hx, Hy.
  destruct (zs !! i) as [zi|] eqn:Ei; [|discriminate].
  destruct (zs !! j) as [zj|] eqn:Ej; [|discriminate].
  simpl in Hx, Hy. injection Hx as <-. injection Hy as <-.
  rewrite lt_of_Z. apply bool_decide_eq_false.
  assert (zi ≤ zj)%Z; [|lia].
  clear -Hs Hij Ei Ej. revert i j Hij Ei Ej.
  induction Hs as [|z zs Hs IH Hz]; intros i j Hij Ei Ej; [discriminate|].
  destruct i as [|i], j as [|j]; try lia; simpl in *.
  - injection Ei as ->. rewrite Forall_forall in Hz. apply Hz.
    eapply list_elem_of_lookup_2. exact Ej.
  - apply (IH i j); [lia | assumption | assumption].
Qed.

(** ** A whole job *)

Lemma outcome_rising {A} env C jobId (t k : nat) (st st' : State) (r : result A) :
  well_behaved env → S k = t → completedSteps st = 0%nat →
  outcome env C jobId t st r st' k →
  ∃ ws cmds hi,
    effect st st' ws cmds ∧ rising 0 hi ws ∧ Forall C cmds.
Proof.
  intros Hw Hk Hc Ho.
  assert (Ht : (0 < t)%nat) by lia.
  destruct r as [a|e]; simpl in Ho.
  - destruct Ho as (pss & ps & cmds & Hl & Hp & He & HC & E & _).
    rewrite Hc in E. simpl in E.
    eexists; exists cmds, 100%Z. split; [exact E|]. split; [|exact HC].
    rewrite <- (boundary_zero t Ht).
    eapply rising_app.
    { apply rising_loop_writes; [exact Ht|].
      eapply Forall_impl; [exact Hp|]. exact Hw. }
    rewrite Hl. simpl.
    eapply rising_app.
    { apply rising_writes_of; [exact Ht | apply Hw; exact He]. }
    rewrite Hk, (boundary_full t Ht). apply rising_done_write.
  - destruct Ho as (pss & ps & cmds & Hp & He & HC & E & _).
    rewrite Hc in E. simpl in E.
    eexists; exists cmds, (boundary t (S (length pss))).
    split; [exact E|]. split; [|exact HC].
    rewrite <- (boundary_zero t Ht).
    eapply rising_app.
    { apply rising_loop_writes; [exact Ht|].
      eapply Forall_impl; [exact Hp|]. exact Hw. }
    simpl. apply rising_writes_of; [exact Ht | apply Hw; exact He].
Qed.

(** The wrapper both pipelines share: reset the counter, run the [try]
    block, and on a failure record it and throw again. *)
Lemma guarded_run (body : Pipeline unit) (jobId : string) (t : nat) (st : State) :
  (modify (set_completedSteps 0) ;; try_catch body (on_error jobId t)) st
  = match body (set_completedSteps 0 st) with
    | (Ok a, st1) => (Ok a, st1)
    | (Throw e, st1) =>
        (Throw e,
         jobs_set jobId
           (mkJob (stepProgress (completedSteps st1) t) error (Some e)) st1)
    end.
Proof.
  rewrite bind_eq. unfold modify at 1. unfold try_catch.
  destruct (body (set_completedSteps 0 st)) as [[a|e] st1]; reflexivity.
Qed.

Lemma run_job_eq (env : Env) (jobId : string) (order : Order) (config : Config)
    (st : State) :
  run_job env jobId order config st
  = match try_block env jobId order config (set_completedSteps 0 st) with
    | (Ok _, st1) => st1
    | (Throw e, st1) =>
        jobs_set jobId (mkJob (JS.of_Z 0) error (Some e))
          (jobs_set jobId
             (mkJob (stepProgress (completedSteps st1) (totalSteps_of order config))
                error (Some e)) st1)
    end.
Proof.
  unfold run_job, try_block, totalSteps_of.
  destruct (default false (concatenateFirst config)).
  - unfold processVideosConcatenateFirst. rewrite guarded_run.
    destruct (processVideosConcatenateFirst_try _ _ _ _ _) as [[a|e] st1];
      reflexivity.
  - unfold processVideos. rewrite guarded_run.
    destruct (processVideos_try _ _ _ _ _) as [[a|e] st1]; reflexivity.
Qed.

Lemma try_block_outcome (env : Env) (jobId : string) (order : Order)
    (config : Config) (st : State) :
  ∀ r st',
    try_block env jobId order config st = (r, st') →
    ∃ k, S k = totalSteps_of order config
         ∧ outcome env (command_of env config) jobId (totalSteps_of order config)
             st r st' k.
Proof.
  intros r st'. unfold try_block, totalSteps_of, command_of.
  destruct (default false (concatenateFirst config)); intros H.
  - exists 3%nat. split; [reflexivity|].
    apply processVideosConcatenateFirst_try_outcome with (order := order).
    exact H.
  - exists (S (numPairs order)). split; [unfold totalSteps_pairwise; lia|].
    apply processVideos_try_outcome. exact H.
Qed.

(** The history of a job: the writes of its [try] block, which rise in
    a well-behaved world, then the two writes of the failure, if any. *)
Lemma run_job_history (env : Env) (jobId : string) (order : Order)
    (config : Config) (st : State) :
  well_behaved env →
  ∃ ws errs hi,
    history (run_job env jobId order config st) = (history st ++ ws ++ errs)%list
    ∧ rising 0 hi ws
    ∧ Forall (fun w => not_error w = false) errs.
Proof.
  intros Hw. rewrite run_job_eq.
  destruct (try_block env jobId order config (set_completedSteps 0 st))
    as [r st1] eqn:E.
  destruct (try_block_outcome _ _ _ _ _ _ _ E) as (k & Hk & Ho).
  destruct (outcome_rising env _ jobId _ k (set_completedSteps 0 st) st1 r
              Hw Hk eq_refl Ho)
    as (ws & cmds & hi & [Hh _ _] & Hr & _).
  simpl in Hh. destruct r as [[]|e].
  - exists ws, [], hi. rewrite app_nil_r. auto using Forall_nil_2.
  - exists ws, (error_writes jobId (totalSteps_of order config)
                  (completedSteps st1) e), hi.
    split; [|split; [exact Hr | repeat constructor]].
    simpl. rewrite Hh, <- !app_assoc. reflexivity.
Qed.

Lemma filter_rising (lo hi : Z) ws :
  rising lo hi ws → List.filter not_error ws = ws.
Proof.
  intros (_ & Hn & _). induction Hn as [|w ws Hw Hn IH]; simpl; [reflexivity|].
  rewrite Hw, IH. reflexivity.
Qed.

Lemma filter_errors errs :
  Forall (fun w => not_error w = false) errs → List.filter not_error errs = [].
Proof.
  intros H. induction H as [|w ws Hw Hn IH]; simpl; [reflexivity|].
  rewrite Hw, IH. reflexivity.
Qed.

Lemma post_process_started (env : Env) (uuid : string) (videoOrder : Order)
    (config : option Config) (st : State) (task : State → State) :
  started (post_process env uuid videoOrder config st) = Some task →
  task = run_job env uuid videoOrder (default empty_config config)
  ∧ answered_in (post_process env uuid videoOrder config st)
    = jobs_set uuid (mkJob (JS.of_Z 0) processing None) st
  ∧ response (post_process env uuid videoOrder config st) = Accepted uuid.
Proof.
  unfold post_process.
  destruct (_ || _)%bool; [discriminate|].
  destruct (_ && _)%bool; [discriminate|].
  simpl. intros [= <-]. auto.
Qed.


Lemma steady_world_well_behaved : well_behaved steady_world.
Proof.
  intros ps Hps.
  assert (H : ps = [] ∨ ps = map JS.of_Z [50; 100]%Z).
  { destruct Hps as [|cmd|cmd total]; [left; reflexivity | right ..].
    - reflexivity.
    - simpl. unfold concat_percent. simpl timemark. simpl truthy_string.
      rewrite andb_false_r. reflexivity. }
  destruct H as [-> | ->].
  - exists []. split; [reflexivity|]. split; constructor.
  - exists [50; 100]%Z. split; [reflexivity|].
    split; repeat constructor; lia.
Qed.


Lemma decrease_refutes (l : list number) (i j : nat) (x y : number) :
  (i < j)%nat → l !! i = Some x → l !! j = Some y → JS.lt y x = true →
  ¬ nondecreasing l.
Proof.
  intros Hij Hx Hy Hlt Hn. specialize (Hn i j x y Hij Hx Hy). congruence.
Qed.


(** A failed job always ends with progress 0. *)
Lemma run_job_failure (env : Env) (jobId : string) (order : Order)
    (config : Config) (st st1 : State) (e : string) :
  try_block env jobId order config (set_completedSteps 0 st) = (Throw e, st1) →
  jobs (run_job env jobId order config st) !! jobId
  = Some (mkJob (JS.of_Z 0) error (Some e))
  ∧ history (run_job env jobId order config st)
    = (history st1
       ++ error_writes jobId (totalSteps_of order config) (completedSteps st1) e)%list.
Proof.
  intros H. rewrite run_job_eq, H. split.
  - simpl. apply lookup_insert_eq.
  - simpl. rewrite <- app_assoc. reflexivity.
Qed.

(** C2, on the failing input.  Two pairs; the first combination ends, the
    second fails with "boom" before it reports anything.  The registry
    held progress 25 when the stage failed; the [catch] of the pipeline
    stores 25 with the error, and the [catch] of the route then stores 0:
    the job ends as an error with the stage's message and progress 0. *)
Theorem failed_job_ends_at_zero :
  map (fun w => (progress (snd w), status (snd w)))
    (history (ended failing_world two_pairs empty_config))
  = [ (JS.of_Z 0, processing); (JS.of_Z 25, processing);
      (JS.of_Z 25, error); (JS.of_Z 0, error) ]
  ∧ jobs (ended failing_world two_pairs empty_config) !! "job"
    = Some (mkJob (JS.of_Z 0) error (Some "Failed to combine videos: boom")).
Proof. split; vm_compute; reflexivity. Qed.

(** ** Job creation *)

Lemma length_zero_eqb {A} (l : list A) : Nat.eqb (length l) 0 = true ↔ l = [].
Proof.
  rewrite Nat.eqb_eq. destruct l; simpl; split; intros H;
    first [reflexivity | discriminate].
Qed.

(** C3.  [POST /process] answers with a validation error, registering
    nothing and starting nothing, exactly when a stream is empty or the
    mode is pair-by-pair and the streams differ in length; otherwise it
    registers the job as processing with progress 0 and answers with its
    id before the pipeline has run anything. *)
Theorem create_job_validation (env : Env) (uuid : string) (videoOrder : Order)
    (config : option Config) (st : State) :
  (invalid_order videoOrder config →
     (∃ m, response (post_process env uuid videoOrder config st) = BadRequest m)
     ∧ answered_in (post_process env uuid videoOrder config st) = st
     ∧ started (post_process env uuid videoOrder config st) = None)
  ∧ (¬ invalid_order videoOrder config →
     response (post_process env uuid videoOrder config st) = Accepted uuid
     ∧ answered_in (post_process env uuid videoOrder config st)
       = jobs_set uuid (mkJob (JS.of_Z 0) processing None) st
     ∧ jobs (answered_in (post_process env uuid videoOrder config st)) !! uuid
       = Some (mkJob (JS.of_Z 0) processing None)
     ∧ ran (answered_in (post_process env uuid videoOrder config st)) = ran st
     ∧ started (post_process env uuid videoOrder config st)
       = Some (run_job env uuid videoOrder (default empty_config config))).
Proof.
  unfold invalid_order, pairwise_mode, post_process.
  destruct (Nat.eqb (length (order_a videoOrder)) 0) eqn:Ea.
  { apply length_zero_eqb in Ea. simpl. split; [eauto|]. tauto. }
  destruct (Nat.eqb (length (order_b videoOrder)) 0) eqn:Eb.
  { apply length_zero_eqb in Eb. simpl. split; [eauto|]. tauto. }
  assert (Ha : order_a videoOrder ≠ []).
  { intros H. apply length_zero_eqb in H. congruence. }
  assert (Hb : order_b videoOrder ≠ []).
  { intros H. apply length_zero_eqb in H. congruence. }
  simpl orb. cbv iota.
  destruct (default false (concatenateFirst (default empty_config config))) eqn:Ec;
    simpl negb; simpl andb; cbv iota.
  - split.
    + intros [H | [H | [H _]]]; [tauto | tauto | discriminate].
    + intros _. simpl. rewrite lookup_insert_eq. auto.
  - destruct (Nat.eqb (length (order_a videoOrder)) (length (order_b videoOrder)))
      eqn:El; simpl negb; cbv iota.
    + apply Nat.eqb_eq in El. split.
      * intros [H | [H | [_ H]]]; tauto.
      * intros _. simpl. rewrite lookup_insert_eq. auto.
    + apply Nat.eqb_neq in El. split; [simpl; eauto|].
      intros H. exfalso. apply H. auto.
Qed.

(** Two against three videos: refused pair by pair, accepted in
    concatenate-first mode; two against two: accepted. *)
Lemma create_job_validation_witness :
  invalid_order (mkOrder ["a1"; "a2"] ["b1"; "b2"; "b3"]) None
  ∧ started (post_process steady_world "job"
               (mkOrder ["a1"; "a2"] ["b1"; "b2"; "b3"]) None (init_state ∅))
    = None
  ∧ ¬ invalid_order two_pairs None
  ∧ response (post_process steady_world "job" two_pairs None (init_state ∅))
    = Accepted "job"
  ∧ ¬ invalid_order (mkOrder ["a1"; "a2"] ["b1"; "b2"; "b3"])
        (Some (mkConfig None None None None (Some true)))
  ∧ response (post_process steady_world "job"
                (mkOrder ["a1"; "a2"] ["b1"; "b2"; "b3"])
                (Some (mkConfig None None None None (Some true))) (init_state ∅))
    = Accepted "job".
Proof.
  assert (H1 : invalid_order (mkOrder ["a1"; "a2"] ["b1"; "b2"; "b3"]) None).
  { right. right. split; [reflexivity | simpl; lia]. }
  assert (H2 : ¬ invalid_order two_pairs None).
  { intros [H | [H | [_ H]]]; [discriminate H | discriminate H | simpl in H; lia]. }
  assert (H3 : ¬ invalid_order (mkOrder ["a1"; "a2"] ["b1"; "b2"; "b3"])
                 (Some (mkConfig None None None None (Some true)))).
  { intros [H | [H | [H _]]]; discriminate H. }
  split; [exact H1|]. split.
  { apply (proj1 (create_job_validation steady_world "job" _ None (init_state ∅)) H1). }
  split; [exact H2|]. split.
  { apply (proj2 (create_job_validation steady_world "job" _ None (init_state ∅)) H2). }
  split; [exact H3|].
  apply (proj2 (create_job_validation steady_world "job" _ _ (init_state ∅)) H3).
Defined.

(** ** The trace of the pair-by-pair pipeline *)

Lemma bind_Ok {A B} (m : Pipeline A) (k : A → Pipeline B) (st st' : State) (b : B) :
  bind m k st = (Ok b, st') →
  ∃ a st1, m st = (Ok a, st1) ∧ k a st1 = (Ok b, st').
Proof.
  rewrite bind_eq. destruct (m st) as [[a|e] st1]; [eauto | discriminate].
Qed.

Lemma combine_pairs_app env jobId order (is1 is2 : list nat) :
  ∀ (pairPaths : list path) (st : State),
    combine_pairs env jobId order (is1 ++ is2)%list pairPaths st
    = (pp <- combine_pairs env jobId order is1 pairPaths ;;
       combine_pairs env jobId order is2 pp) st.
Proof.
  induction is1 as [|i is1 IH]; intros pairPaths st; simpl.
  - reflexivity.
  - rewrite bind_assoc, !bind_eq.
    destruct (combine_pair_at env jobId order i pairPaths st) as [[pp|e] st1];
      [apply IH | reflexivity].
Qed.

Lemma loop_writes_last (jobId : string) (t : nat) (pss : list (list number)) :
  pss ≠ [] →
  ∀ c, ∃ ws,
    loop_writes jobId t c pss
    = (ws ++ [step_write jobId t (c + length pss)])%list.
Proof.
  induction pss as [|ps pss IH]; [congruence|]. intros _ c.
  destruct pss as [|ps' pss].
  - exists (writes_of jobId t c ps). simpl.
    rewrite Nat.add_1_r. reflexivity.
  - destruct (IH ltac:(discriminate) (S c)) as (ws & Hws).
    exists (writes_of jobId t c ps ++ [step_write jobId t (S c)] ++ ws)%list.
    change (loop_writes jobId t c (ps :: ps' :: pss))
      with (writes_of jobId t c ps ++ [step_write jobId t (S c)]
            ++ loop_writes jobId t (S c) (ps' :: pss))%list.
    rewrite Hws, <- !app_assoc.
    replace (c + length (ps :: ps' :: pss))%nat
      with (S c + length (ps' :: pss))%nat by (simpl; lia).
    reflexivity.
Qed.

(** After a loop that completed [k > 0] steps the registry and the
    history end with the write of the last step. *)
Lemma advanced_last env C jobId t (st st' : State) (k : nat) :
  (0 < k)%nat → advanced env C jobId t st st' k →
  completedSteps st' = (completedSteps st + k)%nat
  ∧ last (history st') = Some (step_write jobId t (completedSteps st + k))
  ∧ jobs st' !! jobId
    = Some (mkJob (stepProgress (completedSteps st + k) t) processing None).
Proof.
  intros Hk (pss & cmds & Hl & _ & _ & [Hh Hj _] & Hc).
  split; [exact Hc|].
  assert (Hne : pss ≠ []) by (intros ->; simpl in Hl; lia).
  destruct (loop_writes_last jobId t pss Hne (completedSteps st)) as (ws & Hws).
  rewrite Hl in Hws. rewrite Hws in Hh, Hj. split.
  - rewrite Hh, app_assoc. apply last_snoc.
  - rewrite Hj. apply apply_writes_last.
Qed.

Lemma outcome_history {A} env C jobId (t k : nat) (st st' : State) (r : result A) :
  completedSteps st = 0%nat → outcome env C jobId t st r st' k →
  ∃ pss ps,
    Forall (emitted env) pss ∧ emitted env ps
    ∧ history st'
      = (history st ++ loop_writes jobId t 0 pss
         ++ writes_of jobId t (length pss) ps
         ++ match r with Ok _ => [done_write jobId] | Throw _ => [] end)%list
    ∧ (∀ a, r = Ok a → length pss = k ∧ completedSteps st' = S k).
Proof.
  intros Hc Ho. destruct r as [a|e]; simpl in Ho.
  - destruct Ho as (pss & ps & cmds & Hl & Hp & He & _ & [Hh _ _] & Hc').
    rewrite Hc in Hh, Hc'. simpl in Hh, Hc'.
    exists pss, ps. rewrite Hl. auto.
  - destruct Ho as (pss & ps & cmds & Hp & He & _ & [Hh _ _] & _).
    rewrite Hc in Hh. simpl in Hh.
    exists pss, ps. rewrite app_nil_r.
    split; [exact Hp|]. split; [exact He|]. split; [exact Hh|]. discriminate.
Qed.



(** ** The steps of the concatenate-first pipeline *)

Lemma advanced_counter env C jobId t (st st' : State) (k : nat) :
  advanced env C jobId t st st' k →
  completedSteps st' = (completedSteps st + k)%nat.
Proof. intros (pss & cmds & _ & _ & _ & _ & Hc). exact Hc. Qed.

Lemma finished_counter env C jobId t (st st' : State) :
  finished env C jobId t st st' → completedSteps st' = S (completedSteps st).
Proof. intros (ps & cmds & _ & _ & _ & Hc). exact Hc. Qed.

Lemma concatenateFirst_success (env : Env) (jobId : string) (order : Order)
    (config : Config) (st0 st' : State) :
  processVideosConcatenateFirst_try env jobId order config st0 = (Ok tt, st') →
  ∃ st1 st2 st3 st4 fp,
    concatenate_camera env jobId (uploadsADir env) (order_a order)
      (concatAPath env) st0 = (Ok tt, st1)
    ∧ concatenate_camera env jobId (uploadsBDir env) (order_b order)
        (concatBPath env) st1 = (Ok tt, st2)
    ∧ pad_shorter env st2 = (Ok fp, st3)
    ∧ combine_cameras env jobId (fst fp) (snd fp) st3 = (Ok tt, st4)
    ∧ compress_final env jobId config totalSteps_concatenateFirst st4
      = (Ok tt, st').
Proof.
  unfold processVideosConcatenateFirst_try. intros H.
  apply bind_Ok in H as ([] & st1 & H1 & H).
  apply bind_Ok in H as ([] & st2 & H2 & H).
  apply bind_Ok in H as (fp & st3 & H3 & H).
  apply bind_Ok in H as ([] & st4 & H4 & H).
  exists st1, st2, st3, st4, fp. auto.
Qed.

(** C8.  The concatenate-first pipeline counts 4 steps whatever the
    ordering.  Padding writes nothing to the registry and leaves
    completedSteps alone.  In a successful run completedSteps is 1 after
    the first concatenation, 2 after the second, still 2 after the
    padding decision, 3 after the combination and 4 after the compression;
    and the writes are those of three steps counted from 0, then those of
    the compression at 3, then the done record. *)
Theorem concatenateFirst_steps (env : Env) (jobId : string) (order : Order)
    (config : Config) :
  totalSteps_concatenateFirst = 4%nat
  ∧ (∀ (st st' : State) (r : result (path * path)),
       pad_shorter env st = (r, st') →
       completedSteps st' = completedSteps st
       ∧ history st' = history st ∧ jobs st' = jobs st)
  ∧ (∀ st0 st' : State,
       completedSteps st0 = 0%nat →
       processVideosConcatenateFirst_try env jobId order config st0 = (Ok tt, st') →
       ∃ st1 st2 st3 st4 fp,
         (concatenate_camera env jobId (uploadsADir env) (order_a order)
            (concatAPath env) st0 = (Ok tt, st1)
          ∧ completedSteps st1 = 1%nat)
         ∧ (concatenate_camera env jobId (uploadsBDir env) (order_b order)
              (concatBPath env) st1 = (Ok tt, st2)
            ∧ completedSteps st2 = 2%nat)
         ∧ (pad_shorter env st2 = (Ok fp, st3) ∧ completedSteps st3 = 2%nat)
         ∧ (combine_cameras env jobId (fst fp) (snd fp) st3 = (Ok tt, st4)
            ∧ completedSteps st4 = 3%nat)
         ∧ (compress_final env jobId config 4 st4 = (Ok tt, st')
            ∧ completedSteps st' = 4%nat))
  ∧ (∀ (st0 st' : State) (r : result unit),
       completedSteps st0 = 0%nat →
       processVideosConcatenateFirst_try env jobId order config st0 = (r, st') →
       ∃ pss ps,
         Forall (emitted env) pss ∧ emitted env ps
         ∧ history st'
           = (history st0 ++ loop_writes jobId 4 0 pss
              ++ writes_of jobId 4 (length pss) ps
              ++ match r with Ok _ => [done_write jobId] | Throw _ => [] end)%list
         ∧ (∀ u, r = Ok u → length pss = 3%nat ∧ completedSteps st' = 4%nat)).
Proof.
  split; [reflexivity|]. split; [|split].
  - intros st st' r H.
    destruct (pad_shorter_effect env config st r st' H) as (cmds & _ & [Hh Hj _] & Hc).
    rewrite app_nil_r in Hh. auto.
  - intros st0 st' Hc H.
    destruct (concatenateFirst_success _ _ _ _ _ _ H)
      as (st1 & st2 & st3 & st4 & fp & H1 & H2 & H3 & H4 & H5).
    exists st1, st2, st3, st4, fp.
    pose proof (concatenate_camera_outcome env jobId config _ _ _ _ _ _ H1) as A1.
    pose proof (concatenate_camera_outcome env jobId config _ _ _ _ _ _ H2) as A2.
    pose proof (pad_shorter_outcome env jobId config _ _ _ H3) as A3.
    pose proof (combine_cameras_outcome env jobId config _ _ _ _ _ H4) as A4.
    pose proof (compress_final_outcome env jobId config _ _ _ H5) as A5.
    simpl in A1, A2, A3, A4, A5.
    apply advanced_counter in A1, A2, A3, A4. apply finished_counter in A5.
    repeat split; try assumption; lia.
  - intros st0 st' r Hc H.
    apply processVideosConcatenateFirst_try_outcome in H.
    exact (outcome_history _ _ _ _ _ _ _ _ Hc H).
Qed.

(** Twelve segments on camera A and nine on camera B: the run ends with
    completedSteps = 4. *)
Lemma concatenateFirst_steps_witness :
  completedSteps
    (snd (processVideosConcatenateFirst_try steady_world "job" many_segments
            empty_config (accepted steady_world many_segments
                            (mkConfig None None None None (Some true)))))
  = 4%nat.
Proof.
  destruct (concatenateFirst_steps steady_world "job" many_segments empty_config)
    as (_ & _ & H3 & _).
  destruct (processVideosConcatenateFirst_try steady_world "job" many_segments
              empty_config (accepted steady_world many_segments
                              (mkConfig None None None None (Some true))))
    as [r st] eqn:E.
  assert (Hr : r = Ok tt).
  { assert (Hf : fst (processVideosConcatenateFirst_try steady_world "job"
                        many_segments empty_config
                        (accepted steady_world many_segments
                           (mkConfig None None None None (Some true)))) = Ok tt)
      by (vm_compute; reflexivity).
    rewrite E in Hf. exact Hf. }
  subst r.
  destruct (H3 (accepted steady_world many_segments
                  (mkConfig None None None None (Some true))) st eq_refl E)
    as (st1 & st2 & st3 & st4 & fp & _ & _ & _ & _ & _ & Hc).
  exact Hc.
Defined.

(** ** The commands of a pipeline *)

Lemma guarded_inv (body : Pipeline unit) (jobId : string) (t : nat)
    (st st' : State) (r : result unit) :
  (modify (set_completedSteps 0) ;; try_catch body (on_error jobId t)) st = (r, st') →
  ∃ r1 st1,
    body (set_completedSteps 0 st) = (r1, st1)
    ∧ ran st' = ran st1
    ∧ (∀ u, r = Ok u → r1 = Ok u ∧ st' = st1).
Proof.
  rewrite guarded_run.
  destruct (body (set_completedSteps 0 st)) as [[a|e] st1] eqn:E;
    intros [= <- <-]; eexists _, st1; (split; [reflexivity|]); simpl.
  - split; [reflexivity|]. intros u [= <-]. auto.
  - split; [reflexivity|]. discriminate.
Qed.

Lemma outcome_ran {A} env C jobId (t k : nat) (st st' : State) (r : result A) :
  outcome env C jobId t st r st' k →
  ∃ cmds, ran st' = (ran st ++ cmds)%list ∧ Forall C cmds.
Proof.
  destruct r; simpl.
  - intros (pss & ps & cmds & _ & _ & _ & HC & [_ _ Hr] & _). eauto.
  - intros (pss & ps & cmds & _ & _ & HC & [_ _ Hr] & _). eauto.
Qed.

Lemma step_ran (stage : Pipeline unit) (jobId : string) (t : nat) (cmd : Command)
    (st st' : State) :
  (∀ s r s', stage s = (r, s') → r = Ok tt → ran s' = (ran s ++ [cmd])%list) →
  (stage ;; increment ;; record_step jobId t) st = (Ok tt, st') →
  ran st' = (ran st ++ [cmd])%list.
Proof.
  intros Hs H. apply bind_Ok in H as ([] & st1 & H1 & H).
  unfold increment, record_step, modify in H. rewrite bind_eq in H.
  injection H as <-. simpl. eapply Hs; eauto.
Qed.

Lemma concatenateVideos_ran env inputPaths out reencode jobId t (st st' : State) r :
  concatenateVideos env inputPaths out (Some (update_progress jobId t)) reencode st
  = (r, st') →
  r = Ok tt →
  ran st' = (ran st ++ [concatenateVideos_command (tempListPath env) out reencode])%list.
Proof.
  intros H ->.
  destruct (concatenateVideos_spec env inputPaths out reencode jobId t st)
    as [(_ & m & Hr) | (_ & _ & st1 & Hr & [_ _ E] & _)].
  - rewrite Hr in H. discriminate.
  - rewrite Hr in H. injection H as _ <-. exact E.
Qed.

Lemma concatenate_pairs_ran env jobId order pairPaths (st st' : State) :
  concatenate_pairs env jobId order pairPaths st = (Ok tt, st') →
  ran st'
  = (ran st ++ [concatenateVideos_command (tempListPath env) (combinedPath env) false])%list.
Proof.
  unfold concatenate_pairs. apply step_ran.
  intros s r s'. apply concatenateVideos_ran.
Qed.

Lemma concatenate_camera_ran env jobId dir ids out (st st' : State) :
  concatenate_camera env jobId dir ids out st = (Ok tt, st') →
  ran st' = (ran st ++ [concatenateVideos_command (tempListPath env) out true])%list.
Proof.
  unfold concatenate_camera. intros H.
  apply bind_Ok in H as (ps & st1 & H1 & H).
  unfold lift in H1. injection H1 as _ <-.
  revert H. apply step_ran.
  intros s r s'. apply concatenateVideos_ran.
Qed.

Lemma compress_final_ran env jobId config t (st st' : State) r :
  compress_final env jobId config t st = (r, st') →
  ran st'
  = (ran st ++ [compressVideo_command (combinedPath env) (finalPath env) config])%list.
Proof.
  unfold compress_final. rewrite bind_eq.
  destruct (compressVideo_spec env (combinedPath env) (finalPath env) config
              jobId t st) as (st1 & -> & [_ _ E] & _).
  destruct (settle _ _) as [[]|e].
  - unfold increment, modify. rewrite bind_eq. intros [= _ <-]. exact E.
  - intros [= _ <-]. exact E.
Qed.

Lemma ran_grows env C jobId (t k : nat) (st st' : State) :
  advanced env C jobId t st st' k → ∃ cmds, ran st' = (ran st ++ cmds)%list.
Proof. intros (pss & cmds & _ & _ & _ & [_ _ Hr] & _). eauto. Qed.

Lemma pairwise_success (env : Env) (jobId : string) (order : Order)
    (config : Config) (st0 st' : State) :
  processVideos_try env jobId order config st0 = (Ok tt, st') →
  ∃ pairPaths st1 st2,
    combine_pairs env jobId order (seq 0 (numPairs order)) [] st0
    = (Ok pairPaths, st1)
    ∧ concatenate_pairs env jobId order pairPaths st1 = (Ok tt, st2)
    ∧ compress_final env jobId config (totalSteps_pairwise order) st2 = (Ok tt, st').
Proof.
  unfold processVideos_try. intros H.
  apply bind_Ok in H as (pp & st1 & H1 & H).
  apply bind_Ok in H as ([] & st2 & H2 & H).
  exists pp, st1, st2. auto.
Qed.

Lemma pairwise_command_concatenation env config (cmd : Command) :
  pairwise_command env config cmd → is_concatenation cmd → stream_copy cmd.
Proof.
  intros [a b out| |] H; unfold is_concatenation in H.
  - discriminate H.
  - repeat split.
  - unfold compressVideo_command in H.
    destruct (maxWidth config) as [w|]; [destruct (JS.truthy w)|];
      discriminate H.
Qed.

Lemma concatenateFirst_command_concatenation env config (cmd : Command) :
  concatenateFirst_command env config cmd → is_concatenation cmd →
  reencodes_cfr cmd.
Proof.
  intros [out|input out amount|a b|] H; unfold is_concatenation in H.
  - repeat split.
  - discriminate H.
  - discriminate H.
  - unfold compressVideo_command in H.
    destruct (maxWidth config) as [w|]; [destruct (JS.truthy w)|];
      discriminate H.
Qed.

(** C6.  Every concatenation the pair-by-pair pipeline hands to the tool
    is a stream copy, and every concatenation the concatenate-first
    pipeline hands to it re-encodes with constant-frame-rate normalisation,
    whatever the job, its ordering, its configuration and the world; a
    successful run has run its concatenation (both of them, in
    concatenate-first mode). *)
Theorem concatenation_mode (env : Env) (jobId : string) (order : Order)
    (config : Config) :
  (∀ (st st' : State) (r : result unit),
     processVideos env jobId order config st = (r, st') →
     ∃ cmds,
       ran st' = (ran st ++ cmds)%list
       ∧ (∀ cmd, cmd ∈ cmds → is_concatenation cmd → stream_copy cmd)
       ∧ (∀ u, r = Ok u →
            concatenateVideos_command (tempListPath env) (combinedPath env) false
            ∈ cmds))
  ∧ (∀ (st st' : State) (r : result unit),
       processVideosConcatenateFirst env jobId order config st = (r, st') →
       ∃ cmds,
         ran st' = (ran st ++ cmds)%list
         ∧ (∀ cmd, cmd ∈ cmds → is_concatenation cmd → reencodes_cfr cmd)
         ∧ (∀ u, r = Ok u →
              concatenateVideos_command (tempListPath env) (concatAPath env) true
              ∈ cmds
              ∧ concatenateVideos_command (tempListPath env) (concatBPath env) true
                ∈ cmds)).
Proof.
  split; intros st st' r H.
  - apply guarded_inv in H as (r1 & st1 & H1 & Hr & Hok).
    pose proof (processVideos_try_outcome env jobId order config _ _ _ H1) as Ho.
    apply outcome_ran in Ho as (cmds & Hc & HC). simpl in Hc.
    exists cmds. split; [congruence|]. split.
    + intros cmd Hin. rewrite Forall_forall in HC.
      apply pairwise_command_concatenation with (env := env) (config := config).
      apply HC. exact Hin.
    + intros u Hu. destruct (Hok u Hu) as [-> ->]. destruct u.
      apply pairwise_success in H1 as (pp & s1 & s2 & E1 & E2 & E3).
      apply combine_pairs_outcome with (config := config) in E1.
      apply ran_grows in E1 as (c1 & E1). simpl in E1.
      apply concatenate_pairs_ran in E2.
      apply compress_final_ran in E3.
      rewrite E3, E2, E1, <- !app_assoc in Hc.
      apply app_inv_head in Hc. subst cmds.
      rewrite !elem_of_app, !elem_of_cons. auto.
  - apply guarded_inv in H as (r1 & st1 & H1 & Hr & Hok).
    pose proof (processVideosConcatenateFirst_try_outcome env jobId order config
                  _ _ _ H1) as Ho.
    apply outcome_ran in Ho as (cmds & Hc & HC). simpl in Hc.
    exists cmds. split; [congruence|]. split.
    + intros cmd Hin. rewrite Forall_forall in HC.
      apply concatenateFirst_command_concatenation
        with (env := env) (config := config).
      apply HC. exact Hin.
    + intros u Hu. destruct (Hok u Hu) as [-> ->]. destruct u.
      apply concatenateFirst_success
        in H1 as (s1 & s2 & s3 & s4 & fp & E1 & E2 & E3 & E4 & E5).
      apply concatenate_camera_ran in E1, E2.
      apply pad_shorter_effect with (config := config)
        in E3 as (c3 & _ & [_ _ E3] & _).
      apply combine_cameras_outcome with (config := config) in E4.
      apply ran_grows in E4 as (c4 & E4).
      apply compress_final_ran in E5.
      rewrite E5, E4, E3, E2, E1, <- !app_assoc in Hc.
      apply app_inv_head in Hc. subst cmds.
      rewrite !elem_of_app, !elem_of_cons. auto.
Qed.

(** Two pairs in the steady world: the one concatenation of the
    pair-by-pair run is a stream copy; the two of the concatenate-first
    run re-encode. *)
Lemma concatenation_mode_witness :
  (∃ cmd,
     cmd ∈ ran (snd (processVideos steady_world "job" two_pairs empty_config
                       (accepted steady_world two_pairs empty_config)))
     ∧ is_concatenation cmd ∧ stream_copy cmd)
  ∧ (∃ cmd,
       cmd ∈ ran (snd (processVideosConcatenateFirst steady_world "job" two_pairs
                         empty_config (accepted steady_world two_pairs empty_config)))
       ∧ is_concatenation cmd ∧ reencodes_cfr cmd).
Proof.
  destruct (concatenation_mode steady_world "job" two_pairs empty_config)
    as [H1 H2].
  split.
  - destruct (processVideos steady_world "job" two_pairs empty_config
                (accepted steady_world two_pairs empty_config)) as [r st] eqn:E.
    assert (Hr : r = Ok tt).
    { assert (Hf : fst (processVideos steady_world "job" two_pairs empty_config
                          (accepted steady_world two_pairs empty_config)) = Ok tt)
        by (vm_compute; reflexivity).
      rewrite E in Hf. exact Hf. }
    destruct (H1 _ _ _ E) as (cmds & Hran & Hs & Hin).
    specialize (Hin tt Hr).
    eexists. simpl. rewrite Hran. split; [|split].
    + apply elem_of_app. right. exact Hin.
    + reflexivity.
    + apply Hs; [exact Hin | reflexivity].
  - destruct (processVideosConcatenateFirst steady_world "job" two_pairs
                empty_config (accepted steady_world two_pairs empty_config))
      as [r st] eqn:E.
    assert (Hr : r = Ok tt).
    { assert (Hf : fst (processVideosConcatenateFirst steady_world "job" two_pairs
                          empty_config
                          (accepted steady_world two_pairs empty_config)) = Ok tt)
        by (vm_compute; reflexivity).
      rewrite E in Hf. exact Hf. }
    destruct (H2 _ _ _ E) as (cmds & Hran & Hs & Hin).
    destruct (Hin tt Hr) as [HinA _].
    eexists. simpl. rewrite Hran. split; [|split].
    + apply elem_of_app. right. exact HinA.
    + reflexivity.
    + apply Hs; [exact HinA | reflexivity].
Defined.

(** ** The final artifact *)

Lemma finalPath_fixed (env : Env) :
  finalPath env = join (dirname env) "../../output/final.mp4".
Proof. reflexivity. Qed.

(** With the routes two directories below the root, the final path is
    output/final.mp4 under the root. *)
Lemma finalPath_under_root (env : Env) (root : path) (d1 d2 : string) :
  dirname env = (root ++ [d1; d2])%list →
  finalPath env = (root ++ ["output"; "final.mp4"])%list.
Proof.
  intros H. unfold finalPath, outputDir, join. rewrite H. simpl.
  change (join_segment (root ++ [d1; d2])%list "..")
    with (removelast (root ++ [d1] ++ [d2])%list).
  rewrite app_assoc, removelast_last.
  change (join_segment (root ++ [d1])%list "..")
    with (removelast (root ++ [d1])%list).
  rewrite removelast_last.
  change (join_segment (join_segment root "output") "final.mp4")
    with ((root ++ ["output"]) ++ ["final.mp4"])%list.
  rewrite <- app_assoc. reflexivity.
Qed.

Lemma last_ran_compress env jobId config t (st st' : State) r :
  compress_final env jobId config t st = (r, st') →
  last (ran st')
  = Some (compressVideo_command (combinedPath env) (finalPath env) config).
Proof.
  intros H. apply compress_final_ran in H. rewrite H. apply last_snoc.
Qed.

Lemma compressVideo_command_output (input out : path) (config : Config) :
  output_path (compressVideo_command input out config) = Some out.
Proof. reflexivity. Qed.

(** C9.  Both pipelines end a successful run with the compression that
    writes output/final.mp4 under the server's root, a path in which the
    job id does not occur; and [GET /download/:jobId] serves that same
    path for every job that is done, so any two done jobs are served the
    same file. *)
Theorem final_artifact_shared (env : Env) :
  finalPath env = join (dirname env) "../../output/final.mp4"
  ∧ (∀ (root : path) (d1 d2 : string),
       dirname env = (root ++ [d1; d2])%list →
       finalPath env = (root ++ ["output"; "final.mp4"])%list)
  ∧ (∀ (jobId : string) (order : Order) (config : Config) (st st' : State),
       processVideos env jobId order config st = (Ok tt, st') →
       ∃ cmd, last (ran st') = Some cmd
              ∧ cmd = compressVideo_command (combinedPath env) (finalPath env) config
              ∧ output_path cmd = Some (finalPath env))
  ∧ (∀ (jobId : string) (order : Order) (config : Config) (st st' : State),
       processVideosConcatenateFirst env jobId order config st = (Ok tt, st') →
       ∃ cmd, last (ran st') = Some cmd
              ∧ cmd = compressVideo_command (combinedPath env) (finalPath env) config
              ∧ output_path cmd = Some (finalPath env))
  ∧ (∀ (jobId : string) (st : State) (job : Job),
       jobs st !! jobId = Some job → status job = done →
       get_download env jobId st
       = if access env (finalPath env)
         then Download (finalPath env) "final.mp4"
         else NotFound "File not found")
  ∧ (∀ (jobId1 jobId2 : string) (st : State) (job1 job2 : Job),
       jobs st !! jobId1 = Some job1 → status job1 = done →
       jobs st !! jobId2 = Some job2 → status job2 = done →
       get_download env jobId1 st = get_download env jobId2 st).
Proof.
  assert (Hd : ∀ (jobId : string) (st : State) (job : Job),
             jobs st !! jobId = Some job → status job = done →
             get_download env jobId st
             = if access env (finalPath env)
               then Download (finalPath env) "final.mp4"
               else NotFound "File not found").
  { intros jobId st job Hj Hs. unfold get_download. rewrite Hj, Hs.
    reflexivity. }
  split; [reflexivity|]. split; [apply finalPath_under_root|].
  split; [|split; [|split]].
  - intros jobId order config st st' H.
    apply guarded_inv in H as (r1 & st1 & H1 & Hr & Hok).
    destruct (Hok tt eq_refl) as [-> ->].
    apply pairwise_success in H1 as (pp & s1 & s2 & _ & _ & E3).
    eexists. split; [eapply last_ran_compress; exact E3|]. auto.
  - intros jobId order config st st' H.
    apply guarded_inv in H as (r1 & st1 & H1 & Hr & Hok).
    destruct (Hok tt eq_refl) as [-> ->].
    apply concatenateFirst_success
      in H1 as (s1 & s2 & s3 & s4 & fp & _ & _ & _ & _ & E5).
    eexists. split; [eapply last_ran_compress; exact E5|]. auto.
  - exact Hd.
  - intros j1 j2 st job1 job2 H1 S1 H2 S2.
    rewrite (Hd j1 st job1 H1 S1), (Hd j2 st job2 H2 S2). reflexivity.
Qed.

(** Two jobs done in the steady world, "job" and "other": both runs end
    with the compression into /srv/output/final.mp4 and both downloads
    serve it. *)
Lemma final_artifact_shared_witness :
  (∃ cmd,
     last (ran (snd (processVideos steady_world "job" two_pairs empty_config
                       (accepted steady_world two_pairs empty_config))))
     = Some cmd
     ∧ output_path cmd = Some ["srv"; "output"; "final.mp4"])
  ∧ get_download steady_world "job"
      (jobs_set "other" (mkJob (JS.of_Z 100) done None)
         (ended steady_world two_pairs empty_config))
    = Download ["srv"; "output"; "final.mp4"] "final.mp4"
  ∧ get_download steady_world "other"
      (jobs_set "other" (mkJob (JS.of_Z 100) done None)
         (ended steady_world two_pairs empty_config))
    = Download ["srv"; "output"; "final.mp4"] "final.mp4".
Proof.
  destruct (final_artifact_shared steady_world) as (_ & _ & H2 & _ & H4 & _).
  split; [|split].
  - destruct (processVideos steady_world "job" two_pairs empty_config
                (accepted steady_world two_pairs empty_config)) as [r st] eqn:E.
    assert (Hr : r = Ok tt).
    { assert (Hf : fst (processVideos steady_world "job" two_pairs empty_config
                          (accepted steady_world two_pairs empty_config)) = Ok tt)
        by (vm_compute; reflexivity).
      rewrite E in Hf. exact Hf. }
    subst r. destruct (H2 _ _ _ _ _ E) as (cmd & Hl & _ & Ho).
    exists cmd. split; [exact Hl | exact Ho].
  - apply (H4 "job" _ (mkJob (JS.of_Z 100) done None));
      [vm_compute; reflexivity | reflexivity].
  - apply (H4 "other" _ (mkJob (JS.of_Z 100) done None));
      [vm_compute; reflexivity | reflexivity].
Defined.

(** ** The padding decision *)

Lemma lt_fin (a b : Q) : JS.lt (JS.Fin a) (JS.Fin b) = true ↔ a < b.
Proof.
  unfold JS.lt. rewrite Qlt_alt. destruct (a ?= b); split; congruence.
Qed.

(** When the durations differ by more than 5, one of them is strictly
    the shorter. *)
Lemma shorter_exists (dA dB : number) :
  JS.gt (JS.abs (dA - dB)%js) (JS.of_Z 5) = true →
  JS.lt dA dB = false → JS.lt dB dA = true.
Proof.
  destruct dA as [| |a|], dB as [| |b|];
    try solve [simpl; discriminate | simpl; intros; reflexivity
              | simpl; intros; discriminate].
  unfold JS.gt, JS.abs, JS.sub, JS.add, JS.neg, JS.of_Z.
  intros Hgt Hlt.
  apply lt_fin in Hgt. apply lt_fin.
  destruct (Qlt_le_dec b a) as [H|H]; [exact H|]. exfalso.
  destruct (Qlt_le_dec a b) as [H'|H'].
  - apply lt_fin in H'. unfold JS.lt in *. congruence.
  - assert (Hab : a == b) by (apply Qle_antisym; assumption).
    assert (Hz : a + - b == 0) by (rewrite Hab; ring).
    rewrite Hz in Hgt. apply Qlt_alt in Hgt. discriminate Hgt.
Qed.

Lemma combine_cameras_reads env jobId (pa pb : path) (st : State) :
  ∃ r st',
    combine_cameras env jobId pa pb st = (r, st')
    ∧ ran st' = (ran st ++ [combinePair_command pa pb (combinedPath env) empty_config])%list
    ∧ inputs (combinePair_command pa pb (combinedPath env) empty_config) = [pa; pb].
Proof.
  unfold combine_cameras.
  destruct (combinePair_spec env pa pb (combinedPath env) empty_config jobId
              totalSteps_concatenateFirst st) as (st1 & Hr & [_ _ E] & _).
  rewrite bind_eq, Hr. destruct (settle _ _) as [[]|e].
  - eexists _, _. split; [reflexivity|]. split; [exact E | reflexivity].
  - eexists _, _. split; [reflexivity|]. split; [exact E | reflexivity].
Qed.



(** ** Progress of a re-encoding concatenation *)

Lemma sum_durations_from (env : Env) (inputPaths : list path) (acc : number) :
  fold_left
    (fun totalDuration inputPath =>
       match getVideoDuration env inputPath with
       | Ok duration => (totalDuration + duration)%js
       | Throw _ => totalDuration
       end) inputPaths acc
  = fold_left JS.add (probed_durations env inputPaths) acc.
Proof.
  revert acc. induction inputPaths as [|p ps IH]; intros acc; simpl.
  - reflexivity.
  - unfold probed_durations. simpl.
    destruct (getVideoDuration env p) as [d|e]; simpl; apply IH.
Qed.

Lemma sum_durations_probed (env : Env) (inputPaths : list path) :
  sum_durations env inputPaths
  = fold_left JS.add (probed_durations env inputPaths) (JS.of_Z 0).
Proof. apply sum_durations_from. Qed.

Lemma probed_durations_none (env : Env) (inputPaths : list path) :
  Forall (fun p => ∃ m, getVideoDuration env p = Throw m) inputPaths →
  probed_durations env inputPaths = [].
Proof.
  intros H. induction H as [|p ps [m Hp] _ IH]; [reflexivity|].
  unfold probed_durations in *. simpl. rewrite Hp. exact IH.
Qed.

Lemma concat_percent_timemark (total : number) (ev : Progress) :
  JS.gt total (JS.of_Z 0) = true → truthy_string (timemark ev) = true →
  concat_percent total ev
  = Some (JS.min (JS.of_Z 99)
            (JS.round ((parseTimemark (timemark ev) / total) * JS.of_Z 100)%js)).
Proof. intros H1 H2. unfold concat_percent. rewrite H1, H2. reflexivity. Qed.

Lemma concat_percent_fallback (total : number) (ev : Progress) :
  JS.gt total (JS.of_Z 0) = false ∨ truthy_string (timemark ev) = false →
  concat_percent total ev = raw_percent ev.
Proof.
  intros [H | H]; unfold concat_percent; rewrite H, ?andb_false_r; reflexivity.
Qed.

Lemma concatenateVideos_probe_free (env : Env) (probe : path → Probe)
    (inputPaths : list path) (out : path) (onProgress : option Sink)
    (reencode : bool) (st : State) :
  fst (concatenateVideos (with_ffprobe env probe) inputPaths out onProgress
         reencode st)
  = fst (concatenateVideos env inputPaths out onProgress reencode st).
Proof.
  unfold concatenateVideos. destruct inputPaths as [|p ps]; [reflexivity|].
  change (writeFile (with_ffprobe env probe)) with (writeFile env).
  change (tempListPath (with_ffprobe env probe)) with (tempListPath env).
  destruct (writeFile env _ _); [reflexivity|].
  unfold run.
  change (run_tool (with_ffprobe env probe)) with (run_tool env).
  destruct (termination _); reflexivity.
Qed.




(** * Further properties *)

(** ** Finding a file by its identifier *)

Lemma prefix_app (id ext : string) : String.prefix id (id ++ ext) = true.
Proof.
  induction id as [|c id IH].
  - destruct ext; reflexivity.
  - rewrite append_cons. simpl.
    destruct (ascii_dec c c); [exact IH | congruence].
Qed.

Lemma prefix_same_length (id u e : string) :
  String.length u = String.length id →
  String.prefix id (u ++ e) = true → u = id.
Proof.
  revert u. induction id as [|c id IH]; intros [|d u] Hl H;
    simpl in Hl; try discriminate.
  - reflexivity.
  - rewrite append_cons in H. simpl in H.
    destruct (ascii_dec c d) as [->|]; [|discriminate].
    f_equal. apply IH; [lia | exact H].
Qed.

Lemma find_first_match {A} (P : A → bool) (before after : list A) (x : A) :
  Forall (fun y => P y = false) before → P x = true →
  List.find P (before ++ x :: after)%list = Some x.
Proof.
  intros Hb Hx. induction Hb as [|y before Hy _ IH]; simpl.
  - rewrite Hx. reflexivity.
  - rewrite Hy. exact IH.
Qed.

Lemma find_none_iff {A} (P : A → bool) (l : list A) :
  List.find P l = None ↔ Forall (fun y => P y = false) l.
Proof.
  induction l as [|y l IH]; simpl.
  - split; [intros _; apply Forall_nil_2 | reflexivity].
  - destruct (P y) eqn:E.
    + split; [discriminate|]. intros H. inversion H; congruence.
    + rewrite IH. split; [intros H; constructor; assumption|].
      intros H. inversion H; assumption.
Qed.

(** X1.  [findFileById] returns the first entry of the directory listing
    whose name starts with the identifier, joined to the directory. *)
Theorem findFileById_first_match (env : Env) (dir : path) (id file : string)
    (before after : list string) :
  readdirSync env dir = Ok (before ++ file :: after)%list →
  Forall (fun f => String.prefix id f = false) before →
  String.prefix id file = true →
  findFileById env dir id = Ok (join dir file).
Proof.
  intros Hd Hb Hf. unfold findFileById. rewrite Hd.
  rewrite (find_first_match _ before after file Hb Hf). reflexivity.
Qed.

(** The directory lists a10.mp4 before a1.mp4: the identifier a1 finds
    a10.mp4. *)
Lemma findFileById_first_match_witness :
  findFileById (listing ["b7.mp4"; "a10.mp4"; "a1.mp4"]) ["srv"; "uploads"; "a"] "a1"
  = Ok ["srv"; "uploads"; "a"; "a10.mp4"].
Proof.
  refine (findFileById_first_match (listing ["b7.mp4"; "a10.mp4"; "a1.mp4"])
            ["srv"; "uploads"; "a"] "a1" "a10.mp4" ["b7.mp4"] ["a1.mp4"]
            eq_refl _ eq_refl).
  repeat constructor.
Defined.

Lemma findFileById_throws_iff (env : Env) (dir : path) (id : string)
    (files : list string) :
  readdirSync env dir = Ok files →
  (findFileById env dir id = Throw ("File not found for ID: " ++ id)
   ↔ Forall (fun f => String.prefix id f = false) files).
Proof.
  intros Hd. unfold findFileById. rewrite Hd. rewrite <- find_none_iff.
  destruct (List.find (String.prefix id) files).
  - split; discriminate.
  - split; reflexivity.
Qed.

(** X2.  When the directory can be listed, [findFileById] throws
    "File not found for ID: <id>" exactly when no listed name starts with
    the identifier. *)
Theorem findFileById_not_found (env : Env) (dir : path) (id : string)
    (files : list string) :
  readdirSync env dir = Ok files →
  (findFileById env dir id = Throw ("File not found for ID: " ++ id)
   ↔ Forall (fun f => String.prefix id f = false) files).
Proof.
  intros Hd. unfold findFileById. rewrite Hd. rewrite <- find_none_iff.
  destruct (List.find (String.prefix id) files).
  - split; discriminate.
  - split; reflexivity.
Qed.

Lemma findFileById_not_found_witness :
  findFileById steady_world (uploadsADir steady_world) "c1"
  = Throw "File not found for ID: c1".
Proof.
  apply (findFileById_not_found steady_world (uploadsADir steady_world) "c1"
           ["a1.mp4"; "a2.mp4"; "b1.mp4"; "b2.mp4"] eq_refl).
  repeat constructor.
Defined.

(** X3.  Files are stored as id.ext with identifiers of one length (the
    uploads name them by a UUID).  In a directory of such files with
    pairwise distinct identifiers, [findFileById] returns the file of the
    identifier asked for, wherever it stands in the listing. *)
Theorem findFileById_unambiguous (env : Env) (dir : path)
    (entries : list (string * string)) (id ext : string) :
  readdirSync env dir = Ok (map (fun e => fst e ++ snd e) entries) →
  Forall (fun e => String.length (fst e) = String.length id) entries →
  NoDup (map fst entries) →
  (id, ext) ∈ entries →
  findFileById env dir id = Ok (join dir (id ++ ext)).
Proof.
  intros Hd Hl Hn Hin. unfold findFileById. rewrite Hd. clear Hd.
  induction entries as [|[u e] entries IH]; [inversion Hin|].
  simpl. inversion Hl as [|? ? Hu Hl']; subst.
  inversion Hn as [|? ? Hnu Hn']; subst. simpl in Hu.
  destruct (String.prefix id (u ++ e)) eqn:Hp.
  - apply prefix_same_length in Hp; [|exact Hu]. subst u.
    apply elem_of_cons in Hin as [[= <-]|Hin]; [reflexivity|].
    exfalso. apply Hnu. apply list_elem_of_In in Hin.
    apply (in_map fst) in Hin. apply list_elem_of_In. exact Hin.
  - apply elem_of_cons in Hin as [[= <- <-]|Hin].
    + rewrite prefix_app in Hp. discriminate.
    + apply IH; assumption.
Qed.

Lemma findFileById_unambiguous_witness :
  findFileById (listing ["c3d4.mov"; "a1b2.mp4"]) ["srv"; "uploads"; "a"] "a1b2"
  = Ok ["srv"; "uploads"; "a"; "a1b2.mp4"].
Proof.
  refine (findFileById_unambiguous (listing ["c3d4.mov"; "a1b2.mp4"])
            ["srv"; "uploads"; "a"] [("c3d4", ".mov"); ("a1b2", ".mp4")]
            "a1b2" ".mp4" eq_refl _ _ _).
  - repeat constructor.
  - repeat (constructor;
      [rewrite ?elem_of_cons, ?elem_of_nil; intuition discriminate|]).
    constructor.
  - apply elem_of_cons. right. apply elem_of_cons. left. reflexivity.
Defined.

(** ** The registry around a job *)

Lemma keyed_writes_of (jobId : string) (t c : nat) (ps : list number) :
  Forall (fun w => fst w = jobId) (writes_of jobId t c ps).
Proof.
  unfold writes_of. induction ps; simpl; constructor; auto.
Qed.

Lemma keyed_loop_writes (jobId : string) (t : nat) (pss : list (list number)) :
  ∀ c, Forall (fun w => fst w = jobId) (loop_writes jobId t c pss).
Proof.
  induction pss as [|ps pss IH]; intros c; simpl.
  - apply Forall_nil_2.
  - apply Forall_app. split; [apply keyed_writes_of|].
    constructor; [reflexivity | apply IH].
Qed.

Lemma apply_writes_other (jobId other : string) (ws : list (string * Job))
    (m : gmap string Job) :
  Forall (fun w => fst w = jobId) ws → other ≠ jobId →
  apply_writes ws m !! other = m !! other.
Proof.
  intros Hk Hne. revert m.
  induction Hk as [|[j job] ws Hj _ IH]; intros m; simpl.
  - reflexivity.
  - change (fold_left _ ws ?x) with (apply_writes ws x). rewrite IH.
    simpl in Hj. subst j. apply lookup_insert_ne. congruence.
Qed.

Lemma outcome_keyed {A} env C jobId (t k : nat) (st st' : State) (r : result A) :
  outcome env C jobId t st r st' k →
  ∃ ws, Forall (fun w => fst w = jobId) ws ∧ jobs st' = apply_writes ws (jobs st).
Proof.
  destruct r; simpl.
  - intros (pss & ps & cmds & _ & _ & _ & _ & [_ Hj _] & _).
    eexists. split; [|exact Hj].
    apply Forall_app. split; [apply keyed_loop_writes|].
    apply Forall_app. split; [apply keyed_writes_of|].
    constructor; [reflexivity | apply Forall_nil_2].
  - intros (pss & ps & cmds & _ & _ & _ & [_ Hj _] & _).
    eexists. split; [|exact Hj].
    apply Forall_app. split; [apply keyed_loop_writes | apply keyed_writes_of].
Qed.

Lemma run_job_other (env : Env) (jobId other : string) (order : Order)
    (config : Config) (st : State) :
  other ≠ jobId →
  jobs (run_job env jobId order config st) !! other = jobs st !! other.
Proof.
  intros Hne. rewrite run_job_eq.
  destruct (try_block env jobId order config (set_completedSteps 0 st))
    as [r st1] eqn:E.
  destruct (try_block_outcome _ _ _ _ _ _ _ E) as (k & _ & Ho).
  apply outcome_keyed in Ho as (ws & Hk & Hj). simpl in Hj.
  assert (H1 : jobs st1 !! other = jobs st !! other).
  { rewrite Hj. apply apply_writes_other with (jobId := jobId); assumption. }
  destruct r as [[]|e]; [exact H1|].
  simpl. rewrite !lookup_insert_ne by congruence. exact H1.
Qed.



(** X5.  When the run of a job is over, its record is final: either
    progress 100 with status done, and then the download serves the final
    file if it can be read, or progress 0 with status error and the
    message of what was thrown, and then the download is refused. *)
Theorem run_job_terminal (env : Env) (jobId : string) (order : Order)
    (config : Config) (st : State) :
  let st' := run_job env jobId order config st in
  (get_status jobId st' = JobStatus (mkJob (JS.of_Z 100) done None)
   ∧ get_download env jobId st'
     = if access env (finalPath env)
       then Download (finalPath env) "final.mp4"
       else NotFound "File not found")
  ∨ (∃ e,
       get_status jobId st' = JobStatus (mkJob (JS.of_Z 0) error (Some e))
       ∧ get_download env jobId st'
         = NotReady "Video not ready" error (JS.of_Z 0)).
Proof.
  intros st'. subst st'. unfold get_status, get_download.
  rewrite run_job_eq.
  destruct (try_block env jobId order config (set_completedSteps 0 st))
    as [r st1] eqn:E.
  destruct (try_block_outcome _ _ _ _ _ _ _ E) as (k & _ & Ho).
  destruct r as [[]|e]; simpl in Ho.
  - left. destruct Ho as (pss & ps & cmds & _ & _ & _ & _ & [_ Hj _] & _).
    rewrite Hj, !app_assoc. unfold done_write.
    rewrite apply_writes_last. auto.
  - right. exists e. simpl. rewrite lookup_insert_eq. auto.
Qed.

(** X6.  A request [POST /process] accepts leaves the job pending: its
    status reads progress 0 and processing, its download is refused as
    not ready, and the records of the other jobs are as before. *)
Theorem accepted_job_pending (env : Env) (uuid jobId : string)
    (videoOrder : Order) (config : option Config) (st : State) :
  response (post_process env uuid videoOrder config st) = Accepted jobId →
  let st' := answered_in (post_process env uuid videoOrder config st) in
  jobId = uuid
  ∧ get_status jobId st' = JobStatus (mkJob (JS.of_Z 0) processing None)
  ∧ get_download env jobId st'
    = NotReady "Video not ready" processing (JS.of_Z 0)
  ∧ (∀ other, other ≠ jobId →
       get_status other st' = get_status other st
       ∧ get_download env other st' = get_download env other st).
Proof.
  unfold post_process.
  destruct (_ || _)%bool; [discriminate|].
  destruct (_ && _)%bool; [discriminate|].
  simpl. intros [= <-]. unfold get_status, get_download. simpl.
  rewrite lookup_insert_eq. repeat split; try reflexivity.
  all: rewrite lookup_insert_ne by congruence; reflexivity.
Qed.

Lemma accepted_job_pending_witness :
  get_status "job" (accepted steady_world two_pairs empty_config)
  = JobStatus (mkJob (JS.of_Z 0) processing None)
  ∧ get_download steady_world "job" (accepted steady_world two_pairs empty_config)
    = NotReady "Video not ready" processing (JS.of_Z 0).
Proof.
  destruct (accepted_job_pending steady_world "job" "job" two_pairs
              (Some empty_config) (init_state ∅) eq_refl)
    as (_ & H1 & H2 & _).
  split; [exact H1 | exact H2].
Defined.

(** ** A missing file *)

Lemma find_all_missing (env : Env) (dir : path) (files ids : list string)
    (id : string) :
  readdirSync env dir = Ok files →
  id ∈ ids →
  Forall (fun f => String.prefix id f = false) files →
  ∃ id', id' ∈ ids
         ∧ find_all env dir ids = Throw ("File not found for ID: " ++ id').
Proof.
  intros Hd Hin Hf. induction ids as [|i ids IH]; [inversion Hin|].
  simpl. destruct (findFileById env dir i) as [p|m] eqn:Ei.
  - assert (Hin' : id ∈ ids).
    { apply elem_of_cons in Hin as [->|Hin]; [|exact Hin].
      apply (findFileById_throws_iff env dir i files Hd) in Hf.
      congruence. }
    destruct (IH Hin') as (id' & Hi & ->).
    exists id'. split; [apply elem_of_cons; auto | reflexivity].
  - exists i. split; [apply elem_of_cons; auto|].
    unfold findFileById in Ei. rewrite Hd in Ei.
    destruct (List.find _ files); [discriminate|]. injection Ei as <-. reflexivity.
Qed.

(** X7.  In the concatenate-first pipeline the files of camera A are all
    looked up before anything is encoded: when one identifier of camera A
    has no file, the run hands no command to the tool, writes the error
    record with progress 0 and throws "File not found for ID: <id>" for
    the first such identifier. *)
Theorem missing_file_starts_nothing (env : Env) (jobId : string)
    (order : Order) (config : Config) (st : State) (files : list string)
    (id : string) :
  readdirSync env (uploadsADir env) = Ok files →
  id ∈ order_a order →
  Forall (fun f => String.prefix id f = false) files →
  ∃ id',
    id' ∈ order_a order
    ∧ processVideosConcatenateFirst env jobId order config st
      = (Throw ("File not found for ID: " ++ id'),
         jobs_set jobId
           (mkJob (JS.of_Z 0) error (Some ("File not found for ID: " ++ id')))
           (set_completedSteps 0 st)).
Proof.
  intros Hd Hin Hf.
  destruct (find_all_missing env _ files _ id Hd Hin Hf) as (id' & Hi & Hm).
  exists id'. split; [exact Hi|].
  unfold processVideosConcatenateFirst. rewrite guarded_run.
  unfold processVideosConcatenateFirst_try, concatenate_camera.
  rewrite !bind_eq. unfold lift at 1. rewrite Hm.
  simpl completedSteps.
  rewrite (stepProgress_Z 0 totalSteps_concatenateFirst)
    by (unfold totalSteps_concatenateFirst; lia).
  reflexivity.
Qed.

Lemma missing_file_starts_nothing_witness :
  ran (snd (processVideosConcatenateFirst steady_world "job"
              (mkOrder ["a1"; "c9"] ["b1"]) empty_config (init_state ∅)))
  = [].
Proof.
  destruct (missing_file_starts_nothing steady_world "job"
              (mkOrder ["a1"; "c9"] ["b1"]) empty_config (init_state ∅)
              ["a1.mp4"; "a2.mp4"; "b1.mp4"; "b2.mp4"] "c9" eq_refl)
    as (id' & _ & H).
  - apply elem_of_cons. right. apply elem_of_cons. left. reflexivity.
  - repeat constructor.
  - rewrite H. reflexivity.
Defined.

(** ** The files of a run *)

Lemma split_plain (sep : ascii) (s : string) :
  string_forall (fun c => negb (Ascii.eqb c sep)) s = true → split sep s = [s].
Proof.
  induction s as [|c r IH]; simpl; [reflexivity|].
  intros H. apply andb_prop in H as [Hc Hr].
  apply negb_true_iff in Hc. rewrite Hc, (IH Hr). reflexivity.
Qed.

(** Joining one plain segment appends it. *)
Lemma join_plain (base : path) (seg : string) :
  string_forall no_slash seg = true →
  seg ≠ "" → seg ≠ "." → seg ≠ ".." →
  join base seg = (base ++ [seg])%list.
Proof.
  intros Hs H0 H1 H2. unfold join.
  rewrite (split_plain "/" seg Hs). simpl. unfold join_segment.
  rewrite !(proj2 (String.eqb_neq _ _)) by assumption. reflexivity.
Qed.

Lemma pretty_N_char_no_slash (x : N) : no_slash (pretty_N_char x) = true.
Proof.
  unfold pretty_N_char.
  repeat match goal with
         | |- context [match ?p with _ => _ end] => destruct p
         end; reflexivity.
Qed.

Lemma pretty_N_go_no_slash (x : N) :
  ∀ s, string_forall no_slash s = true →
       string_forall no_slash (pretty_N_go x s) = true.
Proof.
  induction (N.lt_wf_0 x) as [x _ IH]. intros s Hs.
  destruct (N.eq_dec x 0%N) as [->|Hx].
  - rewrite pretty_N_go_0. exact Hs.
  - rewrite pretty_N_go_step by lia. apply IH.
    + apply N.div_lt; lia.
    + simpl. rewrite pretty_N_char_no_slash. exact Hs.
Qed.

Lemma pretty_nat_no_slash (n : nat) : string_forall no_slash (pretty n) = true.
Proof.
  unfold pretty, pretty_nat, pretty, pretty_N.
  destruct (decide (N.of_nat n = 0%N)); [reflexivity|].
  apply pretty_N_go_no_slash. reflexivity.
Qed.

Lemma pair_file_no_slash (i : nat) : string_forall no_slash (pair_file i) = true.
Proof.
  unfold pair_file. rewrite !string_forall_app, pretty_nat_no_slash. reflexivity.
Qed.

Lemma length_append (s t : string) :
  String.length (s ++ t) = (String.length s + String.length t)%nat.
Proof.
  induction s as [|c s IH]; [reflexivity|].
  rewrite append_cons. simpl. rewrite IH. reflexivity.
Qed.

Lemma append_inv_tail (s s' t : string) : s ++ t = s' ++ t → s = s'.
Proof.
  revert s'. induction s as [|c s IH]; intros [|d s'] H.
  - reflexivity.
  - apply (f_equal String.length) in H.
    rewrite append_nil, append_cons in H. simpl in H.
    rewrite length_append in H. lia.
  - apply (f_equal String.length) in H.
    rewrite append_nil, append_cons in H. simpl in H.
    rewrite length_append in H. lia.
  - rewrite !append_cons in H. injection H as -> H.
    f_equal. apply IH. exact H.
Qed.

Lemma pair_file_inj (i j : nat) : pair_file i = pair_file j → i = j.
Proof.
  unfold pair_file. intros H.
  apply (String.app_inj "pair_") in H. apply append_inv_tail in H.
  apply pretty_nat_inj in H. lia.
Qed.

Lemma join_pair_file (base : path) (i : nat) :
  join base (pair_file i) = (base ++ [pair_file i])%list.
Proof.
  apply join_plain; [apply pair_file_no_slash | discriminate ..].
Qed.

Lemma pretty_N_no_slash (x : N) : string_forall no_slash (pretty x) = true.
Proof.
  unfold pretty, pretty_N.
  destruct (decide (x = 0%N)); [reflexivity|].
  apply pretty_N_go_no_slash. reflexivity.
Qed.

(** The file list is an entry of the temporary directory. *)
Lemma tempListPath_plain (env : Env) :
  tempListPath env
  = (tmpdir env
     ++ [("ffmpeg-concat-" ++ pretty (Date_now env) ++ ".txt")%string])%list.
Proof.
  unfold tempListPath. apply join_plain; [|discriminate ..].
  rewrite !string_forall_app, pretty_N_no_slash. reflexivity.
Qed.

(** X8.  The files of a run never collide: the six intermediate and
    final files are distinct entries of the output directory, the output
    of the pair of index i is the entry pair_<i+1>.mp4 of its
    subdirectory pairs, distinct pairs have distinct outputs, and neither
    an output of a pair nor the file list of a concatenation is one of
    the six files. *)
Theorem outputs_never_collide (env : Env) :
  NoDup (artifacts env)
  ∧ Forall (fun p => ∃ name, p = (outputDir env ++ [name])%list) (artifacts env)
  ∧ (∀ i : nat,
       join (pairsDir env) (pair_file i)
       = (outputDir env ++ ["pairs"; pair_file i])%list)
  ∧ (∀ i j : nat,
       join (pairsDir env) (pair_file i) = join (pairsDir env) (pair_file j) →
       i = j)
  ∧ (∀ i : nat, join (pairsDir env) (pair_file i) ∉ artifacts env)
  ∧ tempListPath env ∉ artifacts env.
Proof.
  assert (Hj : ∀ i, join (pairsDir env) (pair_file i)
                    = (outputDir env ++ ["pairs"; pair_file i])%list).
  { intros i. rewrite join_pair_file. unfold pairsDir.
    rewrite join_plain by (reflexivity || discriminate).
    rewrite <- app_assoc. reflexivity. }
  assert (Ha : artifacts env
               = map (fun name => (outputDir env ++ [name])%list)
                   ["concat_a.mp4"; "concat_b.mp4"; "concat_a_padded.mp4";
                    "concat_b_padded.mp4"; "combined.mp4"; "final.mp4"]).
  { unfold artifacts, concatAPath, concatBPath, paddedAPath, paddedBPath,
      combinedPath, finalPath.
    rewrite !join_plain by (reflexivity || discriminate). reflexivity. }
  split; [|split; [|split; [|split; [|split]]]].
  - rewrite Ha. apply NoDup_fmap_2.
    + intros x y H. apply app_inv_head in H. congruence.
    + repeat (constructor;
        [rewrite ?elem_of_cons, ?elem_of_nil; intuition discriminate|]).
      constructor.
  - rewrite Ha. apply Forall_forall. intros p Hp.
    apply list_elem_of_fmap in Hp as (name & -> & _). eauto.
  - exact Hj.
  - intros i j H. rewrite !Hj in H. apply app_inv_head in H.
    apply pair_file_inj. congruence.
  - intros i Hin. rewrite Hj, Ha in Hin.
    apply list_elem_of_fmap in Hin as (name & H & _).
    apply app_inv_head in H. discriminate.
  - intros Hin. rewrite tempListPath_plain, Ha in Hin.
    apply list_elem_of_fmap in Hin as (name & H & Hn).
    apply app_inj_tail in H as [_ H].
    change ("ffmpeg-concat-" ++ pretty (Date_now env) ++ ".txt")
      with (String "f" (String "f"
              ("mpeg-concat-" ++ pretty (Date_now env) ++ ".txt"))) in H.
    rewrite !elem_of_cons, elem_of_nil in Hn.
    destruct Hn as [->|[->|[->|[->|[->|[->|[]]]]]]]; discriminate.
Qed.

(** ** The commands of a successful pair-by-pair run *)

Lemma combine_pair_at_ok (env : Env) (jobId : string) (order : Order) (i : nat)
    (pairPaths pairPaths' : list path) (st st' : State) :
  combine_pair_at env jobId order i pairPaths st = (Ok pairPaths', st') →
  pairPaths' = (pairPaths ++ [join (pairsDir env) (pair_file i)])%list
  ∧ ∃ cmd, pair_command env order i cmd ∧ ran st' = (ran st ++ [cmd])%list.
Proof.
  unfold combine_pair_at. intros H.
  apply bind_Ok in H as (pa & s1 & Ha & H).
  apply bind_Ok in H as (pb & s2 & Hb & H).
  apply bind_Ok in H as ([] & s3 & Hc & H).
  unfold lift in Ha, Hb. injection Ha as Ha <-. injection Hb as Hb <-.
  destruct (combinePair_spec env pa pb
              (join (pairsDir env) ("pair_" ++ pretty (i + 1)%nat ++ ".mp4"))
              empty_config jobId (totalSteps_pairwise order) st)
    as (s3' & Hr & [_ _ Er] & _).
  rewrite Hr in Hc. injection Hc as _ <-.
  unfold increment, record_step, modify, ret in H. rewrite !bind_eq in H.
  injection H as <- <-. split; [reflexivity|].
  eexists. split; [|exact Er].
  exists pa, pb. auto.
Qed.

Lemma combine_pairs_ok (env : Env) (jobId : string) (order : Order)
    (indices : list nat) :
  ∀ (pairPaths pairPaths' : list path) (st st' : State),
    combine_pairs env jobId order indices pairPaths st = (Ok pairPaths', st') →
    pairPaths'
    = (pairPaths ++ map (fun i => join (pairsDir env) (pair_file i)) indices)%list
    ∧ ∃ cmds, Forall2 (pair_command env order) indices cmds
              ∧ ran st' = (ran st ++ cmds)%list.
Proof.
  induction indices as [|i indices IH]; intros pp pp' st st' H; simpl in H.
  - unfold ret in H. injection H as <- <-. rewrite !app_nil_r.
    split; [reflexivity|]. exists []. split; [constructor|].
    rewrite app_nil_r. reflexivity.
  - apply bind_Ok in H as (pp1 & s1 & H1 & H).
    apply combine_pair_at_ok in H1 as (-> & cmd & Hc & R1).
    apply IH in H as (-> & cmds & Hcs & R2).
    split; [simpl; rewrite <- app_assoc; reflexivity|].
    exists (cmd :: cmds). split; [constructor; assumption|].
    rewrite R2, R1, <- app_assoc. reflexivity.
Qed.

(** X9.  A successful pair-by-pair run hands the tool, in this order:
    for each index i from 0, the command that combines the file of the
    i-th identifier of camera A with the file of the i-th identifier of
    camera B into pairs/pair_<i+1>.mp4; then the concatenation by stream
    copy into combined.mp4; then the compression of combined.mp4 into
    final.mp4.  Nothing else is run. *)
Theorem pairwise_commands (env : Env) (jobId : string) (order : Order)
    (config : Config) (st st' : State) :
  processVideos env jobId order config st = (Ok tt, st') →
  ∃ cmds,
    Forall2 (pair_command env order) (seq 0 (length (order_a order))) cmds
    ∧ ran st'
      = (ran st ++ cmds
         ++ [ concatenateVideos_command (tempListPath env) (combinedPath env) false;
              compressVideo_command (combinedPath env) (finalPath env) config ])%list.
Proof.
  intros H. apply guarded_inv in H as (r1 & st1 & H1 & Hr & Hok).
  destruct (Hok tt eq_refl) as [-> ->]. clear Hok Hr.
  apply pairwise_success in H1 as (pp & s1 & s2 & E1 & E2 & E3).
  apply combine_pairs_ok in E1 as (_ & cmds & Hc & R1). simpl in R1.
  apply concatenate_pairs_ran in E2. apply compress_final_ran in E3.
  exists cmds. split; [exact Hc|].
  rewrite E3, E2, R1, <- !app_assoc. reflexivity.
Qed.

(** Two pairs in the steady world: the two combinations, the
    concatenation and the compression. *)
Lemma pairwise_commands_witness :
  ∃ cmds,
    Forall2 (pair_command steady_world two_pairs) [0; 1]%nat cmds
    ∧ ran (snd (processVideos steady_world "job" two_pairs empty_config
                  (init_state ∅)))
      = (cmds
         ++ [ concatenateVideos_command (tempListPath steady_world)
                (combinedPath steady_world) false;
              compressVideo_command (combinedPath steady_world)
                (finalPath steady_world) empty_config ])%list.
Proof.
  destruct (processVideos steady_world "job" two_pairs empty_config
              (init_state ∅)) as [r st'] eqn:E.
  assert (Hr : r = Ok tt).
  { assert (Hf : fst (processVideos steady_world "job" two_pairs empty_config
                        (init_state ∅)) = Ok tt) by (vm_compute; reflexivity).
    rewrite E in Hf. exact Hf. }
  subst r.
  destruct (pairwise_commands steady_world "job" two_pairs empty_config
              (init_state ∅) st' E) as (cmds & Hc & Hran).
  exists cmds. split; [exact Hc | exact Hran].
Defined.

(** ** Setting the order *)

(** X10.  [POST /order] stores any two arrays, whatever their lengths,
    and answers with the count of the first; the lengths are only looked
    at by [POST /process].  So an order with an empty array is stored and
    reported as set, and [POST /process] then answers that no order is
    set. *)
Theorem order_then_process (body : gmap string Json) (a b : list string)
    (videoOrder : Order) :
  body !! "a" = Some (JArray a) → body !! "b" = Some (JArray b) →
  post_order (Some body) videoOrder
  = (OrderSet ("Order set successfully with " ++ pretty (length a) ++ " pairs")
       (mkOrder a b),
     mkOrder a b)
  ∧ (a = [] ∨ b = [] →
     ∀ (env : Env) (uuid : string) (config : option Config) (st : State),
       post_process env uuid (snd (post_order (Some body) videoOrder)) config st
       = mkAnswer (BadRequest "No video order set. Call POST /order first") st None).
Proof.
  intros Ha Hb. unfold post_order. rewrite Ha, Hb. simpl.
  split; [reflexivity|].
  intros H env uuid config st. unfold post_process. simpl.
  destruct H as [-> | ->]; simpl; [reflexivity|].
  rewrite orb_true_r. reflexivity.
Qed.

Lemma order_then_process_witness :
  fst (post_order (Some {[ "a" := JArray ["a1"; "a2"]; "b" := JArray [] ]})
         (mkOrder [] []))
  = OrderSet "Order set successfully with 2 pairs" (mkOrder ["a1"; "a2"] []).
Proof.
  destruct (order_then_process {[ "a" := JArray ["a1"; "a2"]; "b" := JArray [] ]}
              ["a1"; "a2"] [] (mkOrder [] [])) as [H _].
  - apply lookup_insert_eq.
  - rewrite lookup_insert_ne by discriminate. apply lookup_singleton_eq.
  - rewrite H. reflexivity.
Defined.

(** X11.  The body the client's [setOrder] sends has the keys orderA and
    orderB, where [POST /order] reads a and b: whatever the two orders
    are, the handler answers 400 and the stored order stays as it was. *)
Theorem setOrder_rejected (orderA orderB : list string) (videoOrder : Order) :
  post_order (Some (setOrder_body orderA orderB)) videoOrder
  = (OrderInvalid "Invalid order format. Expected { a: [], b: [] }", videoOrder).
Proof.
  unfold post_order, setOrder_body.
  rewrite lookup_insert_ne by discriminate.
  rewrite lookup_singleton_ne by discriminate. reflexivity.
Qed.

(** ** Reordering by drag and drop *)

Lemma handleItemDrop_eq {File : Type} (undefined : File) (files : list File)
    (i j : nat) (x : File) :
  files !! i = Some x → i ≠ j →
  handleItemDrop undefined files (Some i) j
  = Some (splice_insert j x (splice_delete i files)).
Proof.
  intros Hx Hij. unfold handleItemDrop.
  rewrite (proj2 (Nat.eqb_neq i j) Hij).
  rewrite (nth_lookup_Some _ _ _ _ Hx). reflexivity.
Qed.

Lemma splice_delete_perm {File : Type} (files : list File) (i : nat) (x : File) :
  files !! i = Some x → x :: splice_delete i files ≡ₚ files.
Proof.
  intros Hx. unfold splice_delete.
  rewrite <- (take_drop_middle files i x Hx) at 3.
  apply Permutation_middle.
Qed.

Lemma splice_insert_perm {File : Type} (l : list File) (j : nat) (x : File) :
  splice_insert j x l ≡ₚ x :: l.
Proof.
  unfold splice_insert. rewrite <- Permutation_middle, take_drop. reflexivity.
Qed.

(** X12.  Dropping a dragged item reorders the list and nothing else:
    the list handed to [onFilesChange] is a permutation of the files, so
    no file is lost or doubled, wherever the item is dropped. *)
Theorem handleItemDrop_permutation {File : Type} (undefined : File)
    (files newFiles : list File) (draggedIndex dropIndex : nat) :
  (draggedIndex < length files)%nat →
  handleItemDrop undefined files (Some draggedIndex) dropIndex = Some newFiles →
  newFiles ≡ₚ files.
Proof.
  intros Hi H. destruct (lookup_lt_is_Some_2 files draggedIndex Hi) as [x Hx].
  destruct (Nat.eq_dec draggedIndex dropIndex) as [->|Hne].
  { unfold handleItemDrop in H. rewrite Nat.eqb_refl in H. discriminate. }
  rewrite (handleItemDrop_eq undefined files _ _ x Hx Hne) in H.
  injection H as <-.
  rewrite splice_insert_perm. apply splice_delete_perm. exact Hx.
Qed.

Lemma handleItemDrop_permutation_witness :
  ["b"; "c"; "a"; "d"] ≡ₚ ["a"; "b"; "c"; "d"].
Proof.
  apply (handleItemDrop_permutation "undefined" ["a"; "b"; "c"; "d"]
           ["b"; "c"; "a"; "d"] 0 2).
  - simpl. lia.
  - reflexivity.
Defined.

(** X13.  When both indices are within the list and differ, the dragged
    item lands at the index it is dropped on, and the other files keep
    their relative order: taking the item out of the new list gives what
    taking it out of the old list gives. *)
Theorem handleItemDrop_lands {File : Type} (undefined : File)
    (files : list File) (draggedIndex dropIndex : nat) :
  (draggedIndex < length files)%nat → (dropIndex < length files)%nat →
  draggedIndex ≠ dropIndex →
  ∃ newFiles,
    handleItemDrop undefined files (Some draggedIndex) dropIndex = Some newFiles
    ∧ newFiles !! dropIndex = files !! draggedIndex
    ∧ splice_delete dropIndex newFiles = splice_delete draggedIndex files.
Proof.
  intros Hi Hj Hne.
  destruct (lookup_lt_is_Some_2 files draggedIndex Hi) as [x Hx].
  rewrite (handleItemDrop_eq undefined files _ _ x Hx Hne).
  eexists. split; [reflexivity|].
  set (rest := splice_delete draggedIndex files).
  assert (Hl : (dropIndex ≤ length rest)%nat).
  { subst rest. unfold splice_delete.
    rewrite length_app, length_take, length_drop. lia. }
  assert (Ht : length (take dropIndex rest) = dropIndex)
    by (rewrite length_take; lia).
  unfold splice_insert. split.
  - rewrite Hx. apply list_lookup_middle. symmetry. exact Ht.
  - unfold splice_delete at 1.
    rewrite take_app_length' by (symmetry; exact Ht).
    rewrite cons_middle, app_assoc.
    rewrite (drop_app_length' _ _ (S dropIndex))
      by (rewrite length_app; simpl; lia).
    apply take_drop.
Qed.

Lemma handleItemDrop_lands_witness :
  ∃ newFiles,
    handleItemDrop "undefined" ["a"; "b"; "c"; "d"] (Some 3%nat) 1 = Some newFiles
    ∧ newFiles !! 1%nat = Some "d"
    ∧ splice_delete 1 newFiles = ["a"; "b"; "c"].
Proof.
  destruct (handleItemDrop_lands "undefined" ["a"; "b"; "c"; "d"] 3 1)
    as (newFiles & H1 & H2 & H3); [simpl; lia | simpl; lia | lia |].
  exists newFiles. split; [exact H1|]. split; [exact H2 | exact H3].
Defined.

(** ** Scaling *)

Lemma compress_final_falsy (env : Env) (jobId : string) (config : Config)
    (w : number) (t : nat) :
  JS.truthy w = false →
  compress_final env jobId (with_maxWidth config (Some w)) t
  = compress_final env jobId (with_maxWidth config None) t.
Proof.
  intros Hw. unfold compress_final, compressVideo.
  replace (compressVideo_command (combinedPath env) (finalPath env)
             (with_maxWidth config (Some w)))
    with (compressVideo_command (combinedPath env) (finalPath env)
            (with_maxWidth config None)); [reflexivity|].
  unfold compressVideo_command, with_maxWidth. simpl. rewrite Hw. reflexivity.
Qed.

(** X14.  A [maxWidth] that is falsy (0 or NaN) is the same as none: the
    compression and the side-by-side combination build the commands they
    build without a [maxWidth], which scale nothing, and the whole run of
    a job is the run of the job without a [maxWidth]. *)
Theorem falsy_maxWidth_is_absent (config : Config) (w : number)
    (videoA videoB input out : path) :
  JS.truthy w = false →
  compressVideo_command input out (with_maxWidth config (Some w))
  = compressVideo_command input out (with_maxWidth config None)
  ∧ video_filters (compressVideo_command input out (with_maxWidth config (Some w)))
    = []
  ∧ combinePair_command videoA videoB out (with_maxWidth config (Some w))
    = combinePair_command videoA videoB out (with_maxWidth config None)
  ∧ (∀ (env : Env) (jobId : string) (order : Order) (st : State),
       run_job env jobId order (with_maxWidth config (Some w)) st
       = run_job env jobId order (with_maxWidth config None) st).
Proof.
  intros Hw. split; [|split; [|split]].
  - unfold compressVideo_command, with_maxWidth. simpl. rewrite Hw. reflexivity.
  - unfold compressVideo_command, with_maxWidth. simpl. rewrite Hw. reflexivity.
  - unfold combinePair_command, with_maxWidth. simpl. rewrite Hw. reflexivity.
  - intros env jobId order st. unfold run_job.
    change (concatenateFirst (with_maxWidth config (Some w)))
      with (concatenateFirst config).
    change (concatenateFirst (with_maxWidth config None))
      with (concatenateFirst config).
    destruct (default false (concatenateFirst config)).
    + unfold processVideosConcatenateFirst, processVideosConcatenateFirst_try.
      rewrite (compress_final_falsy env jobId config w _ Hw). reflexivity.
    + unfold processVideos, processVideos_try.
      rewrite (compress_final_falsy env jobId config w _ Hw). reflexivity.
Qed.

Lemma falsy_maxWidth_is_absent_witness :
  compressVideo_command ["in.mp4"] ["out.mp4"]
    (with_maxWidth empty_config (Some JS.NaN))
  = compressVideo_command ["in.mp4"] ["out.mp4"] empty_config.
Proof.
  destruct (falsy_maxWidth_is_absent empty_config JS.NaN [] [] ["in.mp4"]
              ["out.mp4"] eq_refl) as [H _].
  exact H.
Defined.

(** ** The file list of a concatenation *)

Lemma split_app (sep : ascii) (a b : string) :
  string_forall (fun c => negb (Ascii.eqb c sep)) a = true →
  split sep (a ++ String sep b) = a :: split sep b.
Proof.
  induction a as [|c r IH]; intros H.
  - rewrite append_nil. simpl. rewrite Ascii.eqb_refl. reflexivity.
  - simpl in H. apply andb_prop in H as [Hc Hr].
    apply negb_true_iff in Hc. rewrite append_cons. simpl.
    rewrite Hc, (IH Hr). reflexivity.
Qed.

Lemma split_concat (sep : ascii) (parts : list string) :
  parts ≠ [] →
  Forall (fun s => string_forall (fun c => negb (Ascii.eqb c sep)) s = true) parts →
  split sep (String.concat (String sep "") parts) = parts.
Proof.
  intros Hne H. induction H as [|s parts Hs Hp IH]; [congruence|].
  destruct parts as [|s' parts].
  - simpl. apply split_plain. exact Hs.
  - change (String.concat (String sep "") (s :: s' :: parts))
      with (s ++ String sep "" ++ String.concat (String sep "") (s' :: parts)).
    rewrite append_cons, append_nil, (split_app sep s _ Hs), IH by discriminate.
    reflexivity.
Qed.

Lemma replace_all_forall (P : ascii → bool) (c : ascii) (by_ s : string) :
  string_forall P by_ = true → string_forall P s = true →
  string_forall P (replace_all c by_ s) = true.
Proof.
  intros Hb. induction s as [|d r IH]; simpl; [reflexivity|].
  intros H. apply andb_prop in H as [Hd Hr].
  destruct (Ascii.eqb d c).
  - rewrite string_forall_app, Hb, (IH Hr). reflexivity.
  - simpl. rewrite Hd, (IH Hr). reflexivity.
Qed.

Lemma replace_all_absent (c : ascii) (by_ s : string) :
  string_forall (fun d => negb (Ascii.eqb d c)) s = true →
  replace_all c by_ s = s.
Proof.
  induction s as [|d r IH]; simpl; [reflexivity|].
  intros H. apply andb_prop in H as [Hd Hr].
  apply negb_true_iff in Hd. rewrite Hd, (IH Hr). reflexivity.
Qed.

Lemma render_forall (P : ascii → bool) (p : path) :
  P "/"%char = true → Forall (fun seg => string_forall P seg = true) p →
  string_forall P (render p) = true.
Proof.
  intros Hs H. unfold render.
  induction H as [|seg p Hseg Hp IH]; [reflexivity|].
  assert (Hh : string_forall P ("/" ++ seg) = true).
  { change ("/" ++ seg) with (String "/" seg). simpl.
    rewrite Hs, Hseg. reflexivity. }
  destruct p as [|seg' p].
  - exact Hh.
  - change (String.concat "" (map (fun seg => "/" ++ seg) (seg :: seg' :: p)))
      with (("/" ++ seg) ++ ""
            ++ String.concat "" (map (fun seg => "/" ++ seg) (seg' :: p))).
    rewrite append_nil, string_forall_app, IH, Hh. reflexivity.
Qed.

(** X15.  The file list written for a concatenation has one line per
    input, in the order of the inputs, when no path holds a line feed:
    splitting the content at the line feeds gives back, for each input,
    the line file '<path>' with every quote of the path replaced by the
    four characters quote, backslash, quote, quote; a path without a quote
    stands there unchanged. *)
Theorem fileListContent_lines (inputPaths : list path) :
  inputPaths ≠ [] →
  Forall (path_free newline_char) inputPaths →
  split newline_char (fileListContent inputPaths) = map file_line inputPaths
  ∧ (∀ p, p ∈ inputPaths → path_free quote_char p →
          file_line p = "file '" ++ render p ++ "'").
Proof.
  intros Hne Hf. split.
  - unfold fileListContent.
    change newline with (String newline_char "").
    change (map _ inputPaths) with (map file_line inputPaths).
    apply split_concat.
    + destruct inputPaths; [congruence | discriminate].
    + apply Forall_forall. intros l Hl.
      apply list_elem_of_fmap in Hl as (p & -> & Hp).
      rewrite Forall_forall in Hf. specialize (Hf p Hp).
      unfold file_line. rewrite !string_forall_app.
      rewrite replace_all_forall; [reflexivity | reflexivity|].
      apply render_forall; [reflexivity | exact Hf].
  - intros p _ Hq. unfold file_line.
    rewrite replace_all_absent; [reflexivity|].
    apply render_forall; [reflexivity | exact Hq].
Qed.

Lemma fileListContent_lines_witness :
  split newline_char
    (fileListContent [["srv"; "output"; "pairs"; "pair_1.mp4"];
                      ["srv"; "it's"; "pair_2.mp4"]])
  = ["file '/srv/output/pairs/pair_1.mp4'"; "file '/srv/it'\''s/pair_2.mp4'"].
Proof.
  destruct (fileListContent_lines
              [["srv"; "output"; "pairs"; "pair_1.mp4"];
               ["srv"; "it's"; "pair_2.mp4"]]) as [H _].
  - discriminate.
  - repeat constructor.
  - rewrite H. reflexivity.
Defined.

(** ** The progress of a stage between two steps *)

(** X16.  With [c] steps of [t] completed, the progress a stage stores
    for a percent of 0..100 lies between the progress stored for [c]
    completed steps and the one stored for [c + 1]; at 0 percent it is
    the former, at 100 percent the latter. *)
Theorem stage_progress_bracket (c t : nat) (p : Z) :
  (0 < t)%nat → (0 ≤ p ≤ 100)%Z →
  overallProgress c t (JS.of_Z 0) = stepProgress c t
  ∧ overallProgress c t (JS.of_Z 100) = stepProgress (S c) t
  ∧ JS.lt (overallProgress c t (JS.of_Z p)) (stepProgress c t) = false
  ∧ JS.lt (stepProgress (S c) t) (overallProgress c t (JS.of_Z p)) = false.
Proof.
  intros Ht Hp.
  rewrite !overallProgress_Z, !stepProgress_Z by exact Ht.
  rewrite !lt_of_Z.
  assert (Hb : (0 < Z.of_nat t)%Z) by lia.
  split; [f_equal; f_equal; lia|].
  split; [f_equal; f_equal; lia|].
  split; apply bool_decide_eq_false; apply Z.le_ngt;
    apply round_div_mono; lia.
Qed.

Lemma stage_progress_bracket_witness :
  overallProgress 1 4 (JS.of_Z 100) = stepProgress 2 4.
Proof.
  destruct (stage_progress_bracket 1 4 50) as (_ & H & _); [lia | lia |].
  exact H.
Defined.

(** ** Status transitions *)

Lemma statuses_processing (ws : list (string * Job)) :
  Forall (fun w => status (snd w) = processing) ws →
  map (fun w => status (snd w)) ws = repeat processing (length ws).
Proof.
  intros H. induction H as [|w ws Hw _ IH]; simpl; [reflexivity|].
  rewrite Hw, IH. reflexivity.
Qed.

Lemma processing_writes_of (jobId : string) (t c : nat) (ps : list number) :
  Forall (fun w => status (snd w) = processing) (writes_of jobId t c ps).
Proof.
  unfold writes_of. induction ps; simpl; constructor; auto.
Qed.

Lemma processing_loop_writes (jobId : string) (t : nat) (pss : list (list number)) :
  ∀ c, Forall (fun w => status (snd w) = processing) (loop_writes jobId t c pss).
Proof.
  induction pss as [|ps pss IH]; intros c; simpl.
  - apply Forall_nil_2.
  - apply Forall_app. split; [apply processing_writes_of|].
    constructor; [reflexivity | apply IH].
Qed.

(** X17.  The statuses a run writes to the registry are a run of
    processing followed by a single done, or by error written twice (by
    the pipeline's catch and by the route's): a job goes from processing
    to done or from processing to error, and nothing is written after
    that. *)
Theorem status_transitions (env : Env) (jobId : string) (order : Order)
    (config : Config) (st : State) :
  ∃ (ws : list (string * Job)) (n : nat),
    history (run_job env jobId order config st) = (history st ++ ws)%list
    ∧ (map (fun w => status (snd w)) ws = (repeat processing n ++ [done])%list
       ∨ map (fun w => status (snd w)) ws
         = (repeat processing n ++ [error; error])%list).
Proof.
  rewrite run_job_eq.
  destruct (try_block env jobId order config (set_completedSteps 0 st))
    as [r st1] eqn:E.
  destruct (try_block_outcome _ _ _ _ _ _ _ E) as (k & _ & Ho).
  apply outcome_history in Ho as (pss & ps & _ & _ & Hh & _); [|reflexivity].
  simpl in Hh.
  assert (Hp : Forall (fun w => status (snd w) = processing)
                 (loop_writes jobId (totalSteps_of order config) 0 pss
                  ++ writes_of jobId (totalSteps_of order config) (length pss) ps)%list).
  { apply Forall_app. split;
      [apply processing_loop_writes | apply processing_writes_of]. }
  apply statuses_processing in Hp.
  set (ws := (loop_writes jobId (totalSteps_of order config) 0 pss
              ++ writes_of jobId (totalSteps_of order config) (length pss) ps)%list)
    in *.
  destruct r as [[]|e].
  - exists (ws ++ [done_write jobId])%list, (length ws). split.
    + rewrite Hh. subst ws. rewrite <- !app_assoc. reflexivity.
    + left. rewrite map_app, Hp. reflexivity.
  - exists (ws ++ error_writes jobId (totalSteps_of order config)
                    (completedSteps st1) e)%list, (length ws). split.
    + simpl. rewrite Hh, app_nil_r. subst ws. rewrite <- !app_assoc. reflexivity.
    + right. rewrite map_app, Hp. reflexivity.
Qed.

(** ** Orderly runs *)

Lemma Forall_removelast {A} (P : A → Prop) (l : list A) :
  Forall P l → Forall P (removelast l).
Proof.
  intros H. induction H as [|x l Hx Hl IH]; [constructor|].
  destruct l as [|y l]; [constructor|]. simpl.
  constructor; [exact Hx | exact IH].
Qed.

Lemma orderly_ret {A} (env : Env) (a : A) : orderly env (ret a).
Proof.
  intros st r st' [= <- <-]. exists []. rewrite app_nil_r.
  split; [reflexivity | constructor].
Qed.

Lemma orderly_lift {A} (env : Env) (x : result A) : orderly env (lift x).
Proof.
  intros st r st' [= <- <-]. exists []. rewrite app_nil_r.
  split; [reflexivity|]. destruct x; constructor.
Qed.

Lemma orderly_throw {A} (env : Env) (m : string) : orderly env (@throw A m).
Proof.
  intros st r st' [= <- <-]. exists []. rewrite app_nil_r.
  split; [reflexivity | constructor].
Qed.

Lemma orderly_modify (env : Env) (f : State → State) :
  (∀ st, ran (f st) = ran st) → orderly env (modify f).
Proof.
  intros Hf st r st' [= <- <-]. exists []. rewrite app_nil_r, Hf.
  split; [reflexivity | constructor].
Qed.

Lemma orderly_bind {A B} (env : Env) (m : Pipeline A) (k : A → Pipeline B) :
  orderly env m → (∀ a, orderly env (k a)) → orderly env (bind m k).
Proof.
  intros Hm Hk st r st'. rewrite bind_eq.
  destruct (m st) as [[a|e] s1] eqn:E.
  - intros H. destruct (Hm _ _ _ E) as (c1 & R1 & F1).
    destruct (Hk a _ _ _ H) as (c2 & R2 & F2).
    exists (c1 ++ c2)%list. split; [rewrite R2, R1, app_assoc; reflexivity|].
    destruct r.
    + apply Forall_app. auto.
    + destruct c2 as [|c c2].
      * rewrite app_nil_r. apply Forall_removelast. exact F1.
      * rewrite removelast_app by discriminate. apply Forall_app. auto.
  - intros [= <- <-]. exact (Hm _ _ _ E).
Qed.

Lemma orderly_guard (env : Env) (body : Pipeline unit) (jobId : string) (t : nat) :
  orderly env body →
  orderly env (modify (set_completedSteps 0) ;; try_catch body (on_error jobId t)).
Proof.
  intros Hb st r st'. rewrite guarded_run.
  destruct (body (set_completedSteps 0 st)) as [[a|e] s1] eqn:E;
    intros [= <- <-]; exact (Hb _ _ _ E).
Qed.

Lemma fold_ran (h : Progress → State → State) :
  (∀ ev s, ran (h ev s) = ran s) →
  ∀ (evs : list Progress) (st : State),
    ran (fold_left (fun s ev => h ev s) evs st) = ran st.
Proof.
  intros Hh evs. induction evs as [|ev evs IH]; intros st; simpl;
    [reflexivity|]. rewrite IH. apply Hh.
Qed.

Lemma orderly_run (env : Env) (cmd : Command) (h : Progress → State → State)
    (describe : string → string) :
  (∀ ev s, ran (h ev s) = ran s) → orderly env (run env cmd h describe).
Proof.
  intros Hh st r st'. unfold run.
  destruct (termination (run_tool env cmd)) eqn:T; intros [= <- <-];
    exists [cmd]; rewrite (fold_ran h Hh); (split; [reflexivity|]).
  - constructor; [exact T | constructor].
  - constructor.
Qed.

Lemma forward_percent_ran (sink : Sink) (ev : Progress) (s : State) :
  (∀ p s, ran (sink p s) = ran s) →
  ran (forward_percent (Some sink) ev s) = ran s.
Proof.
  intros Hs. unfold forward_percent.
  destruct (percent ev) as [p|]; [|reflexivity].
  destruct (JS.truthy p); [apply Hs | reflexivity].
Qed.

Lemma concat_on_progress_ran (sink : Sink) (total : number) (ev : Progress)
    (s : State) :
  (∀ p s, ran (sink p s) = ran s) →
  ran (concat_on_progress (Some sink) total ev s) = ran s.
Proof.
  intros Hs. unfold concat_on_progress.
  destruct (concat_percent total ev); [apply Hs | reflexivity].
Qed.

Lemma orderly_concatenateVideos (env : Env) (inputPaths : list path) (out : path)
    (sink : Sink) (reencode : bool) :
  (∀ p s, ran (sink p s) = ran s) →
  orderly env (concatenateVideos env inputPaths out (Some sink) reencode).
Proof.
  intros Hs. unfold concatenateVideos.
  destruct inputPaths as [|p ps]; [apply orderly_throw|].
  destruct (writeFile env _ _); [apply orderly_throw|].
  apply orderly_run. intros ev s. apply concat_on_progress_ran. exact Hs.
Qed.

Lemma orderly_stage (env : Env) (stage : Pipeline unit) (jobId : string) (t : nat) :
  orderly env stage →
  orderly env (stage ;; increment ;; record_step jobId t).
Proof.
  intros H. apply orderly_bind; [exact H|]. intros _.
  apply orderly_bind; [apply orderly_modify; reflexivity|]. intros _.
  apply orderly_modify. reflexivity.
Qed.

Lemma orderly_compress_final (env : Env) (jobId : string) (config : Config)
    (t : nat) :
  orderly env (compress_final env jobId config t).
Proof.
  unfold compress_final.
  apply orderly_bind.
  { apply orderly_run. intros ev s. apply forward_percent_ran. reflexivity. }
  intros _. apply orderly_bind; [apply orderly_modify; reflexivity|].
  intros _. apply orderly_modify. reflexivity.
Qed.

Lemma orderly_combine_pairs (env : Env) (jobId : string) (order : Order)
    (indices : list nat) :
  ∀ pairPaths, orderly env (combine_pairs env jobId order indices pairPaths).
Proof.
  induction indices as [|i indices IH]; intros pp; simpl.
  - apply orderly_ret.
  - apply orderly_bind; [|exact IH].
    unfold combine_pair_at.
    apply orderly_bind; [apply orderly_lift|]. intros pa.
    apply orderly_bind; [apply orderly_lift|]. intros pb.
    apply orderly_bind.
    { apply orderly_run. intros ev s. apply forward_percent_ran. reflexivity. }
    intros _. apply orderly_bind; [apply orderly_modify; reflexivity|].
    intros _. apply orderly_bind; [apply orderly_modify; reflexivity|].
    intros _. apply orderly_ret.
Qed.

Lemma orderly_processVideos (env : Env) (jobId : string) (order : Order)
    (config : Config) :
  orderly env (processVideos env jobId order config).
Proof.
  unfold processVideos. apply orderly_guard. unfold processVideos_try.
  apply orderly_bind; [apply orderly_combine_pairs|]. intros pp.
  apply orderly_bind; [|intros _; apply orderly_compress_final].
  unfold concatenate_pairs. apply orderly_stage.
  apply orderly_concatenateVideos. reflexivity.
Qed.

Lemma orderly_pad_shorter (env : Env) : orderly env (pad_shorter env).
Proof.
  unfold pad_shorter.
  apply orderly_bind; [apply orderly_lift|]. intros dA.
  apply orderly_bind; [apply orderly_lift|]. intros dB.
  destruct (JS.gt _ _); [|apply orderly_ret].
  destruct (JS.lt dA dB);
    (apply orderly_bind; [|intros _; apply orderly_ret]);
    apply orderly_run; intros ev s; apply forward_percent_ran; reflexivity.
Qed.

Lemma orderly_processVideosConcatenateFirst (env : Env) (jobId : string)
    (order : Order) (config : Config) :
  orderly env (processVideosConcatenateFirst env jobId order config).
Proof.
  assert (Hc : ∀ dir ids out,
             orderly env (concatenate_camera env jobId dir ids out)).
  { intros dir ids out. unfold concatenate_camera.
    apply orderly_bind; [apply orderly_lift|]. intros ps.
    apply orderly_stage. apply orderly_concatenateVideos. reflexivity. }
  unfold processVideosConcatenateFirst. apply orderly_guard.
  unfold processVideosConcatenateFirst_try.
  apply orderly_bind; [apply Hc|]. intros _.
  apply orderly_bind; [apply Hc|]. intros _.
  apply orderly_bind; [apply orderly_pad_shorter|]. intros fp.
  apply orderly_bind; [|intros _; apply orderly_compress_final].
  unfold combine_cameras. apply orderly_stage.
  apply orderly_run. intros ev s. apply forward_percent_ran. reflexivity.
Qed.

(** X18.  A failure stops the run: of the commands a job hands to the
    tool, every one but the last has ended without an error, so nothing
    is run after a command that failed; and when the job ends as done,
    the last one has ended well too. *)
Theorem no_command_after_failure (env : Env) (jobId : string) (order : Order)
    (config : Config) (st : State) :
  ∃ cmds,
    ran (run_job env jobId order config st) = (ran st ++ cmds)%list
    ∧ Forall (ended_well env) (removelast cmds)
    ∧ (get_status jobId (run_job env jobId order config st)
       = JobStatus (mkJob (JS.of_Z 100) done None) →
       Forall (ended_well env) cmds).
Proof.
  assert (Ho : orderly env
                 ((if default false (concatenateFirst config)
                   then processVideosConcatenateFirst
                   else processVideos) env jobId order config)).
  { destruct (default false (concatenateFirst config));
      [apply orderly_processVideosConcatenateFirst | apply orderly_processVideos]. }
  unfold run_job, get_status.
  destruct ((if default false (concatenateFirst config)
             then processVideosConcatenateFirst
             else processVideos) env jobId order config st) as [[u|e] st1] eqn:E;
    destruct (Ho _ _ _ E) as (cmds & R & F); exists cmds.
  - split; [exact R|]. split; [apply Forall_removelast; exact F | auto].
  - split; [exact R|]. split; [exact F|].
    simpl. rewrite lookup_insert_eq. discriminate.
Qed.

(** ** Uploads *)

Lemma uploads_dirs (env : Env) :
  join (uploadsBase env) "a" = uploadsADir env
  ∧ join (uploadsBase env) "b" = uploadsBDir env.
Proof. split; reflexivity. Qed.

(** X19.  An upload is only ever stored in one of the two directories
    the pipelines read: the destination of a camera is the directory of
    camera A for "a", that of camera B for "b", and an error for any
    other name. *)
Theorem destination_is_read (env : Env) (camera : string) :
  (∀ dir, destination env camera = Ok dir ↔
          (camera = "a" ∧ dir = uploadsADir env)
          ∨ (camera = "b" ∧ dir = uploadsBDir env))
  ∧ (camera ≠ "a" → camera ≠ "b" → ∃ m, destination env camera = Throw m).
Proof.
  destruct (uploads_dirs env) as [Ha Hb]. unfold destination. simpl.
  destruct (String.eqb_spec camera "a") as [->|Na].
  { simpl. rewrite Ha. split; [|congruence].
    intros dir. split.
    - intros [= <-]. auto.
    - intros [[_ ->] | [H _]]; [reflexivity | discriminate]. }
  destruct (String.eqb_spec camera "b") as [->|Nb].
  { simpl. rewrite Hb. split; [|congruence].
    intros dir. split.
    - intros [= <-]. auto.
    - intros [[H _] | [_ ->]]; [discriminate | reflexivity]. }
  simpl. split; [|eauto].
  intros dir. split; [discriminate|].
  intros [[H _] | [H _]]; congruence.
Qed.

Lemma delete_file_find (env : Env) (camera id : string) (dir : path) :
  join (uploadsBase env) camera = dir →
  (∀ p, delete_file env camera id = Ok (Unlinked p)
        ↔ findFileById env dir id = Ok p)
  ∧ (∀ files, readdirSync env dir = Ok files →
       (delete_file env camera id = Ok (DeleteNotFound "File not found")
        ↔ findFileById env dir id = Throw ("File not found for ID: " ++ id))).
Proof.
  intros <-. unfold delete_file, findFileById.
  destruct (readdirSync env _) as [files|m].
  - destruct (List.find _ files) as [file|]; split.
    + intros p. split; intros [= <-]; reflexivity.
    + intros fs _. split; discriminate.
    + intros p. split; discriminate.
    + intros fs _. split; reflexivity.
  - split.
    + intros p. split; discriminate.
    + intros fs. discriminate.
Qed.

(** X20.  [DELETE /:camera/:id] resolves an identifier as the pipelines
    do: for either camera, the file it unlinks is the file
    [findFileById] returns for the identifier in the directory of the
    camera, and it answers 404 exactly when [findFileById] throws that no
    file is found. *)
Theorem delete_resolves_like_find (env : Env) (id : string) :
  (∀ p, delete_file env "a" id = Ok (Unlinked p)
        ↔ findFileById env (uploadsADir env) id = Ok p)
  ∧ (∀ p, delete_file env "b" id = Ok (Unlinked p)
          ↔ findFileById env (uploadsBDir env) id = Ok p)
  ∧ (∀ files, readdirSync env (uploadsADir env) = Ok files →
       (delete_file env "a" id = Ok (DeleteNotFound "File not found")
        ↔ findFileById env (uploadsADir env) id
          = Throw ("File not found for ID: " ++ id)))
  ∧ (∀ files, readdirSync env (uploadsBDir env) = Ok files →
       (delete_file env "b" id = Ok (DeleteNotFound "File not found")
        ↔ findFileById env (uploadsBDir env) id
          = Throw ("File not found for ID: " ++ id))).
Proof.
  destruct (uploads_dirs env) as [Ha Hb].
  destruct (delete_file_find env "a" id _ Ha) as [A1 A2].
  destruct (delete_file_find env "b" id _ Hb) as [B1 B2].
  auto.
Qed.

(** ** The commands of a successful concatenate-first run *)

Lemma pad_shorter_ok (env : Env) (st st' : State) (fp : path * path) :
  pad_shorter env st = (Ok fp, st') →
  ∃ pad,
    ran st' = (ran st ++ pad)%list
    ∧ ((pad = [] ∧ fp = (concatAPath env, concatBPath env))
       ∨ (∃ amount,
            pad = [padVideo_command (concatAPath env) (paddedAPath env) amount]
            ∧ fp = (paddedAPath env, concatBPath env))
       ∨ (∃ amount,
            pad = [padVideo_command (concatBPath env) (paddedBPath env) amount]
            ∧ fp = (concatAPath env, paddedBPath env))).
Proof.
  unfold pad_shorter. rewrite bind_eq. unfold lift.
  destruct (getVideoDuration env (concatAPath env)) as [dA|e]; [|discriminate].
  rewrite bind_eq.
  destruct (getVideoDuration env (concatBPath env)) as [dB|e]; [|discriminate].
  destruct (JS.gt _ _).
  2: { intros [= <- <-]. exists []. rewrite app_nil_r. auto. }
  destruct (JS.lt dA dB); rewrite bind_eq, padVideo_spec;
    destruct (termination _); simpl; try discriminate;
    intros [= <- <-]; eexists; (split; [reflexivity|]); eauto.
Qed.

(** X21.  A successful concatenate-first run hands the tool, in this
    order: the re-encoding concatenation of camera A into concat_a.mp4,
    that of camera B into concat_b.mp4, at most one padding (of
    concat_a.mp4 into concat_a_padded.mp4 or of concat_b.mp4 into
    concat_b_padded.mp4), the combination of the two streams, where the
    padded file stands for the one it was made from, into combined.mp4,
    and the compression of combined.mp4 into final.mp4.  Nothing else is
    run. *)
Theorem concatenateFirst_commands (env : Env) (jobId : string) (order : Order)
    (config : Config) (st st' : State) :
  processVideosConcatenateFirst env jobId order config st = (Ok tt, st') →
  ∃ (pad : list Command) (fp : path * path),
    ran st'
    = (ran st
       ++ [ concatenateVideos_command (tempListPath env) (concatAPath env) true;
            concatenateVideos_command (tempListPath env) (concatBPath env) true ]
       ++ pad
       ++ [ combinePair_command (fst fp) (snd fp) (combinedPath env) empty_config;
            compressVideo_command (combinedPath env) (finalPath env) config ])%list
    ∧ ((pad = [] ∧ fp = (concatAPath env, concatBPath env))
       ∨ (∃ amount,
            pad = [padVideo_command (concatAPath env) (paddedAPath env) amount]
            ∧ fp = (paddedAPath env, concatBPath env))
       ∨ (∃ amount,
            pad = [padVideo_command (concatBPath env) (paddedBPath env) amount]
            ∧ fp = (concatAPath env, paddedBPath env))).
Proof.
  intros H. apply guarded_inv in H as (r1 & st1 & H1 & Hr & Hok).
  destruct (Hok tt eq_refl) as [-> ->]. clear Hok Hr.
  apply concatenateFirst_success
    in H1 as (s1 & s2 & s3 & s4 & fp & E1 & E2 & E3 & E4 & E5).
  apply concatenate_camera_ran in E1, E2. simpl in E1.
  apply pad_shorter_ok in E3 as (pad & R3 & Hpad).
  destruct (combine_cameras_reads env jobId (fst fp) (snd fp) s3)
    as (r & s4' & Hc & R4 & _).
  rewrite E4 in Hc. injection Hc as _ <-.
  apply compress_final_ran in E5.
  exists pad, fp. split; [|exact Hpad].
  rewrite E5, R4, R3, E2, E1, <- !app_assoc. reflexivity.
Qed.

(** Two segments per camera in a world whose prober answers 70 seconds
    for concat_a.mp4 and 60 for concat_b.mp4: five commands, the third
    the padding of concat_b.mp4. *)
Lemma concatenateFirst_commands_witness :
  ∃ (pad : list Command) (fp : path * path),
    ran (snd (processVideosConcatenateFirst (probe_world (JS.of_Z 70) (JS.of_Z 60))
                "job" two_pairs empty_config (init_state ∅)))
    = ([ concatenateVideos_command
           (tempListPath (probe_world (JS.of_Z 70) (JS.of_Z 60)))
           ["srv"; "output"; "concat_a.mp4"] true;
         concatenateVideos_command
           (tempListPath (probe_world (JS.of_Z 70) (JS.of_Z 60)))
           ["srv"; "output"; "concat_b.mp4"] true ]
       ++ pad
       ++ [ combinePair_command (fst fp) (snd fp) ["srv"; "output"; "combined.mp4"]
              empty_config;
            compressVideo_command ["srv"; "output"; "combined.mp4"]
              ["srv"; "output"; "final.mp4"] empty_config ])%list
    ∧ length pad = 1%nat.
Proof.
  destruct (processVideosConcatenateFirst (probe_world (JS.of_Z 70) (JS.of_Z 60))
              "job" two_pairs empty_config (init_state ∅)) as [r st'] eqn:E.
  assert (Hr : r = Ok tt).
  { assert (Hf : fst (processVideosConcatenateFirst
                        (probe_world (JS.of_Z 70) (JS.of_Z 60))
                        "job" two_pairs empty_config (init_state ∅)) = Ok tt)
      by (vm_compute; reflexivity).
    rewrite E in Hf. exact Hf. }
  subst r.
  assert (Hn : length (ran st') = 5%nat).
  { assert (Hf : length (ran (snd (processVideosConcatenateFirst
                        (probe_world (JS.of_Z 70) (JS.of_Z 60))
                        "job" two_pairs empty_config (init_state ∅)))) = 5%nat)
      by (vm_compute; reflexivity).
    rewrite E in Hf. exact Hf. }
  destruct (concatenateFirst_commands (probe_world (JS.of_Z 70) (JS.of_Z 60))
              "job" two_pairs empty_config (init_state ∅) st' E)
    as (pad & fp & Hran & _).
  exists pad, fp. split; [exact Hran|].
  simpl snd. rewrite Hran in Hn. simpl in Hn.
  rewrite length_app in Hn. simpl in Hn. lia.
Defined.

(** ** Percents by elapsed time *)

Lemma min_of_Z (x y : Z) : JS.min (JS.of_Z x) (JS.of_Z y) = JS.of_Z (Z.min x y).
Proof.
  unfold JS.min. change (JS.of_Z x) with (JS.Fin (inject_Z x)) at 1.
  change (JS.of_Z y) with (JS.Fin (inject_Z y)) at 1.
  cbv iota. change (JS.Fin (inject_Z x)) with (JS.of_Z x).
  change (JS.Fin (inject_Z y)) with (JS.of_Z y).
  rewrite lt_of_Z. destruct (bool_decide_reflect (y < x)%Z); f_equal; lia.
Qed.

Lemma timemark_percent (T a : Q) :
  0 < T →
  JS.min (JS.of_Z 99) (JS.round ((JS.Fin a / JS.Fin T) * JS.of_Z 100)%js)
  = JS.of_Z (Z.min 99 (Qfloor (a / T * 100 + (1 # 2)))).
Proof.
  intros HT. unfold JS.div.
  assert (Hz : Qeq_bool T 0 = false).
  { apply not_true_is_false. intros H. apply Qeq_bool_eq in H.
    rewrite H in HT. apply Qlt_irrefl in HT. exact HT. }
  rewrite Hz. change (JS.of_Z 100) with (JS.Fin 100).
  unfold JS.mul, JS.round.
  change (JS.Fin (inject_Z ?z)) with (JS.of_Z z).
  rewrite min_of_Z. reflexivity.
Qed.

(** X22.  In a re-encoding concatenation whose inputs sum up to a
    positive finite duration, the percent computed from a timemark is an
    integer within 0..99, and a later timemark never gives a smaller
    percent than an earlier one. *)
Theorem concat_percent_by_time (T a b : Q) (ev1 ev2 : Progress) :
  0 < T → 0 <= a → a <= b →
  truthy_string (timemark ev1) = true →
  truthy_string (timemark ev2) = true →
  parseTimemark (timemark ev1) = JS.Fin a →
  parseTimemark (timemark ev2) = JS.Fin b →
  ∃ z1 z2 : Z,
    concat_percent (JS.Fin T) ev1 = Some (JS.of_Z z1)
    ∧ concat_percent (JS.Fin T) ev2 = Some (JS.of_Z z2)
    ∧ (0 ≤ z1)%Z ∧ (z1 ≤ z2)%Z ∧ (z2 ≤ 99)%Z.
Proof.
  intros HT Ha Hab H1 H2 P1 P2.
  assert (Hgt : JS.gt (JS.Fin T) (JS.of_Z 0) = true).
  { unfold JS.gt, JS.of_Z. apply lt_fin. exact HT. }
  rewrite (concat_percent_timemark _ ev1 Hgt H1), P1.
  rewrite (concat_percent_timemark _ ev2 Hgt H2), P2.
  rewrite !timemark_percent by exact HT.
  eexists _, _. split; [reflexivity|]. split; [reflexivity|].
  assert (Hm : a / T * 100 + (1 # 2) <= b / T * 100 + (1 # 2)).
  { apply Qplus_le_l. apply Qmult_le_compat_r; [|discriminate].
    apply Qmult_le_compat_r; [exact Hab|].
    apply Qlt_le_weak. apply Qinv_lt_0_compat. exact HT. }
  assert (H0 : 0 <= a / T * 100 + (1 # 2)).
  { apply (Qle_trans _ (0 + (1 # 2))); [discriminate|].
    apply Qplus_le_l. apply Qmult_le_0_compat; [|discriminate].
    apply Qmult_le_0_compat; [exact Ha|].
    apply Qlt_le_weak. apply Qinv_lt_0_compat. exact HT. }
  apply Qfloor_resp_le in Hm. apply Qfloor_resp_le in H0.
  change (Qfloor 0) with 0%Z in H0. lia.
Qed.

(** A total of 10 seconds: 00:00:05.00 gives 50 and 00:00:10.00 gives 99. *)
Lemma concat_percent_by_time_witness :
  ∃ z1 z2 : Z,
    concat_percent (JS.Fin 10) (mkProgress None (Some "00:00:05.00"))
    = Some (JS.of_Z z1)
    ∧ concat_percent (JS.Fin 10) (mkProgress None (Some "00:00:10.00"))
      = Some (JS.of_Z z2)
    ∧ (0 ≤ z1)%Z ∧ (z1 ≤ z2)%Z ∧ (z2 ≤ 99)%Z.
Proof.
  refine (concat_percent_by_time 10 _ _
            (mkProgress None (Some "00:00:05.00"))
            (mkProgress None (Some "00:00:10.00")) _ _ _ eq_refl eq_refl
            eq_refl eq_refl).
  - reflexivity.
  - vm_compute. discriminate.
  - vm_compute. discriminate.
Defined.

(** ** Percents of the tool *)

Lemma round_in_range (q : Q) :
  0 <= q → q <= 100 → (0 ≤ Qfloor (q + (1 # 2)) ≤ 100)%Z.
Proof.
  intros H0 H1. split.
  - change 0%Z with (Qfloor 0). apply Qfloor_resp_le.
    apply (Qle_trans _ (0 + (1 # 2))); [discriminate|].
    apply Qplus_le_l. exact H0.
  - change 100%Z with (Qfloor (100 + (1 # 2))). apply Qfloor_resp_le.
    apply Qplus_le_l. exact H1.
Qed.

Lemma omap_cons {A B} (f : A → option B) (x : A) (l : list A) :
  omap f (x :: l)
  = match f x with Some y => y :: omap f l | None => omap f l end.
Proof. reflexivity. Qed.

(** What a finite percent [q] is forwarded as: nothing for 0, else the
    nearest integer. *)
Lemma forwarded_of_finite (evs : list Progress) :
  percents_in_range evs →
  omap simple_percent evs
  = map JS.of_Z
      (omap (fun q => if Qeq_bool q 0 then None else Some (Qfloor (q + (1 # 2))))
         (finite_percents evs))
  ∧ omap raw_percent evs = omap simple_percent evs.
Proof.
  intros H. induction H as [|ev evs Hev _ [IH1 IH2]]; [split; reflexivity|].
  unfold finite_percents in *. rewrite !omap_cons.
  destruct (percent ev) as [p|] eqn:Hp.
  - destruct (Hev p eq_refl) as (q & -> & H0 & H1).
    destruct (Qeq_bool q 0) eqn:Hq.
    + assert (Es : simple_percent ev = None).
      { unfold simple_percent. rewrite Hp. simpl. rewrite Hq. reflexivity. }
      assert (Er : raw_percent ev = None).
      { unfold raw_percent. rewrite Hp. simpl. rewrite Hq. reflexivity. }
      rewrite Es, Er, omap_cons, Hq. split; assumption.
    + assert (Es : simple_percent ev = Some (JS.of_Z (Qfloor (q + (1 # 2))))).
      { unfold simple_percent. rewrite Hp. simpl. rewrite Hq. reflexivity. }
      assert (Er : raw_percent ev = Some (JS.of_Z (Qfloor (q + (1 # 2))))).
      { unfold raw_percent. rewrite Hp. unfold JS.truthy, JS.round.
        rewrite Hq. cbn [negb].
        change (JS.Fin (inject_Z ?z)) with (JS.of_Z z).
        rewrite min_of_Z, Z.min_r by (apply round_in_range; assumption).
        reflexivity. }
      rewrite Es, Er, omap_cons, Hq, IH2, IH1. split; reflexivity.
  - assert (Es : simple_percent ev = None).
    { unfold simple_percent. rewrite Hp. reflexivity. }
    assert (Er : raw_percent ev = None).
    { unfold raw_percent. rewrite Hp. reflexivity. }
    rewrite Es, Er. split; assumption.
Qed.

Lemma sorted_rounded (qs : list Q) :
  StronglySorted Qle qs → Forall (fun q => 0 <= q ∧ q <= 100) qs →
  let zs := omap (fun q => if Qeq_bool q 0 then None
                           else Some (Qfloor (q + (1 # 2)))) qs in
  StronglySorted Z.le zs
  ∧ Forall (fun z => (0 ≤ z ≤ 100)%Z) zs
  ∧ Forall (fun z => ∃ q, q ∈ qs ∧ z = Qfloor (q + (1 # 2))) zs.
Proof.
  intros Hs Hr zs. subst zs. induction Hs as [|q qs Hs IH Hq].
  - repeat split; constructor.
  - inversion Hr as [|? ? [H0 H1] Hr']; subst.
    destruct (IH Hr') as (S1 & B1 & O1).
    assert (O2 : Forall (fun z => ∃ q', q' ∈ q :: qs ∧ z = Qfloor (q' + (1 # 2)))
                   (omap (fun q => if Qeq_bool q 0 then None
                                   else Some (Qfloor (q + (1 # 2)))) qs)).
    { eapply Forall_impl; [exact O1|]. intros z (q' & Hin & ->).
      exists q'. split; [apply elem_of_cons; auto | reflexivity]. }
    rewrite omap_cons. destruct (Qeq_bool q 0); [auto|].
    split; [|split].
    + constructor; [exact S1|].
      eapply Forall_impl; [exact O1|]. intros z (q' & Hin & ->).
      apply Qfloor_resp_le. apply Qplus_le_l.
      rewrite Forall_forall in Hq. apply Hq. exact Hin.
    + constructor; [apply round_in_range; assumption | exact B1].
    + constructor; [|exact O2].
      exists q. split; [apply elem_of_cons; auto | reflexivity].
Qed.

(** X23.  When the percents the tool reports are numbers within 0..100
    that never decrease, what [combinePair], [compressVideo] and
    [padVideo] hand to the progress callback, and what a concatenation
    without known durations hands to it, are integers within 0..100 that
    never decrease. *)
Theorem forwarded_percents_good (evs : list Progress) :
  percents_in_range evs →
  StronglySorted Qle (finite_percents evs) →
  good_percents (omap simple_percent evs)
  ∧ good_percents (omap raw_percent evs).
Proof.
  intros Hr Hs.
  destruct (forwarded_of_finite evs Hr) as [E1 E2].
  assert (Hb : Forall (fun q => 0 <= q ∧ q <= 100) (finite_percents evs)).
  { clear Hs E1 E2. unfold finite_percents.
    induction Hr as [|ev evs Hev _ IH]; [constructor|]. simpl.
    destruct (percent ev) as [p|]; [|exact IH].
    destruct (Hev p eq_refl) as (q & -> & H0 & H1). simpl.
    constructor; auto. }
  destruct (sorted_rounded _ Hs Hb) as (S1 & B1 & _).
  assert (G : good_percents (omap simple_percent evs)).
  { eexists. split; [exact E1|]. split; assumption. }
  split; [exact G | rewrite E2; exact G].
Qed.

(** The tool reports no percent, then 0, 12.4, 12.6 and 100: the
    callback receives 12, 13 and 100. *)
Lemma forwarded_percents_good_witness :
  good_percents
    (omap simple_percent
       [ mkProgress None None; percent_event 0;
         mkProgress (Some (JS.Fin (124 # 10))) None;
         mkProgress (Some (JS.Fin (126 # 10))) None; percent_event 100 ]).
Proof.
  apply forwarded_percents_good.
  - repeat constructor; intros p [= <-]; eexists; (split; [reflexivity|]);
      split; discriminate.
  - repeat constructor; discriminate.
Defined.

(** ** Bounds of the progress *)

Lemma within_weaken {A} (t n n' : nat) (m : Pipeline A) :
  within t n m → (n ≤ n')%nat → within t n' m.
Proof.
  intros H Hn st r st' E Hc. destruct (H st r st' E ltac:(lia)) as [H1 H2].
  split; [lia | exact H2].
Qed.

Lemma within_still {A} (t : nat) (m : Pipeline A) :
  (∀ st r st', m st = (r, st') →
     history st' = history st ∧ completedSteps st' = completedSteps st) →
  within t 0 m.
Proof.
  intros H st r st' E _. destruct (H st r st' E) as [Hh Hc].
  split; [lia|]. exists []. rewrite app_nil_r. split; [exact Hh | constructor].
Qed.

Lemma within_lift {A} (t : nat) (x : result A) : within t 0 (lift x).
Proof. apply within_still. intros st r st' [= <- <-]. auto. Qed.

Lemma within_ret {A} (t : nat) (a : A) : within t 0 (ret a).
Proof. apply within_still. intros st r st' [= <- <-]. auto. Qed.

Lemma within_bind {A B} (t n1 n2 : nat) (m : Pipeline A) (k : A → Pipeline B) :
  within t n1 m → (∀ a, within t n2 (k a)) → within t (n1 + n2) (bind m k).
Proof.
  intros Hm Hk st r st'. rewrite bind_eq.
  destruct (m st) as [[a|e] s1] eqn:E; intros H Hc.
  - destruct (Hm _ _ _ E ltac:(lia)) as (C1 & ws1 & H1 & F1).
    destruct (Hk a _ _ _ H ltac:(lia)) as (C2 & ws2 & H2 & F2).
    split; [lia|]. exists (ws1 ++ ws2)%list.
    split; [rewrite H2, H1, app_assoc; reflexivity | apply Forall_app; auto].
  - injection H as <- <-.
    destruct (Hm _ _ _ E ltac:(lia)) as (C1 & ws1 & H1 & F1).
    split; [lia | eauto].
Qed.

Lemma stepProgress_record (jobId : string) (t c : nat) (s : Status)
    (e : option string) :
  (0 < t)%nat → (c ≤ t)%nat →
  percent_record (jobId, mkJob (stepProgress c t) s e).
Proof.
  intros Ht Hc. exists (round_div (100 * Z.of_nat c) (Z.of_nat t)).
  split; [apply stepProgress_Z; exact Ht|]. split.
  - apply round_div_nonneg; lia.
  - transitivity (round_div (100 * Z.of_nat t) (Z.of_nat t)).
    + apply round_div_mono; lia.
    + rewrite round_div_full; lia.
Qed.

Lemma writes_of_records (jobId : string) (t c : nat) (ps : list number) :
  (0 < t)%nat → (c < t)%nat → good_percents ps →
  Forall percent_record (writes_of jobId t c ps).
Proof.
  intros Ht Hc (zs & -> & _ & Hb). unfold writes_of.
  induction Hb as [|z zs Hz _ IH]; simpl; constructor; [|exact IH].
  exists (round_div (100 * Z.of_nat c + z) (Z.of_nat t)).
  split; [apply overallProgress_Z; exact Ht|]. split.
  - apply round_div_nonneg; lia.
  - transitivity (round_div (100 * Z.of_nat t) (Z.of_nat t)).
    + apply round_div_mono; lia.
    + rewrite round_div_full; lia.
Qed.

Lemma within_stage (env : Env) (jobId : string) (t : nat) (stage : Pipeline unit) :
  well_behaved env → (0 < t)%nat →
  (∀ st, staged env (fun _ => True) jobId t stage st) →
  ∀ st r st',
    stage st = (r, st') → (completedSteps st + 1 ≤ t)%nat →
    completedSteps st' = completedSteps st
    ∧ ∃ ws, history st' = (history st ++ ws)%list ∧ Forall percent_record ws.
Proof.
  intros Hw Ht Hs st r st' E Hc.
  destruct (Hs st) as (ps & cmds & r1 & st1 & E1 & He & _ & [Hh _ _] & Hc1).
  rewrite E in E1. injection E1 as <- <-.
  split; [exact Hc1|]. eexists. split; [exact Hh|].
  apply writes_of_records; [exact Ht | lia | apply Hw; exact He].
Qed.

Lemma within_step (env : Env) (jobId : string) (t : nat) (stage : Pipeline unit) :
  well_behaved env → (0 < t)%nat →
  (∀ st, staged env (fun _ => True) jobId t stage st) →
  within t 1 (stage ;; increment ;; record_step jobId t).
Proof.
  intros Hw Ht Hs st r st'. rewrite bind_eq.
  destruct (stage st) as [[[]|e] s1] eqn:E; intros H Hc;
    destruct (within_stage env jobId t stage Hw Ht Hs _ _ _ E Hc)
      as (C1 & ws & Hh & F).
  - unfold increment, record_step, modify in H. rewrite !bind_eq in H.
    injection H as <- <-. simpl. split; [lia|].
    exists (ws ++ [(jobId, mkJob (stepProgress (S (completedSteps s1)) t)
                             processing None)])%list.
    split; [rewrite Hh, app_assoc; reflexivity|].
    apply Forall_app. split; [exact F|].
    constructor; [|constructor]. apply stepProgress_record; [exact Ht | lia].
  - injection H as <- <-. split; [lia | eauto].
Qed.

Lemma within_compress_final (env : Env) (jobId : string) (config : Config)
    (t : nat) :
  well_behaved env → (0 < t)%nat →
  within t 1 (compress_final env jobId config t).
Proof.
  intros Hw Ht st r st'. unfold compress_final. rewrite bind_eq.
  destruct (compressVideo env _ _ config _ st) as [[[]|e] s1] eqn:E;
    intros H Hc;
    destruct (within_stage env jobId t _ Hw Ht
                (fun s => compressVideo_staged env (fun _ => True) jobId t
                            (combinedPath env) (finalPath env) config s I)
                _ _ _ E Hc) as (C1 & ws & Hh & F).
  - unfold increment, modify in H. rewrite !bind_eq in H.
    injection H as <- <-. simpl. split; [lia|].
    exists (ws ++ [done_write jobId])%list.
    split; [rewrite Hh, app_assoc; reflexivity|].
    apply Forall_app. split; [exact F|].
    constructor; [|constructor]. exists 100%Z. split; [reflexivity | lia].
  - injection H as <- <-. split; [lia | eauto].
Qed.

Lemma within_ext {A} (t n : nat) (m m' : Pipeline A) :
  (∀ st, m' st = m st) → within t n m → within t n m'.
Proof.
  intros He H st r st' E. rewrite He in E. exact (H st r st' E).
Qed.

Lemma step_then_eq {A} (stage : Pipeline unit) (jobId : string) (t : nat)
    (k : Pipeline A) (st : State) :
  (stage ;; increment ;; record_step jobId t ;; k) st
  = ((stage ;; increment ;; record_step jobId t) ;; k) st.
Proof.
  rewrite bind_assoc, !bind_eq.
  destruct (stage st) as [[[]|e] s1]; [|reflexivity].
  rewrite bind_assoc. reflexivity.
Qed.

Lemma within_combine_pairs (env : Env) (jobId : string) (order : Order)
    (indices : list nat) :
  well_behaved env →
  ∀ pairPaths,
    within (totalSteps_pairwise order) (length indices)
      (combine_pairs env jobId order indices pairPaths).
Proof.
  intros Hw. assert (Ht : (0 < totalSteps_pairwise order)%nat)
    by (unfold totalSteps_pairwise; lia).
  induction indices as [|i indices IH]; intros pp; simpl.
  - apply within_ret.
  - apply (within_bind _ 1 (length indices)); [|exact IH].
    unfold combine_pair_at.
    apply (within_bind _ 0 1); [apply within_lift|]. intros pa.
    apply (within_bind _ 0 1); [apply within_lift|]. intros pb.
    eapply within_ext; [intros st; apply step_then_eq|].
    apply (within_bind _ 1 0); [|intros _; apply within_ret].
    apply (within_step env); [exact Hw | exact Ht|].
    intros s. apply combinePair_staged. exact I.
Qed.

Lemma within_guard (body : Pipeline unit) (jobId : string) (t : nat) :
  (0 < t)%nat → within t t body →
  ∀ st r st',
    (modify (set_completedSteps 0) ;; try_catch body (on_error jobId t)) st
    = (r, st') →
    ∃ ws, history st' = (history st ++ ws)%list ∧ Forall percent_record ws.
Proof.
  intros Ht Hb st r st'. rewrite guarded_run.
  destruct (body (set_completedSteps 0 st)) as [[a|e] s1] eqn:E;
    destruct (Hb _ _ _ E ltac:(simpl; lia)) as (C1 & ws & Hh & F);
    simpl in Hh, C1; intros [= <- <-].
  - eauto.
  - exists (ws ++ [(jobId, mkJob (stepProgress (completedSteps s1) t) error
                             (Some e))])%list.
    simpl. split; [rewrite Hh, app_assoc; reflexivity|].
    apply Forall_app. split; [exact F|].
    constructor; [|constructor]. apply stepProgress_record; [exact Ht | lia].
Qed.

Lemma within_processVideos_try (env : Env) (jobId : string) (order : Order)
    (config : Config) :
  well_behaved env →
  within (totalSteps_pairwise order) (totalSteps_pairwise order)
    (processVideos_try env jobId order config).
Proof.
  intros Hw. assert (Ht : (0 < totalSteps_pairwise order)%nat)
    by (unfold totalSteps_pairwise; lia).
  unfold processVideos_try.
  apply (within_weaken _ (length (seq 0 (numPairs order)) + (1 + 1)));
    [|rewrite length_seq; unfold totalSteps_pairwise; lia].
  apply within_bind; [apply within_combine_pairs; exact Hw|]. intros pp.
  apply within_bind; [|intros _; apply within_compress_final; assumption].
  unfold concatenate_pairs. apply (within_step env); [exact Hw | exact Ht|].
  intros s. apply concatenateVideos_staged. exact I.
Qed.

Lemma within_processVideosConcatenateFirst_try (env : Env) (jobId : string)
    (order : Order) (config : Config) :
  well_behaved env →
  within totalSteps_concatenateFirst totalSteps_concatenateFirst
    (processVideosConcatenateFirst_try env jobId order config).
Proof.
  intros Hw. assert (Ht : (0 < totalSteps_concatenateFirst)%nat)
    by (unfold totalSteps_concatenateFirst; lia).
  assert (Hc : ∀ dir ids out,
             within totalSteps_concatenateFirst 1
               (concatenate_camera env jobId dir ids out)).
  { intros dir ids out. unfold concatenate_camera.
    apply (within_bind _ 0 1); [apply within_lift|]. intros ps.
    apply (within_step env); [exact Hw | exact Ht|].
    intros s. apply concatenateVideos_staged. exact I. }
  unfold processVideosConcatenateFirst_try.
  apply (within_bind _ 1 3); [apply Hc|]. intros _.
  apply (within_bind _ 1 2); [apply Hc|]. intros _.
  apply (within_bind _ 0 2).
  { apply within_still. intros st r st' E.
    apply pad_shorter_effect with (config := config)
      in E as (cmds & _ & [Hh _ _] & Hcs).
    rewrite app_nil_r in Hh. auto. }
  intros fp.
  apply (within_bind _ 1 1); [|intros _; apply within_compress_final; assumption].
  unfold combine_cameras. apply (within_step env); [exact Hw | exact Ht|].
  intros s. apply combinePair_staged. exact I.
Qed.


